(** * PartyHouse KPI pipeline: a shallow embedding of [server/kpis.js]
    and [server/explorer.js], and the properties of the block-scanning and
    aggregation code.

    Conventions of the embedding.
    - JavaScript numbers that hold block heights, counts and millisecond
      timestamps are integers [Z]; prices are rationals [Q] that are only
      stored and returned, never computed with.
    - Amounts of ether are kept in wei, as integers.  The JavaScript stores the
      double [Number(wei) / 1e18]; that double is [0] exactly when the wei
      amount is [0] and positive exactly when the wei amount is, which is all
      the code ever tests.
    - Strings are ASCII strings; addresses and hashes are hexadecimal text.
    - An [async] function is a computation in the monad [M]: it reads and
      writes the persisted collections and the module-level price cache, it
      either returns a value or throws, and every request it makes to a
      collaborator (JSON-RPC node, HTTP service, MongoDB) is appended to a
      trace.  The answer of a collaborator is given by an oracle [Env] that is
      indexed by the number of requests made so far, so answers may change
      from one request to the next.
    - Calendar days are UTC days (the server clock has no daylight saving). *)

From Stdlib Require Import ZArith QArith String Ascii List Lia Bool.
From stdpp Require Import base list gmap strings sorting.

Local Open Scope Z_scope.

(** ** Outcomes of a call *)

Inductive error : Type :=
| ErrConfig      (* a required setting is missing *)
| ErrRpc         (* the JSON-RPC node failed *)
| ErrNetwork     (* fetch() rejected *)
| ErrHttp (status : Z)   (* non-2xx answer, thrown by the caller of fetch *)
| ErrParse       (* response.json() or BigInt() rejected its input *)
| ErrMissing     (* an expected field is absent *)
| ErrType        (* property read on null *)
| ErrReference   (* read of an undeclared identifier *)
| ErrDb.         (* MongoDB rejected the operation *)

Inductive outcome (A : Type) : Type :=
| Ret (a : A)
| Throw (e : error).
Arguments Ret {A} a.
Arguments Throw {A} e.

Definition returns {A : Type} (o : outcome A) : bool :=
  match o with Ret _ => true | Throw _ => false end.

(** ** Data model *)

(** A document of [AddressActivityCollection]: [{ address, timestamp, blockNumber }]. *)
Record ActivityEvent : Type := mkActivity {
  address : string;
  act_timestamp : Z;
  act_blockNumber : Z
}.

Inductive BridgeKind : Type := deposit | withdrawal.

#[global] Instance BridgeKind_eq_dec : EqDecision BridgeKind.
Proof. solve_decision. Defined.

(** A document of [BridgeActivityCollection].  Its [_id] is its position in
    the collection (documents are never deleted). *)
Record BridgeEvent : Type := mkBridge {
  txHash : string;
  type : BridgeKind;
  from : string;
  to : option string;
  value : Z;
  br_timestamp : Z;
  br_blockNumber : Z;
  l2TxHash : string
}.

(** A document of [DailyTransactionsCollection] or
    [WeeklyActiveAddressesCollection]: [{ date, count, timestamp, updatedAt }]. *)
Record Snapshot : Type := mkSnapshot {
  date : Z;
  count : Z;
  snap_timestamp : Z;
  updatedAt : Z
}.

(** [let ethPriceCache = { price: null, timestamp: 0 }] *)
Record PriceCache : Type := mkCache {
  price : option Q;
  cache_timestamp : Z
}.

(** What the chain client returns for a block and for a transaction. *)
Record Block : Type := mkBlock {
  blk_timestamp : Z;             (* seconds; 0 when absent *)
  transactions : list string
}.

Record Tx : Type := mkTx {
  tx_from : option string;
  tx_to : option string;
  tx_value : Z;                  (* wei *)
  tx_type : option Z
}.

(** An HTTP response whose body parses to [J]. *)
Record Response (J : Type) : Type := mkResponse {
  ok : bool;
  status : Z;
  json : outcome J               (* response.json() *)
}.
Arguments mkResponse {J} _ _ _.
Arguments ok {J} _.
Arguments status {J} _.
Arguments json {J} _.

(** One element of [data.items] of the explorer's internal-transactions
    answer: [from.hash] ([None] when [from] is null) and [value] ([None] when
    the field is absent, empty or not the decimal text of an integer). *)
Record InternalTx : Type := mkInternalTx {
  itx_from : option string;
  itx_value : option Z
}.

Record BackfillConfig : Type := mkBackfillConfig {
  enabled : bool;
  blockCount : Z
}.

(** [Meteor.settings.hpp], as far as the modelled code reads it. *)
Record Settings : Type := mkSettings {
  rpcEndpoint : option string;
  blockExplorer : option string;
  backfill_bridgeActivity : option BackfillConfig
}.

(** The explorer's [/stats] document, as far as its callers read it. *)
Record Stats : Type := mkStats {
  transactions_today : Z;
  total_transactions : Z;
  total_addresses : Z
}.

(** Requests to the collaborators, in the order they are made. *)
Inductive request : Type :=
| ReqBlockNumber
| ReqBlock (height : Z)
| ReqTransaction (hash : string)
| ReqReceipt (hash : string)
| ReqInternalTxs (hash : string)
| ReqPrice
| ReqStats
| ReqDb.

(** The collaborators.  The first argument of every oracle is the number of
    requests made before this one. *)
Record Env : Type := mkEnv {
  settings : Settings;
  clock : nat -> Z;                                   (* Date.now() *)
  rpc_getBlockNumber : nat -> outcome Z;
  rpc_getBlock : nat -> Z -> outcome (option Block);
  rpc_getTransaction : nat -> string -> outcome (option Tx);
  rpc_getTransactionReceipt : nat -> string -> outcome unit;
  http_internalTxs : nat -> string -> outcome (Response (option (list InternalTx)));
  http_price : nat -> outcome (Response (option Q));  (* body: data.ethereum?.usd *)
  http_stats : nat -> outcome (Response Stats);
  db_fails : nat -> bool                              (* MongoDB rejects the operation *)
}.

(** The counters a running function declares with [let] and increments; they
    are part of the state because an increment made inside a [try] block
    survives the exception that leaves the block. *)
Record Locals : Type := mkLocals {
  addressesAdded : Z;
  depositsFound : Z;
  withdrawalsFound : Z;
  snapshotsCreated : Z;
  updated : Z;
  errors : Z
}.

(** The persisted collections, the price cache, the counters of the running
    function and the trace of requests. *)
Record State : Type := mkState {
  addressActivity : list ActivityEvent;
  bridgeActivity : list BridgeEvent;
  dailyTransactions : list Snapshot;
  weeklyActiveAddresses : list Snapshot;
  ethPriceCache : PriceCache;
  locals : Locals;
  trace : list request
}.

Definition noLocals : Locals := mkLocals 0 0 0 0 0 0.

Definition emptyState : State :=
  mkState [] [] [] [] (mkCache None 0) noLocals [].

Definition set_addressActivity (l : list ActivityEvent) (s : State) : State :=
  mkState l (bridgeActivity s) (dailyTransactions s) (weeklyActiveAddresses s)
          (ethPriceCache s) (locals s) (trace s).
Definition set_bridgeActivity (l : list BridgeEvent) (s : State) : State :=
  mkState (addressActivity s) l (dailyTransactions s) (weeklyActiveAddresses s)
          (ethPriceCache s) (locals s) (trace s).
Definition set_dailyTransactions (l : list Snapshot) (s : State) : State :=
  mkState (addressActivity s) (bridgeActivity s) l (weeklyActiveAddresses s)
          (ethPriceCache s) (locals s) (trace s).
Definition set_weeklyActiveAddresses (l : list Snapshot) (s : State) : State :=
  mkState (addressActivity s) (bridgeActivity s) (dailyTransactions s) l
          (ethPriceCache s) (locals s) (trace s).
Definition set_ethPriceCache (c : PriceCache) (s : State) : State :=
  mkState (addressActivity s) (bridgeActivity s) (dailyTransactions s)
          (weeklyActiveAddresses s) c (locals s) (trace s).
Definition set_locals (f : Locals -> Locals) (s : State) : State :=
  mkState (addressActivity s) (bridgeActivity s) (dailyTransactions s)
          (weeklyActiveAddresses s) (ethPriceCache s) (f (locals s)) (trace s).
Definition record (r : request) (s : State) : State :=
  mkState (addressActivity s) (bridgeActivity s) (dailyTransactions s)
          (weeklyActiveAddresses s) (ethPriceCache s) (locals s) (trace s ++ [r]).

(** Number of requests made so far. *)
Definition tick (s : State) : nat := length (trace s).

(** ** The monad of async functions *)

Definition M (A : Type) : Type := State -> outcome A * State.

Definition ret {A : Type} (a : A) : M A := fun s => (Ret a, s).

Definition throw {A : Type} (e : error) : M A := fun s => (Throw e, s).

Definition bind {A B : Type} (m : M A) (k : A -> M B) : M B :=
  fun s => match m s with
           | (Ret a, s') => k a s'
           | (Throw e, s') => (Throw e, s')
           end.

(** [try { m } catch (e) { h e }] *)
Definition tryCatch {A : Type} (m : M A) (h : error -> M A) : M A :=
  fun s => match m s with
           | (Ret a, s') => (Ret a, s')
           | (Throw e, s') => h e s'
           end.

Definition gets {A : Type} (f : State -> A) : M A := fun s => (Ret (f s), s).

Definition modify (f : State -> State) : M unit := fun s => (Ret tt, f s).

(** [await] on an already computed outcome. *)
Definition lift {A : Type} (o : outcome A) : M A := fun s => (o, s).

(** A request to a collaborator. *)
Definition call {A : Type} (r : request) (answer : nat -> outcome A) : M A :=
  fun s => (answer (tick s), record r s).

Notation "'let*' x ':=' m 'in' k" := (bind m (fun x => k))
  (at level 10, x name, m at level 100, k at level 200).

(** [for (const x of l) { body x }] *)
Fixpoint forEach {A : Type} (l : list A) (body : A -> M unit) : M unit :=
  match l with
  | [] => ret tt
  | x :: rest => let* _ := body x in forEach rest body
  end.

(** ** JavaScript helpers *)

(** [String.prototype.toLowerCase] on ASCII text. *)
Definition lowerAscii (c : ascii) : ascii :=
  let n := nat_of_ascii c in
  if (Nat.leb 65 n && Nat.leb n 90)%bool then ascii_of_nat (n + 32) else c.

Fixpoint toLowerCase (s : string) : string :=
  match s with
  | EmptyString => EmptyString
  | String c rest => String (lowerAscii c) (toLowerCase rest)
  end.

(** Truthiness of a string-valued property that may be absent. *)
Definition truthyString (o : option string) : option string :=
  match o with
  | Some s => if String.eqb s "" then None else Some s
  | None => None
  end.

(** Truthiness of a number-valued property that may be absent. *)
Definition truthyNumber (o : option Q) : option Q :=
  match o with
  | Some q => if Qeq_bool q 0 then None else Some q
  | None => None
  end.

(** [SYSTEM_ADDRESSES] (kpis.js, lines 209-228) *)
Definition SYSTEM_ADDRESSES : list string := [
  "0x0000000000000000000000000000000000000000";
  "0x0000000000000000000000000000000000000001";
  "0x0000000000000000000000000000000000000002";
  "0x0000000000000000000000000000000000000064";
  "0x0000000000000000000000000000000000000065";
  "0x0000000000000000000000000000000000000066";
  "0x0000000000000000000000000000000000000067";
  "0x0000000000000000000000000000000000000068";
  "0x000000000000000000000000000000000000006b";
  "0x000000000000000000000000000000000000006c";
  "0x000000000000000000000000000000000000006d";
  "0x000000000000000000000000000000000000006e";
  "0x000000000000000000000000000000000000006f";
  "0x0000000000000000000000000000000000000070";
  "0x0000000000000000000000000000000000000071";
  "0x0000000000000000000000000000000000000072";
  "0x0000000000000000000000000000000000000073";
  "0x00000000000000000000000000000000000a4b05"
]%string.

Definition ARBSYS_ADDRESS : string := "0x0000000000000000000000000000000000000064".

Definition ZERO_ADDRESS : string := "0x0000000000000000000000000000000000000000".

(** The transaction type of an L1-to-L2 deposit. *)
Definition DEPOSIT_TX_TYPE : Z := 105.

Definition DAY_MS : Z := 24 * 60 * 60 * 1000.

(** [d.setHours(0, 0, 0, 0)] *)
Definition startOfDay (t : Z) : Z := t - t mod DAY_MS.

(** [d.setDate(d.getDate() + n)] *)
Definition addDays (t n : Z) : Z := t + n * DAY_MS.

(** [findOneAsync({}, { sort: { blockNumber: -1 }, limit: 1 })]: a document
    with the greatest [blockNumber]. *)
Definition newer (best : option ActivityEvent) (e : ActivityEvent) : option ActivityEvent :=
  match best with
  | None => Some e
  | Some b => if act_blockNumber b <? act_blockNumber e then Some e else Some b
  end.

Definition lastByBlockNumber (l : list ActivityEvent) : option ActivityEvent :=
  fold_left newer l None.

(** [findOneAsync({ txHash })] *)
Definition findByTxHash (h : string) (l : list BridgeEvent) : option BridgeEvent :=
  List.find (fun b => String.eqb (txHash b) h) l.

(** [$match: { timestamp: { $gte, $lt }, address: { $nin: SYSTEM_ADDRESSES } }];
    the upper bound is optional. *)
Definition matchActive (gte : Z) (lt : option Z) (e : ActivityEvent) : bool :=
  (gte <=? act_timestamp e)
  && match lt with Some u => act_timestamp e <? u | None => true end
  && negb (bool_decide (address e ∈ SYSTEM_ADDRESSES)).

(** [$group: { _id: '$address' }]: one document per distinct address. *)
Definition groupByAddress (l : list ActivityEvent) : list string :=
  remove_dups (address <$> l).

(** [$count]: one document holding the number of inputs, none for no input. *)
Definition countStage {A : Type} (l : list A) : list Z :=
  match l with
  | [] => []
  | _ => [Z.of_nat (length l)]
  end.

(** The aggregation pipeline of the weekly-active-address queries. *)
Definition uniqueAddressesPipeline (gte : Z) (lt : option Z)
    (l : list ActivityEvent) : list Z :=
  countStage (groupByAddress (filter (fun e => matchActive gte lt e = true) l)).

(** [result.length > 0 ? result[0].uniqueAddresses : 0] *)
Definition firstCount (result : list Z) : Z :=
  match result with
  | c :: _ => c
  | [] => 0
  end.

(** [find({ timestamp: { $gte, $lt } }).countAsync()] *)
Definition countBetween (gte lt : Z) (l : list ActivityEvent) : Z :=
  Z.of_nat (length (filter (fun e => gte <= act_timestamp e < lt) l)).

(** [items.find(tx => tx.from.hash === ZERO_ADDRESS)]; reading [hash] of a
    null [from] throws. *)
Fixpoint findDepositTransfer (items : list InternalTx) : outcome (option InternalTx) :=
  match items with
  | [] => Ret None
  | item :: rest =>
      match itx_from item with
      | None => Throw ErrType
      | Some h => if String.eqb h ZERO_ADDRESS then Ret (Some item)
                  else findDepositTransfer rest
      end
  end.

(** What [backfillBridgeActivity] returns. *)
Record BackfillResult : Type := mkBackfillResult {
  res_addressesAdded : Z;
  res_depositsFound : Z;
  res_withdrawalsFound : Z;
  blocksScanned : Z
}.

Definition nothingScanned : BackfillResult := mkBackfillResult 0 0 0 0.

(** What [backfillDepositAmounts] returns; [total] is absent from the early
    return. *)
Record DepositBackfillResult : Type := mkDepositBackfillResult {
  res_updated : Z;
  res_errors : Z;
  total : option Z
}.

Definition PRICE_CACHE_TTL : Z := 5 * 60 * 1000.

Definition DEFAULT_ETH_PRICE : Q := 3000 # 1.

Section Operations.

Variable env : Env.

(** [Date.now()] and [new Date()]: the clock is read, no request is made. *)
Definition dateNow : M Z := fun s => (Ret (clock env (tick s)), s).

(** ** [getEthPrice] (kpis.js, lines 41-80) *)

(** [ethPriceCache.price && (now - ethPriceCache.timestamp) < PRICE_CACHE_TTL] *)
Definition freshPrice (cache : PriceCache) (now : Z) : option Q :=
  match truthyNumber (price cache) with
  | Some cached =>
      if now - cache_timestamp cache <? PRICE_CACHE_TTL then Some cached else None
  | None => None
  end.

Definition getEthPrice : M Q :=
  tryCatch
    (let* now := dateNow in
     let* cache := gets ethPriceCache in
     match freshPrice cache now with
     | Some cached => ret cached
     | None =>
         let* response := call ReqPrice (http_price env) in
         if negb (ok response) then throw (ErrHttp (status response))
         else
           let* data := lift (json response) in
           match truthyNumber data with
           | None => throw ErrMissing
           | Some p =>
               let* _ := modify (set_ethPriceCache (mkCache (Some p) now)) in
               ret p
           end
     end)
    (fun _ =>
       let* cache := gets ethPriceCache in
       match truthyNumber (price cache) with
       | Some cached => ret cached
       | None => ret DEFAULT_ETH_PRICE
       end).

(** ** Collaborators *)

(** [getProvider] (blockchain.js): fails when the RPC endpoint is not
    configured. *)
Definition getProvider : M unit :=
  match rpcEndpoint (settings env) with
  | Some _ => ret tt
  | None => throw ErrConfig
  end.

Definition provider_getBlockNumber : M Z :=
  call ReqBlockNumber (rpc_getBlockNumber env).

Definition provider_getBlock (i : Z) : M (option Block) :=
  call (ReqBlock i) (fun t => rpc_getBlock env t i).

(** [getBlock] (blockchain.js) *)
Definition getBlock (i : Z) : M (option Block) :=
  let* _ := getProvider in provider_getBlock i.

Definition provider_getTransaction (h : string) : M (option Tx) :=
  call (ReqTransaction h) (fun t => rpc_getTransaction env t h).

Definition provider_getTransactionReceipt (h : string) : M unit :=
  call (ReqReceipt h) (fun t => rpc_getTransactionReceipt env t h).

(** One MongoDB operation: it is rejected, or it goes through. *)
Definition mongo : M unit :=
  call ReqDb (fun t => if db_fails env t then Throw ErrDb else Ret tt).

Definition AddressActivity_insert (e : ActivityEvent) : M unit :=
  let* _ := mongo in
  modify (fun s => set_addressActivity (addressActivity s ++ [e]) s).

Definition AddressActivity_findLast : M (option ActivityEvent) :=
  let* _ := mongo in gets (fun s => lastByBlockNumber (addressActivity s)).

Definition AddressActivity_count (gte lt : Z) : M Z :=
  let* _ := mongo in gets (fun s => countBetween gte lt (addressActivity s)).

Definition AddressActivity_uniqueAddresses (gte : Z) (lt : option Z) : M (list Z) :=
  let* _ := mongo in
  gets (fun s => uniqueAddressesPipeline gte lt (addressActivity s)).

Definition BridgeActivity_insert (b : BridgeEvent) : M unit :=
  let* _ := mongo in
  modify (fun s => set_bridgeActivity (bridgeActivity s ++ [b]) s).

Definition BridgeActivity_findOne (h : string) : M (option BridgeEvent) :=
  let* _ := mongo in gets (fun s => findByTxHash h (bridgeActivity s)).

(** [find({ type: 'deposit', value: 0 })], each document with its [_id]. *)
Definition zeroDeposits (l : list BridgeEvent) : list (nat * BridgeEvent) :=
  filter (fun d => type (snd d) = deposit /\ value (snd d) = 0) (imap pair l).

Definition BridgeActivity_findZeroDeposits : M (list (nat * BridgeEvent)) :=
  let* _ := mongo in gets (fun s => zeroDeposits (bridgeActivity s)).

Definition set_value (v : Z) (b : BridgeEvent) : BridgeEvent :=
  mkBridge (txHash b) (type b) (from b) (to b) v
           (br_timestamp b) (br_blockNumber b) (l2TxHash b).

(** [updateAsync({ _id }, { $set: { value } })] *)
Definition BridgeActivity_setValue (id : nat) (v : Z) : M unit :=
  let* _ := mongo in
  modify (fun s => set_bridgeActivity (alter (set_value v) id (bridgeActivity s)) s).

Definition DailyTransactions_insert (d : Snapshot) : M unit :=
  let* _ := mongo in
  modify (fun s => set_dailyTransactions (dailyTransactions s ++ [d]) s).

Definition WeeklyActiveAddresses_insert (d : Snapshot) : M unit :=
  let* _ := mongo in
  modify (fun s => set_weeklyActiveAddresses (weeklyActiveAddresses s ++ [d]) s).

(** Counters. *)
Definition setLocals (f : Locals -> Locals) : M unit := modify (set_locals f).

Definition incr_addressesAdded (l : Locals) : Locals :=
  mkLocals (addressesAdded l + 1) (depositsFound l) (withdrawalsFound l)
           (snapshotsCreated l) (updated l) (errors l).
Definition incr_depositsFound (l : Locals) : Locals :=
  mkLocals (addressesAdded l) (depositsFound l + 1) (withdrawalsFound l)
           (snapshotsCreated l) (updated l) (errors l).
Definition incr_withdrawalsFound (l : Locals) : Locals :=
  mkLocals (addressesAdded l) (depositsFound l) (withdrawalsFound l + 1)
           (snapshotsCreated l) (updated l) (errors l).
Definition incr_snapshotsCreated (l : Locals) : Locals :=
  mkLocals (addressesAdded l) (depositsFound l) (withdrawalsFound l)
           (snapshotsCreated l + 1) (updated l) (errors l).
Definition incr_updated (l : Locals) : Locals :=
  mkLocals (addressesAdded l) (depositsFound l) (withdrawalsFound l)
           (snapshotsCreated l) (updated l + 1) (errors l).
Definition incr_errors (l : Locals) : Locals :=
  mkLocals (addressesAdded l) (depositsFound l) (withdrawalsFound l)
           (snapshotsCreated l) (updated l) (errors l + 1).

(** ** [fetchDepositAmount] (kpis.js, lines 86-119), in wei *)

Definition fetchDepositAmount (h : string) : M Z :=
  tryCatch
    (let* response := call (ReqInternalTxs h) (fun t => http_internalTxs env t h) in
     if negb (ok response) then ret 0
     else
       let* data := lift (json response) in
       match data with
       | None | Some [] => ret 0
       | Some items =>
           let* depositTransfer := lift (findDepositTransfer items) in
           match depositTransfer with
           | Some {| itx_value := Some valueInWei |} => ret valueInWei
           | _ => ret 0
           end
       end)
    (fun _ => ret 0).

(** ** [processNewBlocks] (kpis.js, lines 234-333) *)

(** [block.timestamp ? new Date(block.timestamp * 1000) : new Date()] *)
Definition blockDate (block : Block) : M Z :=
  if blk_timestamp block =? 0 then dateNow
  else ret (blk_timestamp block * 1000).

(** [tx.type === 105] *)
Definition isDeposit (tx : Tx) : bool :=
  match tx_type tx with
  | Some t => t =? DEPOSIT_TX_TYPE
  | None => false
  end.

(** [tx.to && tx.to.toLowerCase() === ARBSYS_ADDRESS && tx.value &&
    Number(tx.value) > 0] *)
Definition isWithdrawal (tx : Tx) : bool :=
  match truthyString (tx_to tx) with
  | Some recipient =>
      String.eqb (toLowerCase recipient) ARBSYS_ADDRESS && (0 <? tx_value tx)
  | None => false
  end.

Definition depositEvent (h sender : string) (tx : Tx) (amount ts i : Z) : BridgeEvent :=
  {| txHash := h; type := deposit; from := toLowerCase sender;
     to := option_map toLowerCase (truthyString (tx_to tx));
     value := amount; br_timestamp := ts; br_blockNumber := i; l2TxHash := h |}.

Definition withdrawalEvent (h sender : string) (tx : Tx) (ts i : Z) : BridgeEvent :=
  {| txHash := h; type := withdrawal; from := toLowerCase sender;
     to := Some ARBSYS_ADDRESS;
     value := tx_value tx; br_timestamp := ts; br_blockNumber := i; l2TxHash := h |}.

Definition activityEvent (sender : string) (ts i : Z) : ActivityEvent :=
  {| address := toLowerCase sender; act_timestamp := ts; act_blockNumber := i |}.

(** The body of the loop over [block.transactions] (lines 262-318).  The
    statement [depositsDetected++] reads an identifier that the function never
    declares, which throws after the deposit has been inserted; the inner
    [catch] swallows it. *)
Definition processTransaction (i blockTimestamp : Z) (h : string) : M unit :=
  tryCatch
    (let* tx := provider_getTransaction h in
     match tx with
     | None => ret tt
     | Some tx =>
         match truthyString (tx_from tx) with
         | None => ret tt
         | Some sender =>
             let* _ := AddressActivity_insert (activityEvent sender blockTimestamp i) in
             let* _ := setLocals incr_addressesAdded in
             let* _ :=
               if isDeposit tx then
                 tryCatch
                   (let* _ := provider_getTransactionReceipt h in
                    let* depositAmount := fetchDepositAmount h in
                    let* _ := BridgeActivity_insert
                                (depositEvent h sender tx depositAmount blockTimestamp i) in
                    throw ErrReference)
                   (fun _ => ret tt)
               else ret tt in
             if isWithdrawal tx then
               BridgeActivity_insert (withdrawalEvent h sender tx blockTimestamp i)
             else ret tt
         end
     end)
    (fun _ => ret tt).

(** The body of the loop over block heights (lines 256-324). *)
Definition processBlock (i : Z) : M unit :=
  let* block := getBlock i in
  match block with
  | Some block =>
      let* blockTimestamp := blockDate block in
      forEach (transactions block) (processTransaction i blockTimestamp)
  | None => ret tt
  end.

(** [lastActivity ? lastActivity.blockNumber + 1 : Math.max(0, currentBlock - 100)] *)
Definition startBlockOf (lastActivity : option ActivityEvent) (currentBlock : Z) : Z :=
  match lastActivity with
  | Some a => act_blockNumber a + 1
  | None => Z.max 0 (currentBlock - 100)
  end.

Definition processNewBlocks : M Z :=
  tryCatch
    (let* _ := getProvider in
     let* currentBlock := provider_getBlockNumber in
     let* lastActivity := AddressActivity_findLast in
     let startBlock := startBlockOf lastActivity currentBlock in
     if currentBlock <? startBlock then ret 0
     else
       let* _ := setLocals (fun _ => noLocals) in
       let* _ := forEach (seqZ startBlock (currentBlock - startBlock + 1)) processBlock in
       ret (currentBlock - startBlock + 1))
    (fun _ => ret 0).

(** ** [backfillBridgeActivity] (kpis.js, lines 966-1114) *)

(** The body of the loop over [block.transactions] (lines 1028-1094). *)
Definition backfillTransaction (i blockTimestamp : Z) (h : string) : M unit :=
  tryCatch
    (let* tx := provider_getTransaction h in
     match tx with
     | None => ret tt
     | Some tx =>
         match truthyString (tx_from tx) with
         | None => ret tt
         | Some sender =>
             let* _ :=
               tryCatch
                 (let* _ := AddressActivity_insert (activityEvent sender blockTimestamp i) in
                  setLocals incr_addressesAdded)
                 (fun _ => ret tt) in
             let* _ :=
               if isDeposit tx then
                 tryCatch
                   (let* existing := BridgeActivity_findOne h in
                    match existing with
                    | Some _ => ret tt
                    | None =>
                        let* depositAmount := fetchDepositAmount h in
                        let* _ := BridgeActivity_insert
                                    (depositEvent h sender tx depositAmount blockTimestamp i) in
                        setLocals incr_depositsFound
                    end)
                   (fun _ => ret tt)
               else ret tt in
             if isWithdrawal tx then
               tryCatch
                 (let* existing := BridgeActivity_findOne h in
                  match existing with
                  | Some _ => ret tt
                  | None =>
                      let* _ := BridgeActivity_insert
                                  (withdrawalEvent h sender tx blockTimestamp i) in
                      setLocals incr_withdrawalsFound
                  end)
                 (fun _ => ret tt)
             else ret tt
         end
     end)
    (fun _ => ret tt).

(** The body of the loop over block heights (lines 1021-1105). *)
Definition backfillBlock (i : Z) : M unit :=
  tryCatch
    (let* block := provider_getBlock i in
     match block with
     | Some block =>
         match transactions block with
         | [] => ret tt
         | _ =>
             let* blockTimestamp := blockDate block in
             forEach (transactions block) (backfillTransaction i blockTimestamp)
         end
     | None => ret tt
     end)
    (fun _ => ret tt).

(** The block range (lines 984-1011): resume after the newest activity, or
    from block 1, when [blockCount] is -1; the last [blockCount] blocks
    otherwise. *)
Definition backfillRange (blockCount : Z) : M (Z * Z) :=
  if blockCount =? -1 then
    let* endBlock := provider_getBlockNumber in
    let* lastProcessed := AddressActivity_findLast in
    match lastProcessed with
    | Some a =>
        if 1 <? act_blockNumber a then ret (act_blockNumber a + 1, endBlock)
        else ret (1, endBlock)
    | None => ret (1, endBlock)
    end
  else
    let* endBlock := provider_getBlockNumber in
    ret (Z.max 1 (endBlock - blockCount + 1), endBlock).

Definition backfillBridgeActivity : M BackfillResult :=
  tryCatch
    (match backfill_bridgeActivity (settings env) with
     | None => ret nothingScanned
     | Some backfillConfig =>
         if negb (enabled backfillConfig) then ret nothingScanned
         else if blockCount backfillConfig =? 0 then ret nothingScanned
         else
           let* _ := getProvider in
           let* range := backfillRange (blockCount backfillConfig) in
           let startBlock := fst range in
           let endBlock := snd range in
           let totalBlocks := endBlock - startBlock + 1 in
           let* _ := setLocals (fun _ => noLocals) in
           let* _ := forEach (seqZ startBlock totalBlocks) backfillBlock in
           let* l := gets locals in
           ret (mkBackfillResult (addressesAdded l) (depositsFound l)
                                 (withdrawalsFound l) totalBlocks)
     end)
    (fun _ => ret nothingScanned).

(** ** Aggregation (kpis.js, lines 125-144 and 340-366) *)

Definition calculateDailyTransactions : M Z :=
  tryCatch
    (let* now := dateNow in
     let today := startOfDay now in
     let tomorrow := addDays today 1 in
     AddressActivity_count today tomorrow)
    (fun _ => ret 0).

Definition calculateWeeklyActiveAddresses : M Z :=
  tryCatch
    (let* now := dateNow in
     let sevenDaysAgo := now - 7 * 24 * 60 * 60 * 1000 in
     let* result := AddressActivity_uniqueAddresses sevenDaysAgo None in
     ret (firstCount result))
    (fun _ => ret 0).

(** ** Snapshot backfill (kpis.js, lines 817-912) *)

Definition NOON_MS : Z := 12 * 60 * 60 * 1000.

(** The body of the loop of [backfillDailyTransactionHistory]. *)
Definition backfillDailyTransactionDay (now i : Z) : M unit :=
  let date := startOfDay (addDays now (- i)) in
  let nextDay := addDays date 1 in
  let* count := AddressActivity_count date nextDay in
  let* updatedAt := dateNow in
  let* _ := DailyTransactions_insert (mkSnapshot date count (date + NOON_MS) updatedAt) in
  setLocals incr_snapshotsCreated.

Definition backfillDailyTransactionHistory (days : Z) : M Z :=
  tryCatch
    (let* now := dateNow in
     let* _ := setLocals (fun _ => noLocals) in
     let* _ := forEach (seqZ 0 days) (backfillDailyTransactionDay now) in
     gets (fun s => snapshotsCreated (locals s)))
    (fun _ => ret 0).

(** The body of the loop of [backfillWeeklyActiveAddressHistory]. *)
Definition backfillWeeklyActiveAddressDay (now i : Z) : M unit :=
  let snapshotDate := startOfDay (addDays now (- i)) in
  let sevenDaysBefore := addDays snapshotDate (- 7) in
  let snapshotEndOfDay := addDays snapshotDate 1 in
  let* result :=
    AddressActivity_uniqueAddresses sevenDaysBefore (Some snapshotEndOfDay) in
  let count := firstCount result in
  let* updatedAt := dateNow in
  let* _ := WeeklyActiveAddresses_insert
              (mkSnapshot snapshotDate count (snapshotDate + NOON_MS) updatedAt) in
  setLocals incr_snapshotsCreated.

Definition backfillWeeklyActiveAddressHistory (days : Z) : M Z :=
  tryCatch
    (let* now := dateNow in
     let* _ := setLocals (fun _ => noLocals) in
     let* _ := forEach (seqZ 0 days) (backfillWeeklyActiveAddressDay now) in
     gets (fun s => snapshotsCreated (locals s)))
    (fun _ => ret 0).

(** ** [backfillDepositAmounts] (kpis.js, lines 1300-1352) *)

(** The body of the loop over the deposits to update.  The 100 ms pause
    between two requests has no effect on the state. *)
Definition backfillDepositAmount (d : nat * BridgeEvent) : M unit :=
  tryCatch
    (let* amount := fetchDepositAmount (txHash (snd d)) in
     if 0 <? amount then
       let* _ := BridgeActivity_setValue (fst d) amount in
       setLocals incr_updated
     else setLocals incr_errors)
    (fun _ => setLocals incr_errors).

Definition backfillDepositAmounts : M DepositBackfillResult :=
  tryCatch
    (let* depositsToUpdate := BridgeActivity_findZeroDeposits in
     match depositsToUpdate with
     | [] => ret (mkDepositBackfillResult 0 0 None)
     | _ =>
         let* _ := setLocals (fun _ => noLocals) in
         let* _ := forEach depositsToUpdate backfillDepositAmount in
         let* l := gets locals in
         ret (mkDepositBackfillResult (updated l) (errors l)
                (Some (Z.of_nat (length depositsToUpdate))))
     end)
    (fun error => throw error).

(** ** [fetchBlockscoutStats] (explorer.js, lines 26-41) *)



End Operations.

(** * Reports and history (kpis.js, lines 150-205, 372-470 and 733-811) *)

(** What the history getters return: [{ date, count, timestamp }]. *)
Record HistoryPoint : Type := mkHistoryPoint {
  hp_date : Z;
  hp_count : Z;
  hp_timestamp : Z
}.

(** A row of [getWeeklyActiveAddressDetails]:
    [{ address, txCount, firstSeen, lastSeen }]. *)
Record AddressDetail : Type := mkAddressDetail {
  ad_address : string;
  txCount : Z;
  firstSeen : Z;
  lastSeen : Z
}.

(** What [getTodayTransactions] and [getWeeklyActiveAddresses] return: a
    stored document, or a fresh object without [timestamp]. *)
Record KpiRecord : Type := mkKpiRecord {
  kpi_date : Z;
  kpi_count : Z;
  kpi_timestamp : option Z;
  kpi_updatedAt : Z
}.

Definition recordOf (d : Snapshot) : KpiRecord :=
  mkKpiRecord (date d) (count d) (Some (snap_timestamp d)) (updatedAt d).

(** [$sort: { timestamp: -1 }].  MongoDB leaves the order of documents with
    equal keys open; the sorts below are stable merge sorts, and the
    properties proved of the pipelines hold for whichever order is taken. *)
Definition newestFirst (a b : Snapshot) : Prop := snap_timestamp b <= snap_timestamp a.

#[global] Instance newestFirst_dec a b : Decision (newestFirst a b).
Proof. unfold newestFirst. apply _. Defined.

(** [$group: { _id: '$date', count: { $first: '$count' },
    timestamp: { $first: '$timestamp' } }]: for every date the first document
    of the input that carries it; [seen] holds the dates already grouped. *)
Fixpoint firstPerDate (seen : list Z) (l : list Snapshot) : list HistoryPoint :=
  match l with
  | [] => []
  | d :: rest =>
      if bool_decide (date d ∈ seen) then firstPerDate seen rest
      else mkHistoryPoint (date d) (count d) (snap_timestamp d)
             :: firstPerDate (date d :: seen) rest
  end.

(** [$sort: { _id: -1 }] and [$sort: { _id: 1 }] *)
Definition latestDateFirst (a b : HistoryPoint) : Prop := hp_date b <= hp_date a.
Definition earliestDateFirst (a b : HistoryPoint) : Prop := hp_date a <= hp_date b.

#[global] Instance latestDateFirst_dec a b : Decision (latestDateFirst a b).
Proof. unfold latestDateFirst. apply _. Defined.

#[global] Instance earliestDateFirst_dec a b : Decision (earliestDateFirst a b).
Proof. unfold earliestDateFirst. apply _. Defined.

(** The aggregation pipeline of the history getters, for a positive [days]. *)
Definition historyPipeline (days : Z) (l : list Snapshot) : list HistoryPoint :=
  merge_sort earliestDateFirst
    (take (Z.to_nat days)
       (merge_sort latestDateFirst (firstPerDate [] (merge_sort newestFirst l)))).

(** [$min] and [$max] over the timestamps of a group. *)
Definition minimumOf (l : list Z) : Z :=
  match l with
  | t :: rest => foldr Z.min t rest
  | [] => 0
  end.

Definition maximumOf (l : list Z) : Z :=
  match l with
  | t :: rest => foldr Z.max t rest
  | [] => 0
  end.

(** [$group: { _id: '$address', txCount: { $sum: 1 },
    firstSeen: { $min: '$timestamp' }, lastSeen: { $max: '$timestamp' } }],
    the group of one address. *)
Definition detailOf (matched : list ActivityEvent) (a : string) : AddressDetail :=
  let group := filter (fun e => address e = a) matched in
  mkAddressDetail a (Z.of_nat (length group))
    (minimumOf (act_timestamp <$> group)) (maximumOf (act_timestamp <$> group)).

(** [$sort: { txCount: -1 }] *)
Definition busiestFirst (a b : AddressDetail) : Prop := txCount b <= txCount a.

#[global] Instance busiestFirst_dec a b : Decision (busiestFirst a b).
Proof. unfold busiestFirst. apply _. Defined.

(** The aggregation pipeline of [getWeeklyActiveAddressDetails]. *)
Definition addressDetailsPipeline (gte : Z) (l : list ActivityEvent) : list AddressDetail :=
  let matched := filter (fun e => matchActive gte None e = true) l in
  merge_sort busiestFirst (detailOf matched <$> groupByAddress matched).

(** [findOneAsync(selector, { sort: { timestamp: -1 } })]: a document with
    the greatest [timestamp]. *)
Definition newerSnapshot (best : option Snapshot) (d : Snapshot) : option Snapshot :=
  match best with
  | None => Some d
  | Some b => if snap_timestamp b <? snap_timestamp d then Some d else Some b
  end.

Definition latestSnapshot (l : list Snapshot) : option Snapshot :=
  fold_left newerSnapshot l None.

Section Reports.

Variable env : Env.

(** [getBlockNumber] (blockchain.js) *)
Definition getBlockNumber : M Z :=
  let* _ := getProvider env in provider_getBlockNumber env.

(** [aggregate(pipeline).toArray()] with the history pipeline; MongoDB
    rejects a [$limit] that is not positive. *)
Definition aggregateHistory (days : Z) (collection : State -> list Snapshot)
    : M (list HistoryPoint) :=
  let* _ := mongo env in
  if days <=? 0 then throw ErrDb
  else gets (fun s => historyPipeline days (collection s)).

Definition getDailyTransactionsHistory (days : Z) : M (list HistoryPoint) :=
  tryCatch (aggregateHistory days dailyTransactions) (fun _ => ret []).

Definition getWeeklyActiveAddressesHistory (days : Z) : M (list HistoryPoint) :=
  tryCatch (aggregateHistory days weeklyActiveAddresses) (fun _ => ret []).

(** [getWeeklyActiveAddressDetails] (kpis.js, lines 372-409) *)
Definition getWeeklyActiveAddressDetails : M (list AddressDetail) :=
  tryCatch
    (let* now := dateNow env in
     let sevenDaysAgo := now - 7 * 24 * 60 * 60 * 1000 in
     let* _ := mongo env in
     gets (fun s => addressDetailsPipeline sevenDaysAgo (addressActivity s)))
    (fun _ => ret []).

(** [findOneAsync({ date: today }, { sort: { timestamp: -1 } })] *)
Definition DailyTransactions_findLatestOf (today : Z) : M (option Snapshot) :=
  let* _ := mongo env in
  gets (fun s => latestSnapshot (filter (fun d => date d = today) (dailyTransactions s))).

(** [findOneAsync({}, { sort: { timestamp: -1 } })] *)
Definition WeeklyActiveAddresses_findLatest : M (option Snapshot) :=
  let* _ := mongo env in
  gets (fun s => latestSnapshot (weeklyActiveAddresses s)).

(** [getTodayTransactions] (kpis.js, lines 150-190) *)
Definition getTodayTransactions : M KpiRecord :=
  let* now := dateNow env in
  let today := startOfDay now in
  tryCatch
    (let* count := calculateDailyTransactions env in
     let* timestamp := dateNow env in
     let* updatedAt := dateNow env in
     let* _ := DailyTransactions_insert env (mkSnapshot today count timestamp updatedAt) in
     let* returnedAt := dateNow env in
     ret (mkKpiRecord today count None returnedAt))
    (fun _ =>
       let* record := DailyTransactions_findLatestOf today in
       match record with
       | Some d => ret (recordOf d)
       | None =>
           let* returnedAt := dateNow env in
           ret (mkKpiRecord today 0 None returnedAt)
       end).

(** [updateDailyTransactionCount] (kpis.js, lines 196-205) *)
Definition updateDailyTransactionCount : M Z :=
  tryCatch
    (let* result := getTodayTransactions in ret (kpi_count result))
    (fun _ => ret 0).

(** [getWeeklyActiveAddresses] (kpis.js, lines 415-453) *)
Definition getWeeklyActiveAddresses : M KpiRecord :=
  let* now := dateNow env in
  let today := startOfDay now in
  tryCatch
    (let* count := calculateWeeklyActiveAddresses env in
     let* timestamp := dateNow env in
     let* updatedAt := dateNow env in
     let record := mkSnapshot today count timestamp updatedAt in
     let* _ := WeeklyActiveAddresses_insert env record in
     ret (recordOf record))
    (fun _ =>
       let* record := WeeklyActiveAddresses_findLatest in
       match record with
       | Some d => ret (recordOf d)
       | None =>
           let* returnedAt := dateNow env in
           ret (mkKpiRecord today 0 None returnedAt)
       end).

(** [updateWeeklyActiveAddresses] (kpis.js, lines 459-470) *)
Definition updateWeeklyActiveAddresses : M KpiRecord :=
  tryCatch
    (let* _ := processNewBlocks env in getWeeklyActiveAddresses)
    (fun _ => getWeeklyActiveAddresses).

End Reports.

(** * Specification vocabulary *)

(** What one upstream call yields: the price, when the request is answered
    with a 2xx status and a body that holds a non-zero [ethereum.usd]. *)
Definition upstreamPrice (o : outcome (Response (option Q))) : option Q :=
  match o with
  | Ret r =>
      if ok r then
        match json r with
        | Ret data => truthyNumber data
        | Throw _ => None
        end
      else None
  | Throw _ => None
  end.

(** A triple: from a state that satisfies [P], the computation either returns
    [a] in a state that satisfies [Q a], or throws in a state that satisfies
    [E]. *)
Definition hoare {A : Type} (P : State -> Prop) (m : M A)
    (Q : A -> State -> Prop) (E : State -> Prop) : Prop :=
  forall s, P s ->
    match m s with
    | (Ret a, s') => Q a s'
    | (Throw _, s') => E s'
    end.

(** [I] holds after the computation when it held before, whatever the outcome. *)
Definition keeps {A : Type} (I : State -> Prop) (m : M A) : Prop :=
  hoare I m (fun _ => I) I.

(** Two states with the same persisted events. *)
Definition sameEvents (s s' : State) : Prop :=
  addressActivity s' = addressActivity s /\ bridgeActivity s' = bridgeActivity s.

(** A property of the persisted events only. *)
Definition stable (I : State -> Prop) : Prop :=
  forall s s', sameEvents s s' -> I s -> I s'.

(** [s] holds the events of [s0] followed by new activity events that satisfy
    [PA] and new bridge events that satisfy [PB]. *)
Definition appends (PA : ActivityEvent -> Prop) (PB : BridgeEvent -> Prop)
    (s0 s : State) : Prop :=
  exists A B,
    addressActivity s = addressActivity s0 ++ A /\
    bridgeActivity s = bridgeActivity s0 ++ B /\
    Forall PA A /\ Forall PB B.

(** The chain client returned [tx] for the hash [h], and [tx] has the sender
    [sender]. *)
Definition fetched (env : Env) (h : string) (tx : Tx) (sender : string) : Prop :=
  (exists t, rpc_getTransaction env t h = Ret (Some tx)) /\
  truthyString (tx_from tx) = Some sender.

(** The hash [h] is listed in a block that the chain client returned for
    height [i]. *)
Definition listed (env : Env) (i : Z) (h : string) : Prop :=
  exists t block, rpc_getBlock env t i = Ret (Some block) /\ h ∈ transactions block.

(** The address of an activity event is the lower-cased sender of a
    transaction that the chain client returned. *)
Definition activityFromChain (env : Env) (a : ActivityEvent) : Prop :=
  exists t h tx sender,
    rpc_getTransaction env t h = Ret (Some tx) /\
    tx_from tx = Some sender /\
    address a = toLowerCase sender.

(** [from] and, when present, [to] of a bridge event are the lower-cased
    sender and recipient of the transaction with its hash. *)
Definition bridgeFromChain (env : Env) (b : BridgeEvent) : Prop :=
  exists t tx sender,
    rpc_getTransaction env t (txHash b) = Ret (Some tx) /\
    tx_from tx = Some sender /\
    from b = toLowerCase sender /\
    forall r, to b = Some r ->
      exists recipient, tx_to tx = Some recipient /\ r = toLowerCase recipient.

(** The activity event written for the transaction of a bridge event: same
    sender, same block, same block timestamp. *)
Definition partner (a : ActivityEvent) (b : BridgeEvent) : Prop :=
  address a = from b /\
  act_timestamp a = br_timestamp b /\
  act_blockNumber a = br_blockNumber b.

(** Since [s0], activity and bridge events were only appended, and every new
    bridge event has a partner among the new activity events; [current],
    when given, is one of the new activity events. *)
Definition accompanied (current : option ActivityEvent) (s0 s : State) : Prop :=
  exists A B,
    addressActivity s = addressActivity s0 ++ A /\
    bridgeActivity s = bridgeActivity s0 ++ B /\
    (forall b, b ∈ B -> exists a, a ∈ A /\ partner a b) /\
    (forall a, current = Some a -> a ∈ A).

Definition ofKind (k : BridgeKind) (B : list BridgeEvent) : list BridgeEvent :=
  filter (fun b => type b = k) B.

(** Since [s0], at most [na] activity events, [nd] deposits and [nw]
    withdrawals were appended. *)
Definition emitted (na nd nw : nat) (s0 s : State) : Prop :=
  exists A B,
    addressActivity s = addressActivity s0 ++ A /\
    bridgeActivity s = bridgeActivity s0 ++ B /\
    (length A <= na)%nat /\
    (length (ofKind deposit B) <= nd)%nat /\
    (length (ofKind withdrawal B) <= nw)%nat.

(** One step that takes an invariant to a weaker one, whatever the outcome. *)
Definition advances {A : Type} (I J : State -> Prop) (m : M A) : Prop :=
  hoare I m (fun _ => J) J.

(** The activity event of the transaction with hash [h] in block [i]. *)
Definition activityOf (env : Env) (i ts : Z) (h : string) (a : ActivityEvent) : Prop :=
  exists tx sender, fetched env h tx sender /\ a = activityEvent sender ts i.

(** A bridge event of the transaction with hash [h] in block [i]: the deposit
    of a transaction that satisfies the deposit rule, or the withdrawal of a
    transaction that satisfies the withdrawal rule. *)
Definition classifiedAs (env : Env) (i ts : Z) (h : string) (b : BridgeEvent) : Prop :=
  exists tx sender,
    fetched env h tx sender /\
    ((isDeposit tx = true /\ exists amount, b = depositEvent h sender tx amount ts i) \/
     (isWithdrawal tx = true /\ b = withdrawalEvent h sender tx ts i)).

(** Since [s0], at most [na] activity events and at most [nb] bridge events
    were appended, and the bridge events carry the hash [h]. *)
Definition writtenFor (h : string) (na nb : nat) (s0 s : State) : Prop :=
  exists A B,
    addressActivity s = addressActivity s0 ++ A /\
    bridgeActivity s = bridgeActivity s0 ++ B /\
    (length A <= na)%nat /\
    (length B <= nb)%nat /\
    (forall b, b ∈ B -> txHash b = h).

(** The set the count is specified by: the addresses of the events whose
    timestamp is at least seven days before [now], without the system
    addresses. *)
Definition distinctActiveAddresses (now : Z) (l : list ActivityEvent) : gset string :=
  (list_to_set (address <$> filter (fun e => now - 604800000 <= act_timestamp e) l))
  ∖ (list_to_set SYSTEM_ADDRESSES).

(** Midnight of the day [i] days before the day of [now]. *)
Definition dayStart (now i : Z) : Z := startOfDay (addDays now (- i)).

(** The daily count that is specified for the day [i] days back. *)
Definition dailyCountOf (now : Z) (l : list ActivityEvent) (i : Z) : Z * Z :=
  (dayStart now i, countBetween (dayStart now i) (dayStart now i + 86400000) l).

(** The weekly count that is specified for the day [i] days back: distinct
    non-system addresses in the seven days before that day and that day. *)
Definition weeklyCountOf (now : Z) (l : list ActivityEvent) (i : Z) : Z * Z :=
  (dayStart now i,
   firstCount (uniqueAddressesPipeline (dayStart now i - 7 * 86400000)
                 (Some (dayStart now i + 86400000)) l)).

Definition dateAndCount (d : Snapshot) : Z * Z := (date d, count d).

(** The computation returns from every state. *)
Definition neverThrows {A : Type} (m : M A) : Prop :=
  forall s, returns (fst (m s)) = true.

(** No two persisted bridge events carry the same hash. *)
Definition uniqueTxHash (s : State) : Prop := NoDup (txHash <$> bridgeActivity s).

(** No persisted bridge event carries the hash [h]. *)
Definition unseen (h : string) (s : State) : Prop :=
  uniqueTxHash s /\ h ∉ txHash <$> bridgeActivity s.

(** The bridge events of [s] are those of [s0], position by position, except
    that a deposit stored with the value 0 may have received a positive
    value. *)
Definition amountsFilled (s0 s : State) : Prop :=
  length (bridgeActivity s) = length (bridgeActivity s0) /\
  forall i b, bridgeActivity s0 !! i = Some b ->
    exists b', bridgeActivity s !! i = Some b' /\
      (b' = b \/
       (type b = deposit /\ value b = 0 /\ exists v, 0 < v /\ b' = set_value v b)).

(** Two states with the same snapshots and the same cached price. *)
Definition sameSnapshots (s s' : State) : Prop :=
  dailyTransactions s' = dailyTransactions s /\
  weeklyActiveAddresses s' = weeklyActiveAddresses s /\
  ethPriceCache s' = ethPriceCache s.

(** The computation changes no collection and no cached price. *)
Definition readOnly {A : Type} (m : M A) : Prop :=
  forall s, sameEvents s (snd (m s)) /\ sameSnapshots s (snd (m s)).

(** The computation appends daily snapshots and changes nothing else that
    is persisted or cached. *)
Definition appendsDailyOnly {A : Type} (m : M A) : Prop :=
  forall s,
    sameEvents s (snd (m s)) /\
    ethPriceCache (snd (m s)) = ethPriceCache s /\
    weeklyActiveAddresses (snd (m s)) = weeklyActiveAddresses s /\
    exists D, dailyTransactions (snd (m s)) = dailyTransactions s ++ D.

(** The computation appends weekly snapshots and changes nothing else that
    is persisted or cached. *)
Definition appendsWeeklyOnly {A : Type} (m : M A) : Prop :=
  forall s,
    sameEvents s (snd (m s)) /\
    ethPriceCache (snd (m s)) = ethPriceCache s /\
    dailyTransactions (snd (m s)) = dailyTransactions s /\
    exists W, weeklyActiveAddresses (snd (m s)) = weeklyActiveAddresses s ++ W.

(** The height [n] lies in the range that [backfillBridgeActivity] scans from
    the state [s]: the backfill is enabled, and [n] is one of the last
    [blockCount] heights up to the head, never below 1; with a [blockCount]
    of -1 it only has to lie after the newest recorded activity, when that
    is above block 1. *)
Definition inBackfillRange (env : Env) (s : State) (n : Z) : Prop :=
  exists cfg head,
    backfill_bridgeActivity (settings env) = Some cfg /\
    enabled cfg = true /\
    blockCount cfg <> 0 /\
    rpc_getBlockNumber env (tick s) = Ret head /\
    1 <= n <= head /\
    (blockCount cfg <> -1 -> head - blockCount cfg < n) /\
    (blockCount cfg = -1 ->
       forall last, lastByBlockNumber (addressActivity s) = Some last ->
         1 < act_blockNumber last -> act_blockNumber last < n).

(** The point [p] reports, for its date, a snapshot of [l] with the greatest
    timestamp of that date. *)
Definition latestOfDate (l : list Snapshot) (p : HistoryPoint) : Prop :=
  exists d, d ∈ l /\ hp_date p = date d /\ hp_count p = count d /\
            hp_timestamp p = snap_timestamp d /\
            forall d', d' ∈ l -> date d' = date d ->
              snap_timestamp d' <= snap_timestamp d.

(** [points] reports the latest [days] dates of the snapshots [l]: at most
    [days] points, one per date in ascending order of the dates, each with a
    latest snapshot of its date; and a stored date that is not reported is
    older than the [days] dates that are. *)
Definition latestDays (days : Z) (l : list Snapshot) (points : list HistoryPoint) : Prop :=
  (length points <= Z.to_nat days)%nat /\
  StronglySorted (fun p q => hp_date p < hp_date q) points /\
  Forall (latestOfDate l) points /\
  forall d, d ∈ l ->
    (exists p, p ∈ points /\ hp_date p = date d) \/
    (length points = Z.to_nat days /\ forall p, p ∈ points -> date d < hp_date p).

(** The point that the history reports for the snapshot [d]. *)
Definition pointOf (d : Snapshot) : HistoryPoint :=
  mkHistoryPoint (date d) (count d) (snap_timestamp d).

(** The ActivityEvents of the address [a] that the weekly window of [now]
    holds, system addresses excluded. *)
Definition activeEventsOf (now : Z) (l : list ActivityEvent) (a : string)
    : list ActivityEvent :=
  filter (fun e => address e = a)
    (filter (fun e => now - 604800000 <= act_timestamp e /\
                      (address e ∉ SYSTEM_ADDRESSES)) l).

(** The row [r] summarises the events of its address: their number, and the
    least and the greatest of their timestamps. *)
Definition summarises (now : Z) (l : list ActivityEvent) (r : AddressDetail) : Prop :=
  let group := activeEventsOf now l (ad_address r) in
  txCount r = Z.of_nat (length group) /\
  1 <= txCount r /\
  (forall e, e ∈ group -> firstSeen r <= act_timestamp e <= lastSeen r) /\
  (exists e, e ∈ group /\ act_timestamp e = firstSeen r) /\
  (exists e, e ∈ group /\ act_timestamp e = lastSeen r).

(** ** Letter case *)

(** An upper-case ASCII letter. *)
Definition isUpper (c : ascii) : bool :=
  (Nat.leb 65 (nat_of_ascii c) && Nat.leb (nat_of_ascii c) 90)%bool.

(** The same character, or the upper-case and the lower-case form of the same
    letter (their codes are 32 apart). *)
Definition sameLetter (c d : ascii) : Prop :=
  c = d \/
  (isUpper c = true /\ nat_of_ascii d = (nat_of_ascii c + 32)%nat) \/
  (isUpper d = true /\ nat_of_ascii c = (nat_of_ascii d + 32)%nat).

(** Two strings that differ in the case of their letters at most. *)
Fixpoint equalIgnoringCase (x y : string) : Prop :=
  match x, y with
  | EmptyString, EmptyString => True
  | String c x', String d y' => sameLetter c d /\ equalIgnoringCase x' y'
  | _, _ => False
  end.

(** A string without upper-case letter. *)
Fixpoint noUpperCase (x : string) : bool :=
  match x with
  | EmptyString => true
  | String c x' => negb (isUpper c) && noUpperCase x'
  end.

(** [out] is the lower-case spelling of [source]. *)
Definition lowercaseOf (source out : string) : Prop :=
  noUpperCase out = true /\ equalIgnoringCase source out.

(** The address of an activity event is the lower-case spelling of the
    sender that the chain client returned. *)
Definition activityLowercased (env : Env) (a : ActivityEvent) : Prop :=
  exists t h tx sender,
    rpc_getTransaction env t h = Ret (Some tx) /\
    tx_from tx = Some sender /\
    lowercaseOf sender (address a).

(** [from] and, when present, [to] of a bridge event are the lower-case
    spellings of the sender and the recipient of the transaction with its
    hash. *)
Definition bridgeLowercased (env : Env) (b : BridgeEvent) : Prop :=
  exists t tx sender,
    rpc_getTransaction env t (txHash b) = Ret (Some tx) /\
    tx_from tx = Some sender /\
    lowercaseOf sender (from b) /\
    forall r, to b = Some r ->
      exists recipient, tx_to tx = Some recipient /\ lowercaseOf recipient r.

(** The state [s] with one more ActivityEvent. *)
Definition withActivity (e : ActivityEvent) (s : State) : State :=
  set_addressActivity (addressActivity s ++ [e]) s.

(** ** The resume point *)

(** The heights of the blocks requested from the node, in order. *)
Definition blockRequests (l : list request) : list Z :=
  omap (fun r => match r with ReqBlock i => Some i | _ => None end) l.

(** The height at which a scan of a chain with the given head resumes: one
    above the greatest height of a persisted ActivityEvent, and 100 blocks
    below the head, but not below 0, when nothing is persisted. *)
Definition resumePoint (l : list ActivityEvent) (head first : Z) : Prop :=
  (exists newest,
      newest ∈ l /\
      (forall a, a ∈ l -> act_blockNumber a <= act_blockNumber newest) /\
      first = act_blockNumber newest + 1) \/
  (l = [] /\ first = Z.max 0 (head - 100)).

(** * Scenarios *)

Local Open Scope string_scope.

(** A chain given by its head, its blocks and its transactions; the explorer
    and the price feed are unreachable; MongoDB rejects the operations chosen
    by [dbFails]. *)
Definition chainEnv (now head : Z) (blocks : list (Z * Block))
    (txs : list (string * Tx)) (dbFails : nat -> bool) : Env :=
  {| settings := mkSettings (Some "https://rpc.example") (Some "https://explorer.example")
                   (Some (mkBackfillConfig true 10));
     clock := fun _ => now;
     rpc_getBlockNumber := fun _ => Ret head;
     rpc_getBlock := fun _ i =>
       Ret (snd <$> List.find (fun b => Z.eqb (fst b) i) blocks);
     rpc_getTransaction := fun _ h =>
       Ret (snd <$> List.find (fun t => String.eqb (fst t) h) txs);
     rpc_getTransactionReceipt := fun _ _ => Ret tt;
     http_internalTxs := fun _ _ => Throw ErrNetwork;
     http_price := fun _ => Throw ErrNetwork;
     http_stats := fun _ => Throw ErrNetwork;
     db_fails := dbFails |}.

Definition dbUp : nat -> bool := fun _ => false.
Definition dbDown : nat -> bool := fun _ => true.

Definition alice : string := "0xA11CE00000000000000000000000000000000001".
Definition inbox : string := "0x00000000000000000000000000000000000000FF".

(** A deposit (type 105) sent to an ordinary address. *)
Definition depositTx : Tx :=
  mkTx (Some alice) (Some inbox) 0 (Some 105).

(** A transaction of type 105 that calls ArbSys with a positive value: it
    satisfies the deposit rule and the withdrawal rule. *)
Definition depositToArbSysTx : Tx :=
  mkTx (Some alice) (Some ARBSYS_ADDRESS) 7 (Some 105).

(** A transaction without sender. *)
Definition anonymousTx : Tx :=
  mkTx None (Some ARBSYS_ADDRESS) 7 (Some 105).

(** Block 1 holds the single transaction ["0xd1"]; the head is block 1. *)
Definition oneBlockChain (tx : Tx) (dbFails : nat -> bool) : Env :=
  chainEnv 1000000000 1 [(1, mkBlock 1700000000 ["0xd1"])] [("0xd1", tx)] dbFails.

(** MongoDB rejects the fourth request of the run only: in a backfill of
    [oneBlockChain] that is the insert of the ActivityEvent. *)
Definition rejectActivityInsert : nat -> bool := fun t => Nat.eqb t 3.

(** Activity was last recorded in block 5; the head is block 7 and blocks 6
    and 7 hold no transaction. *)
Definition quietChain : Env :=
  chainEnv 1000000000 7
    [(6, mkBlock 1700000006 []); (7, mkBlock 1700000007 [])] [] dbUp.

Definition recordedUpTo5 : State :=
  set_addressActivity [mkActivity (toLowerCase alice) 1700000005000 5] emptyState.

Definition NOW : Z := 1700000000000.

Definition bob : string := "0xb0b0000000000000000000000000000000000002".
Definition carol : string := "0xca40100000000000000000000000000000000003".
Definition dave : string := "0xda7e000000000000000000000000000000000004".

Definition idleEnv : Env := chainEnv NOW 0 [] [] dbUp.

(** Bob was active 8 days ago, Carol 6 days ago, Dave 1 day ago (his row is
    stored twice), and the ArbSys precompile 1 day ago. *)
Definition weekOfActivity : State :=
  set_addressActivity
    [ mkActivity bob (NOW - 8 * DAY_MS) 10;
      mkActivity carol (NOW - 6 * DAY_MS) 20;
      mkActivity dave (NOW - 1 * DAY_MS) 30;
      mkActivity ARBSYS_ADDRESS (NOW - 1 * DAY_MS) 30;
      mkActivity dave (NOW - 1 * DAY_MS) 30 ]
    emptyState.

(** Activity on three of the last seven days: today, 2 days ago (twice) and
    5 days ago. *)
Definition threeActiveDays : State :=
  set_addressActivity
    [ mkActivity bob (NOW - 5 * DAY_MS) 10;
      mkActivity carol (NOW - 2 * DAY_MS) 20;
      mkActivity dave (NOW - 2 * DAY_MS) 21;
      mkActivity dave NOW 30 ]
    emptyState.

(** Block 100 holds one transaction of type 105 from [0xAAA] to the bridge;
    the explorer reports an internal transfer of 1e18 wei from the zero
    address. *)
Definition depositScenario : Env :=
  {| settings := mkSettings (Some "https://rpc.example") None None;
     clock := fun _ => NOW;
     rpc_getBlockNumber := fun _ => Ret 100;
     rpc_getBlock := fun _ i =>
       Ret (if Z.eqb i 100 then Some (mkBlock 1699999000 ["tx100"]) else None);
     rpc_getTransaction := fun _ h =>
       Ret (if String.eqb h "tx100"
            then Some (mkTx (Some "0xAAA") (Some inbox) 0 (Some 105)) else None);
     rpc_getTransactionReceipt := fun _ _ => Ret tt;
     http_internalTxs := fun _ _ =>
       Ret (mkResponse true 200
              (Ret (Some [mkInternalTx (Some ZERO_ADDRESS) (Some 1000000000000000000)])));
     http_price := fun _ => Throw ErrNetwork;
     http_stats := fun _ => Ret (mkResponse false 503 (Throw ErrParse));
     db_fails := dbUp |}.

(** A price of 3200 cached 7 minutes ago, two minutes past the TTL. *)
Definition staleCache : State :=
  set_ethPriceCache (mkCache (Some (3200 # 1)) (NOW - 7 * 60 * 1000)) emptyState.

(** Three stored bridge events: a deposit whose amount is still 0, a
    withdrawal, and a deposit whose amount is known. *)
Definition pendingDeposits : State :=
  set_bridgeActivity
    [ mkBridge "tx100" deposit "0xaaa" (Some inbox) 0 1699999000000 100 "tx100";
      mkBridge "tx101" withdrawal "0xaaa" (Some ARBSYS_ADDRESS) 5 1699999001000 101 "tx101";
      mkBridge "tx102" deposit "0xaaa" (Some inbox) 9 1699999002000 102 "tx102" ]
    emptyState.

(** An idle chain whose price feed answers 3500. *)
Definition pricedEnv : Env :=
  {| settings := mkSettings (Some "https://rpc.example") None None;
     clock := fun _ => NOW;
     rpc_getBlockNumber := fun _ => Ret 0;
     rpc_getBlock := fun _ _ => Ret None;
     rpc_getTransaction := fun _ _ => Ret None;
     rpc_getTransactionReceipt := fun _ _ => Ret tt;
     http_internalTxs := fun _ _ => Throw ErrNetwork;
     http_price := fun _ => Ret (mkResponse true 200 (Ret (Some (3500 # 1))));
     http_stats := fun _ => Throw ErrNetwork;
     db_fails := dbUp |}.

(** The head is block 3, and the node fails every request for a block. *)
Definition unreadableChain : Env :=
  {| settings := mkSettings (Some "https://rpc.example") None
                   (Some (mkBackfillConfig true 10));
     clock := fun _ => NOW;
     rpc_getBlockNumber := fun _ => Ret 3;
     rpc_getBlock := fun _ _ => Throw ErrRpc;
     rpc_getTransaction := fun _ _ => Ret None;
     rpc_getTransactionReceipt := fun _ _ => Ret tt;
     http_internalTxs := fun _ _ => Throw ErrNetwork;
     http_price := fun _ => Throw ErrNetwork;
     http_stats := fun _ => Throw ErrNetwork;
     db_fails := dbUp |}.

(** Daily snapshots of three days: two for the day before yesterday, the
    later one with count 7, one for yesterday and one for today. *)
Definition threeDaysOfSnapshots : State :=
  set_dailyTransactions
    [ mkSnapshot (dayStart NOW 2) 5 (dayStart NOW 2 + 100) (dayStart NOW 2 + 100);
      mkSnapshot (dayStart NOW 0) 4 (dayStart NOW 0 + 100) (dayStart NOW 0 + 100);
      mkSnapshot (dayStart NOW 2) 7 (dayStart NOW 2 + 200) (dayStart NOW 2 + 200);
      mkSnapshot (dayStart NOW 1) 3 (dayStart NOW 1 + 100) (dayStart NOW 1 + 100) ]
    emptyState.

(** Erin was active seven days and one hour ago. *)
Definition erin : string := "0xe410000000000000000000000000000000000005".

Definition lateLastWeek : State :=
  set_addressActivity [mkActivity erin (NOW - 7 * DAY_MS - 3600000) 50] emptyState.

(** Settings without RPC endpoint. *)
Definition unconfigured : Env :=
  {| settings := mkSettings None None (Some (mkBackfillConfig true 10));
     clock := fun _ => NOW;
     rpc_getBlockNumber := fun _ => Ret 3;
     rpc_getBlock := fun _ _ => Ret None;
     rpc_getTransaction := fun _ _ => Ret None;
     rpc_getTransactionReceipt := fun _ _ => Ret tt;
     http_internalTxs := fun _ _ => Throw ErrNetwork;
     http_price := fun _ => Throw ErrNetwork;
     http_stats := fun _ => Throw ErrNetwork;
     db_fails := dbUp |}.

(** Block 5 holds a deposit that the node returns; blocks 6 and 7 hold no
    transaction; the head is block 7. *)
Definition resumedChain : Env :=
  chainEnv 1000000000 7
    [(5, mkBlock 1700000005 ["0xa5"]);
     (6, mkBlock 1700000006 []); (7, mkBlock 1700000007 [])]
    [("0xa5", depositTx)] dbUp.

(** The precompile [0x...6b], spelled with an upper-case digit. *)
Definition upperCasePrecompile : string := "0x000000000000000000000000000000000000006B".

Local Close Scope string_scope.

(** * Properties *)

(** ** The price oracle cache *)

Ltac run_monad :=
  unfold tryCatch, bind, ret, throw, gets, modify, lift, call, dateNow; simpl.

Lemma getEthPrice_fresh env s cached :
  freshPrice (ethPriceCache s) (clock env (tick s)) = Some cached ->
  getEthPrice env s = (Ret cached, s).
Proof.
  intros Hfresh. unfold getEthPrice. run_monad. now rewrite Hfresh.
Qed.

Lemma getEthPrice_refreshed env s p :
  freshPrice (ethPriceCache s) (clock env (tick s)) = None ->
  upstreamPrice (http_price env (tick s)) = Some p ->
  getEthPrice env s =
    (Ret p, set_ethPriceCache (mkCache (Some p) (clock env (tick s))) (record ReqPrice s)).
Proof.
  intros Hfresh Hup. unfold getEthPrice. run_monad. rewrite Hfresh.
  unfold upstreamPrice in Hup.
  destruct (http_price env (tick s)) as [r|e]; [|discriminate].
  destruct (ok r); [|discriminate]. simpl.
  destruct (json r) as [data|e]; [|discriminate].
  now rewrite Hup.
Qed.

Lemma getEthPrice_failed env s :
  freshPrice (ethPriceCache s) (clock env (tick s)) = None ->
  upstreamPrice (http_price env (tick s)) = None ->
  getEthPrice env s =
    (Ret (match truthyNumber (price (ethPriceCache s)) with
          | Some stale => stale
          | None => DEFAULT_ETH_PRICE
          end), record ReqPrice s).
Proof.
  intros Hfresh Hup. unfold getEthPrice. run_monad. rewrite Hfresh.
  unfold upstreamPrice in Hup.
  destruct (http_price env (tick s)) as [r|e]; simpl.
  - destruct (ok r); simpl.
    + destruct (json r) as [data|e]; simpl.
      * rewrite Hup. simpl. now destruct (truthyNumber (price (ethPriceCache s))).
      * now destruct (truthyNumber (price (ethPriceCache s))).
    + now destruct (truthyNumber (price (ethPriceCache s))).
  - now destruct (truthyNumber (price (ethPriceCache s))).
Qed.

Lemma freshPrice_Some cache now cached :
  freshPrice cache now = Some cached <->
  truthyNumber (price cache) = Some cached /\ now - cache_timestamp cache < 300000.
Proof.
  unfold freshPrice, PRICE_CACHE_TTL.
  destruct (truthyNumber (price cache)) as [q|].
  - destruct (Z.ltb_spec (now - cache_timestamp cache) (5 * 60 * 1000)); split.
    + intros [= <-]. split; [reflexivity | lia].
    + now intros [[= <-] _].
    + discriminate.
    + intros [_ ?]; lia.
  - split; [discriminate | now intros [? _]].
Qed.

Lemma freshPrice_None cache now :
  freshPrice cache now = None <->
  truthyNumber (price cache) = None \/ 300000 <= now - cache_timestamp cache.
Proof.
  unfold freshPrice, PRICE_CACHE_TTL.
  destruct (truthyNumber (price cache)) as [q|].
  - destruct (Z.ltb_spec (now - cache_timestamp cache) (5 * 60 * 1000)); split.
    + discriminate.
    + intros [?|?]; [discriminate | lia].
    + intros _. right. lia.
    + reflexivity.
  - split; [now left | reflexivity].
Qed.

(** C5.  [getEthPrice] always returns a price, never throws, and follows the
    fallback chain: a cached price younger than the 5-minute TTL is returned
    without any request; otherwise exactly one upstream request is made and
    its price is returned when it succeeds; when it fails the cached price is
    returned even though expired; when it fails and nothing is cached the
    default 3000 is returned. *)
Theorem getEthPrice_fallback_chain (env : Env) (s : State) :
  let cache := ethPriceCache s in
  let now := clock env (tick s) in
  exists (p : Q) (s' : State),
    getEthPrice env s = (Ret p, s') /\
    (forall cached,
        truthyNumber (price cache) = Some cached ->
        now - cache_timestamp cache < 300000 ->
        p = cached /\ s' = s) /\
    (truthyNumber (price cache) = None \/ 300000 <= now - cache_timestamp cache ->
     trace s' = trace s ++ [ReqPrice] /\
     (forall fetched,
         upstreamPrice (http_price env (tick s)) = Some fetched -> p = fetched) /\
     (forall stale,
         upstreamPrice (http_price env (tick s)) = None ->
         truthyNumber (price cache) = Some stale -> p = stale) /\
     (upstreamPrice (http_price env (tick s)) = None ->
      truthyNumber (price cache) = None -> p = 3000 # 1)).
Proof.
  intros cache t.
  destruct (freshPrice cache t) as [cached|] eqn:Hfresh.
  - exists cached, s. split; [now apply getEthPrice_fresh|].
    apply freshPrice_Some in Hfresh as [Hc Hage]. split.
    + intros c' Hc' _. split; [congruence | reflexivity].
    + intros [Hnone|Hold]; [congruence | lia].
  - pose proof Hfresh as Hstale. apply freshPrice_None in Hstale.
    destruct (upstreamPrice (http_price env (tick s))) as [fetched|] eqn:Hup.
    + exists fetched. eexists. split; [exact (getEthPrice_refreshed _ _ _ Hfresh Hup)|].
      split.
      * intros c' Hc' Hage. destruct Hstale; [congruence | lia].
      * intros _. split; [reflexivity|]. repeat split; congruence.
    + eexists. eexists. split; [exact (getEthPrice_failed _ _ Hfresh Hup)|].
      fold cache. split.
      * intros c' Hc' Hage. destruct Hstale; [congruence | lia].
      * intros _. split; [reflexivity|]. repeat split.
        -- discriminate.
        -- intros stale _ ->. reflexivity.
        -- intros _ ->. reflexivity.
Qed.

(** C10.  [getEthPrice] writes the cache only after a successful upstream
    fetch, and then stores the fetched price with the time of the call.  When
    the fallback to the default 3000 is taken (the fetch fails and nothing is
    cached) the cache is left as it was, still empty, and the next call makes
    an upstream request again. *)
Theorem getEthPrice_cache_written_only_on_success (env : Env) (s : State) :
  let cache := ethPriceCache s in
  let s' := snd (getEthPrice env s) in
  (ethPriceCache s' = cache \/
   exists p, upstreamPrice (http_price env (tick s)) = Some p /\
             trace s' = trace s ++ [ReqPrice] /\
             fst (getEthPrice env s) = Ret p /\
             ethPriceCache s' = mkCache (Some p) (clock env (tick s))) /\
  (truthyNumber (price cache) = None ->
   upstreamPrice (http_price env (tick s)) = None ->
   fst (getEthPrice env s) = Ret (3000 # 1) /\
   ethPriceCache s' = cache /\
   truthyNumber (price (ethPriceCache s')) = None /\
   trace (snd (getEthPrice env s')) = trace s' ++ [ReqPrice]).
Proof.
  intros cache s'. subst s'. split.
  - destruct (freshPrice cache (clock env (tick s))) as [cached|] eqn:Hfresh.
    + left. now rewrite (getEthPrice_fresh _ _ _ Hfresh).
    + destruct (upstreamPrice (http_price env (tick s))) as [p|] eqn:Hup.
      * right. exists p. rewrite (getEthPrice_refreshed _ _ _ Hfresh Hup).
        repeat split.
      * left. now rewrite (getEthPrice_failed _ _ Hfresh Hup).
  - intros Hempty Hup.
    assert (Hfresh : freshPrice cache (clock env (tick s)) = None)
      by (apply freshPrice_None; now left).
    rewrite (getEthPrice_failed _ _ Hfresh Hup). fold cache. rewrite Hempty.
    simpl. repeat split; try assumption.
    assert (Hfresh' : freshPrice (ethPriceCache (record ReqPrice s))
                        (clock env (tick (record ReqPrice s))) = None)
      by (apply freshPrice_None; now left).
    destruct (upstreamPrice (http_price env (tick (record ReqPrice s)))) as [p|] eqn:Hup'.
    + now rewrite (getEthPrice_refreshed _ _ _ Hfresh' Hup').
    + now rewrite (getEthPrice_failed _ _ Hfresh' Hup').
Qed.

(** * Reasoning about computations *)

Section Rules.

Context {A B : Type}.
Implicit Types (P E : State -> Prop).

Lemma hoare_ret P (Q : A -> State -> Prop) E (a : A) :
  (forall s, P s -> Q a s) -> hoare P (ret a) Q E.
Proof. intros H s Hs. simpl. auto. Qed.

Lemma hoare_throw P (Q : A -> State -> Prop) E e :
  (forall s, P s -> E s) -> hoare P (throw e) Q E.
Proof. intros H s Hs. simpl. auto. Qed.

Lemma hoare_bind P (m : M A) (k : A -> M B) (R : A -> State -> Prop)
    (Q : B -> State -> Prop) E :
  hoare P m R E -> (forall a, hoare (R a) (k a) Q E) -> hoare P (bind m k) Q E.
Proof.
  intros Hm Hk s Hs. unfold bind. specialize (Hm s Hs).
  destruct (m s) as [[a|e] s1]; [exact (Hk a s1 Hm) | exact Hm].
Qed.

Lemma hoare_tryCatch P (m : M A) (h : error -> M A) (Q : A -> State -> Prop) E' E :
  hoare P m Q E' -> (forall e, hoare E' (h e) Q E) -> hoare P (tryCatch m h) Q E.
Proof.
  intros Hm Hh s Hs. unfold tryCatch. specialize (Hm s Hs).
  destruct (m s) as [[a|e] s1]; [exact Hm | exact (Hh e s1 Hm)].
Qed.

Lemma hoare_weaken P P' (m : M A) (Q Q' : A -> State -> Prop) E E' :
  hoare P' m Q' E' ->
  (forall s, P s -> P' s) -> (forall a s, Q' a s -> Q a s) -> (forall s, E' s -> E s) ->
  hoare P m Q E.
Proof.
  intros Hm HP HQ HE s Hs. specialize (Hm s (HP s Hs)).
  destruct (m s) as [[a|e] s1]; auto.
Qed.

(** A request: the answer is the oracle's at the current tick. *)
Lemma hoare_call P (Q : A -> State -> Prop) E r (answer : nat -> outcome A) :
  (forall s a, P s -> answer (tick s) = Ret a -> Q a (record r s)) ->
  (forall s, P s -> E (record r s)) ->
  hoare P (call r answer) Q E.
Proof.
  intros HQ HE s Hs. unfold call.
  destruct (answer (tick s)) as [a|e] eqn:Hans; auto.
Qed.

Lemma hoare_lift P (Q : A -> State -> Prop) E (o : outcome A) :
  (forall s a, P s -> o = Ret a -> Q a s) -> (forall s, P s -> E s) ->
  hoare P (lift o) Q E.
Proof. intros HQ HE s Hs. unfold lift. destruct o; auto. Qed.

Lemma hoare_gets P (Q : A -> State -> Prop) E (f : State -> A) :
  (forall s, P s -> Q (f s) s) -> hoare P (gets f) Q E.
Proof. intros H s Hs. simpl. auto. Qed.

End Rules.

Lemma hoare_modify P (Q : unit -> State -> Prop) E (f : State -> State) :
  (forall s, P s -> Q tt (f s)) -> hoare P (modify f) Q E.
Proof. intros H s Hs. simpl. auto. Qed.

Lemma hoare_forEach {A : Type} (I E : State -> Prop) (l : list A) (body : A -> M unit) :
  (forall x, x ∈ l -> hoare I (body x) (fun _ => I) E) ->
  hoare I (forEach l body) (fun _ => I) E.
Proof.
  induction l as [|x l IH]; intros Hbody.
  - now apply hoare_ret.
  - simpl. eapply hoare_bind.
    + apply Hbody. left.
    + intros u. apply IH. intros y Hy. apply Hbody. now right.
Qed.

(** ** Rules for invariants *)

Lemma keeps_ret {A : Type} I (a : A) : keeps I (ret a).
Proof. now apply hoare_ret. Qed.

Lemma keeps_throw {A : Type} I e : keeps I (@throw A e).
Proof. now apply hoare_throw. Qed.

Lemma keeps_bind {A B : Type} I (m : M A) (k : A -> M B) :
  keeps I m -> (forall a, keeps I (k a)) -> keeps I (bind m k).
Proof. intros Hm Hk. eapply hoare_bind; [exact Hm | exact Hk]. Qed.

Lemma keeps_tryCatch {A : Type} I (m : M A) (h : error -> M A) :
  keeps I m -> (forall e, keeps I (h e)) -> keeps I (tryCatch m h).
Proof. intros Hm Hh. eapply hoare_tryCatch; [exact Hm | exact Hh]. Qed.

Lemma keeps_forEach {A : Type} I (l : list A) (body : A -> M unit) :
  (forall x, x ∈ l -> keeps I (body x)) -> keeps I (forEach l body).
Proof. apply hoare_forEach. Qed.

Lemma keeps_gets {A : Type} I (f : State -> A) : keeps I (gets f).
Proof. now apply hoare_gets. Qed.

Lemma keeps_lift {A : Type} I (o : outcome A) : keeps I (lift o).
Proof. now apply hoare_lift. Qed.

Lemma keeps_dateNow env I : keeps I (dateNow env).
Proof. intros s Hs. exact Hs. Qed.

Lemma sameEvents_record r s : sameEvents s (record r s).
Proof. now split. Qed.

Lemma sameEvents_locals f s : sameEvents s (set_locals f s).
Proof. now split. Qed.

Lemma keeps_call {A : Type} I r (answer : nat -> outcome A) :
  stable I -> keeps I (call r answer).
Proof.
  intros HI. apply hoare_call; intros; eapply HI; eauto using sameEvents_record.
Qed.

(** The continuation of a request may use what the oracle answered. *)
Lemma keeps_bind_call {A B : Type} I r (answer : nat -> outcome A) (k : A -> M B) :
  stable I ->
  (forall t a, answer t = Ret a -> keeps I (k a)) ->
  keeps I (bind (call r answer) k).
Proof.
  intros HI Hk s Hs. unfold bind, call.
  destruct (answer (tick s)) as [a|e] eqn:Hans.
  - apply (Hk _ _ Hans). eapply HI; eauto using sameEvents_record.
  - eapply HI; eauto using sameEvents_record.
Qed.

Lemma keeps_setLocals I f : stable I -> keeps I (setLocals f).
Proof.
  intros HI. apply hoare_modify. intros; eapply HI; eauto using sameEvents_locals.
Qed.

Lemma keeps_mongo env I : stable I -> keeps I (mongo env).
Proof. apply keeps_call. Qed.

Lemma keeps_getProvider env I : keeps I (getProvider env).
Proof.
  unfold getProvider. destruct (rpcEndpoint (settings env));
    [apply keeps_ret | apply keeps_throw].
Qed.

Lemma keeps_AddressActivity_insert env I e :
  stable I ->
  (forall s, I s -> I (set_addressActivity (addressActivity s ++ [e]) s)) ->
  keeps I (AddressActivity_insert env e).
Proof.
  intros HI Hins. apply keeps_bind; [now apply keeps_mongo|].
  intros u. now apply hoare_modify.
Qed.

Lemma keeps_BridgeActivity_insert env I b :
  stable I ->
  (forall s, I s -> I (set_bridgeActivity (bridgeActivity s ++ [b]) s)) ->
  keeps I (BridgeActivity_insert env b).
Proof.
  intros HI Hins. apply keeps_bind; [now apply keeps_mongo|].
  intros u. now apply hoare_modify.
Qed.

Lemma keeps_AddressActivity_findLast env I :
  stable I -> keeps I (AddressActivity_findLast env).
Proof.
  intros HI. apply keeps_bind; [now apply keeps_mongo | intros; apply keeps_gets].
Qed.

Lemma keeps_BridgeActivity_findOne env I h :
  stable I -> keeps I (BridgeActivity_findOne env h).
Proof.
  intros HI. apply keeps_bind; [now apply keeps_mongo | intros; apply keeps_gets].
Qed.

Lemma keeps_fetchDepositAmount env I h :
  stable I -> keeps I (fetchDepositAmount env h).
Proof.
  intros HI. unfold fetchDepositAmount.
  apply keeps_tryCatch; [|intros; apply keeps_ret].
  apply keeps_bind; [now apply keeps_call|]. intros response.
  destruct (negb (ok response)); [apply keeps_ret|].
  apply keeps_bind; [apply keeps_lift|]. intros [[|item items]|]; try apply keeps_ret.
  apply keeps_bind; [apply keeps_lift|].
  intros depositTransfer.
  destruct depositTransfer as [transfer|]; [|apply keeps_ret].
  destruct transfer as [sender amount]. destruct amount; apply keeps_ret.
Qed.

Lemma keeps_blockDate env I block : keeps I (blockDate env block).
Proof.
  unfold blockDate. destruct (_ =? _); [apply keeps_dateNow | apply keeps_ret].
Qed.

Lemma keeps_here {A : Type} (I : State -> Prop) (m : M A) s :
  keeps I m -> I s -> I (snd (m s)).
Proof.
  intros Hm Hs. specialize (Hm s Hs). now destruct (m s) as [[a|e] s1].
Qed.

(** ** Events appended by a scan *)

Lemma appends_refl PA PB s : appends PA PB s s.
Proof. exists [], []. now rewrite !app_nil_r. Qed.

Lemma appends_stable PA PB s0 : stable (appends PA PB s0).
Proof.
  intros s s' [HA HB] (A & B & ? & ? & ? & ?). exists A, B.
  rewrite HA, HB. auto.
Qed.

Lemma appends_activity PA PB s0 s e :
  PA e -> appends PA PB s0 s ->
  appends PA PB s0 (set_addressActivity (addressActivity s ++ [e]) s).
Proof.
  intros He (A & B & HA & HB & HPA & HPB). exists (A ++ [e]), B. simpl.
  rewrite HA, <- app_assoc. repeat split; auto.
  apply Forall_app. auto.
Qed.

Lemma appends_bridge PA PB s0 s b :
  PB b -> appends PA PB s0 s ->
  appends PA PB s0 (set_bridgeActivity (bridgeActivity s ++ [b]) s).
Proof.
  intros Hb (A & B & HA & HB & HPA & HPB). exists A, (B ++ [b]). simpl.
  rewrite HB, <- app_assoc. repeat split; auto.
  apply Forall_app. auto.
Qed.

Section ScanSteps.

Variable env : Env.
Variables (PA : ActivityEvent -> Prop) (PB : BridgeEvent -> Prop).
Variable s0 : State.
Variables (i blockTimestamp : Z) (h : string).

Hypothesis activity_ok : forall tx sender,
  fetched env h tx sender -> PA (activityEvent sender blockTimestamp i).
Hypothesis deposit_ok : forall tx sender amount,
  fetched env h tx sender -> isDeposit tx = true ->
  PB (depositEvent h sender tx amount blockTimestamp i).
Hypothesis withdrawal_ok : forall tx sender,
  fetched env h tx sender -> isWithdrawal tx = true ->
  PB (withdrawalEvent h sender tx blockTimestamp i).

Lemma appends_processTransaction :
  keeps (appends PA PB s0) (processTransaction env i blockTimestamp h).
Proof.
  pose proof (appends_stable PA PB s0) as Hst.
  unfold processTransaction.
  apply keeps_tryCatch; [|intros; apply keeps_ret].
  apply keeps_bind_call; [exact Hst|]. intros t [tx|] Htx; [|apply keeps_ret].
  destruct (truthyString (tx_from tx)) as [sender|] eqn:Hfrom; [|apply keeps_ret].
  assert (Hf : fetched env h tx sender) by (split; eauto).
  apply keeps_bind.
  { apply keeps_AddressActivity_insert; [exact Hst|].
    intros s. apply appends_activity. eauto. }
  intros _. apply keeps_bind; [now apply keeps_setLocals|]. intros _.
  apply keeps_bind.
  - destruct (isDeposit tx) eqn:Hdep; [|apply keeps_ret].
    apply keeps_tryCatch; [|intros; apply keeps_ret].
    apply keeps_bind; [now apply keeps_call|]. intros _.
    apply keeps_bind; [now apply keeps_fetchDepositAmount|]. intros amount.
    apply keeps_bind; [|intros; apply keeps_throw].
    apply keeps_BridgeActivity_insert; [exact Hst|].
    intros s. apply appends_bridge. eauto.
  - intros _. destruct (isWithdrawal tx) eqn:Hwd; [|apply keeps_ret].
    apply keeps_BridgeActivity_insert; [exact Hst|].
    intros s. apply appends_bridge. eauto.
Qed.

Lemma appends_backfillTransaction :
  keeps (appends PA PB s0) (backfillTransaction env i blockTimestamp h).
Proof.
  pose proof (appends_stable PA PB s0) as Hst.
  unfold backfillTransaction.
  apply keeps_tryCatch; [|intros; apply keeps_ret].
  apply keeps_bind_call; [exact Hst|]. intros t [tx|] Htx; [|apply keeps_ret].
  destruct (truthyString (tx_from tx)) as [sender|] eqn:Hfrom; [|apply keeps_ret].
  assert (Hf : fetched env h tx sender) by (split; eauto).
  apply keeps_bind.
  { apply keeps_tryCatch; [|intros; apply keeps_ret].
    apply keeps_bind; [|intros; now apply keeps_setLocals].
    apply keeps_AddressActivity_insert; [exact Hst|].
    intros s. apply appends_activity. eauto. }
  intros _. apply keeps_bind.
  - destruct (isDeposit tx) eqn:Hdep; [|apply keeps_ret].
    apply keeps_tryCatch; [|intros; apply keeps_ret].
    apply keeps_bind; [now apply keeps_BridgeActivity_findOne|].
    intros [existing|]; [apply keeps_ret|].
    apply keeps_bind; [now apply keeps_fetchDepositAmount|]. intros amount.
    apply keeps_bind; [|intros; now apply keeps_setLocals].
    apply keeps_BridgeActivity_insert; [exact Hst|].
    intros s. apply appends_bridge. eauto.
  - intros _. destruct (isWithdrawal tx) eqn:Hwd; [|apply keeps_ret].
    apply keeps_tryCatch; [|intros; apply keeps_ret].
    apply keeps_bind; [now apply keeps_BridgeActivity_findOne|].
    intros [existing|]; [apply keeps_ret|].
    apply keeps_bind; [|intros; now apply keeps_setLocals].
    apply keeps_BridgeActivity_insert; [exact Hst|].
    intros s. apply appends_bridge. eauto.
Qed.

End ScanSteps.

(** A fact that does not depend on the state can be taken out of the
    precondition. *)
Lemma hoare_pure {A : Type} (P : State -> Prop) (F : Prop) (m : M A)
    (Q : A -> State -> Prop) (E : State -> Prop) :
  (F -> hoare P m Q E) -> hoare (fun s => P s /\ F) m Q E.
Proof. intros H s [Hs HF]. now apply H. Qed.

(** An invariant of the persisted events that every transaction step keeps is
    kept by a block, and by a whole scan. *)
Section Lifting.

Variable env : Env.
Variable I : State -> Prop.
Hypothesis I_stable : stable I.

Lemma hoare_provider_getBlock i :
  hoare I (provider_getBlock env i)
        (fun block s => I s /\ exists t, rpc_getBlock env t i = Ret block) I.
Proof.
  apply hoare_call.
  - intros s block Hs Hblock. split; [|eauto].
    eapply I_stable; eauto using sameEvents_record.
  - intros s Hs. eapply I_stable; eauto using sameEvents_record.
Qed.

Lemma keeps_processBlock i :
  (forall ts h, listed env i h -> keeps I (processTransaction env i ts h)) ->
  keeps I (processBlock env i).
Proof.
  intros Htx. unfold processBlock, getBlock.
  eapply hoare_bind.
  { eapply hoare_bind; [apply keeps_getProvider|].
    intros u. apply hoare_provider_getBlock. }
  intros [block|]; [|apply hoare_ret; now intros s [Hs _]].
  apply hoare_pure. intros [t Hblock].
  apply keeps_bind; [apply keeps_blockDate|]. intros ts.
  apply keeps_forEach. intros h Hh. apply Htx. now exists t, block.
Qed.

Lemma keeps_backfillBlock i :
  (forall ts h, listed env i h -> keeps I (backfillTransaction env i ts h)) ->
  keeps I (backfillBlock env i).
Proof.
  intros Htx. unfold backfillBlock.
  apply keeps_tryCatch; [|intros; apply keeps_ret].
  eapply hoare_bind; [apply hoare_provider_getBlock|].
  intros [block|]; [|apply hoare_ret; now intros s [Hs _]].
  apply hoare_pure. intros [t Hblock].
  destruct (transactions block) as [|h0 hs] eqn:Htxs; [apply keeps_ret|].
  apply keeps_bind; [apply keeps_blockDate|]. intros ts.
  apply keeps_forEach. intros h Hh. apply Htx. exists t, block. now rewrite Htxs.
Qed.

Lemma keeps_processNewBlocks :
  (forall i ts h, listed env i h -> keeps I (processTransaction env i ts h)) ->
  keeps I (processNewBlocks env).
Proof.
  intros Htx. unfold processNewBlocks, provider_getBlockNumber.
  apply keeps_tryCatch; [|intros; apply keeps_ret].
  apply keeps_bind; [apply keeps_getProvider|]. intros _.
  apply keeps_bind; [now apply keeps_call|]. intros currentBlock.
  apply keeps_bind; [now apply keeps_AddressActivity_findLast|]. intros lastActivity.
  destruct (_ <? _); [apply keeps_ret|].
  apply keeps_bind; [now apply keeps_setLocals|]. intros _.
  apply keeps_bind; [|intros; apply keeps_ret].
  apply keeps_forEach. intros i _. apply keeps_processBlock. apply Htx.
Qed.

Lemma keeps_backfillRange blockCount : keeps I (backfillRange env blockCount).
Proof.
  unfold backfillRange, provider_getBlockNumber.
  destruct (_ =? _).
  - apply keeps_bind; [now apply keeps_call|]. intros endBlock.
    apply keeps_bind; [now apply keeps_AddressActivity_findLast|].
    intros [a|]; [destruct (_ <? _)|]; apply keeps_ret.
  - apply keeps_bind; [now apply keeps_call | intros; apply keeps_ret].
Qed.

Lemma keeps_backfillBridgeActivity :
  (forall i ts h, listed env i h -> keeps I (backfillTransaction env i ts h)) ->
  keeps I (backfillBridgeActivity env).
Proof.
  intros Htx. unfold backfillBridgeActivity.
  apply keeps_tryCatch; [|intros; apply keeps_ret].
  destruct (backfill_bridgeActivity (settings env)) as [cfg|]; [|apply keeps_ret].
  destruct (negb (enabled cfg)); [apply keeps_ret|].
  destruct (blockCount cfg =? 0); [apply keeps_ret|].
  apply keeps_bind; [apply keeps_getProvider|]. intros _.
  apply keeps_bind; [apply keeps_backfillRange|]. intros range.
  apply keeps_bind; [now apply keeps_setLocals|]. intros _.
  apply keeps_bind.
  - apply keeps_forEach. intros i _. apply keeps_backfillBlock. apply Htx.
  - intros _. apply keeps_bind; [apply keeps_gets | intros; apply keeps_ret].
Qed.

End Lifting.

(** ** Lower-case addresses *)

Lemma truthyString_Some o s : truthyString o = Some s -> o = Some s.
Proof.
  destruct o as [x|]; simpl; [|discriminate].
  destruct (String.eqb x ""); [discriminate | congruence].
Qed.

Lemma lowerAscii_idempotent c : lowerAscii (lowerAscii c) = lowerAscii c.
Proof.
  destruct c as [[] [] [] [] [] [] [] []]; reflexivity.
Qed.

Lemma toLowerCase_idempotent s : toLowerCase (toLowerCase s) = toLowerCase s.
Proof.
  induction s as [|c s IH]; simpl; [reflexivity|].
  now rewrite lowerAscii_idempotent, IH.
Qed.

Lemma activityEvent_fromChain env h tx sender ts i :
  fetched env h tx sender -> activityFromChain env (activityEvent sender ts i).
Proof.
  intros [[t Ht] Hfrom]. exists t, h, tx, sender.
  auto using truthyString_Some.
Qed.

Lemma depositEvent_fromChain env h tx sender amount ts i :
  fetched env h tx sender -> bridgeFromChain env (depositEvent h sender tx amount ts i).
Proof.
  intros [[t Ht] Hfrom]. exists t, tx, sender. simpl.
  repeat split; auto using truthyString_Some.
  intros r Hr. destruct (truthyString (tx_to tx)) as [recipient|] eqn:Hto; [|discriminate].
  exists recipient. split; [now apply truthyString_Some | now inversion Hr].
Qed.

Lemma withdrawalEvent_fromChain env h tx sender ts i :
  fetched env h tx sender -> isWithdrawal tx = true ->
  bridgeFromChain env (withdrawalEvent h sender tx ts i).
Proof.
  intros [[t Ht] Hfrom] Hwd. exists t, tx, sender. simpl.
  repeat split; auto using truthyString_Some.
  intros r [= <-]. unfold isWithdrawal in Hwd.
  destruct (truthyString (tx_to tx)) as [recipient|] eqn:Hto; [|discriminate].
  exists recipient. split; [now apply truthyString_Some|].
  apply andb_true_iff in Hwd as [Heq _]. apply String.eqb_eq in Heq. congruence.
Qed.

(** ** Bridge events and the activity of their transaction *)

Lemma accompanied_refl s : accompanied None s s.
Proof.
  exists [], []. rewrite !app_nil_r. repeat split; try discriminate.
  intros b Hb. inversion Hb.
Qed.

Lemma accompanied_stable current s0 : stable (accompanied current s0).
Proof.
  intros s s' [HA HB] (A & B & ? & ? & ? & ?). exists A, B.
  rewrite HA, HB. auto.
Qed.

Lemma accompanied_forget current s0 s :
  accompanied current s0 s -> accompanied None s0 s.
Proof.
  intros (A & B & ? & ? & ? & ?). exists A, B. repeat split; auto. discriminate.
Qed.

Lemma accompanied_activity s0 s a :
  accompanied None s0 s ->
  accompanied (Some a) s0 (set_addressActivity (addressActivity s ++ [a]) s).
Proof.
  intros (A & B & HA & HB & Hp & _). exists (A ++ [a]), B. simpl.
  rewrite HA, <- app_assoc. repeat split; auto.
  - intros b Hb. destruct (Hp b Hb) as (a' & Ha' & Hpar). exists a'.
    split; [apply elem_of_app; now left | exact Hpar].
  - intros a' [= <-]. apply elem_of_app. right. left.
Qed.

Lemma accompanied_bridge s0 s a b :
  partner a b ->
  accompanied (Some a) s0 s ->
  accompanied (Some a) s0 (set_bridgeActivity (bridgeActivity s ++ [b]) s).
Proof.
  intros Hpar (A & B & HA & HB & Hp & Hcur). exists A, (B ++ [b]). simpl.
  rewrite HB, <- app_assoc. repeat split; auto.
  intros b' Hb'. apply elem_of_app in Hb' as [Hb'|Hb'].
  - now apply Hp.
  - apply list_elem_of_singleton in Hb' as ->. exists a. split; [now apply Hcur | exact Hpar].
Qed.

Lemma partner_deposit h sender tx amount ts i :
  partner (activityEvent sender ts i) (depositEvent h sender tx amount ts i).
Proof. now repeat split. Qed.

Lemma partner_withdrawal h sender tx ts i :
  partner (activityEvent sender ts i) (withdrawalEvent h sender tx ts i).
Proof. now repeat split. Qed.

(** Inserting the activity event makes it the current one; a rejected insert
    changes nothing. *)
Lemma hoare_insert_current env s0 a :
  hoare (accompanied None s0) (AddressActivity_insert env a)
        (fun _ => accompanied (Some a) s0) (accompanied None s0).
Proof.
  unfold AddressActivity_insert. eapply hoare_bind.
  - apply keeps_mongo, accompanied_stable.
  - intros u. apply hoare_modify. intros s. apply accompanied_activity.
Qed.

(** The bridge detection that follows the activity insert of [processTransaction]. *)
Lemma keeps_detect_incremental env s0 i ts h sender tx :
  keeps (accompanied (Some (activityEvent sender ts i)) s0)
    (let* _ := setLocals incr_addressesAdded in
     let* _ :=
       if isDeposit tx then
         tryCatch
           (let* _ := provider_getTransactionReceipt env h in
            let* depositAmount := fetchDepositAmount env h in
            let* _ := BridgeActivity_insert env
                        (depositEvent h sender tx depositAmount ts i) in
            throw ErrReference)
           (fun _ => ret tt)
       else ret tt in
     if isWithdrawal tx then
       BridgeActivity_insert env (withdrawalEvent h sender tx ts i)
     else ret tt).
Proof.
  pose proof (accompanied_stable (Some (activityEvent sender ts i)) s0) as Hst.
  apply keeps_bind; [now apply keeps_setLocals|]. intros _.
  apply keeps_bind.
  - destruct (isDeposit tx); [|apply keeps_ret].
    apply keeps_tryCatch; [|intros; apply keeps_ret].
    apply keeps_bind; [now apply keeps_call|]. intros _.
    apply keeps_bind; [now apply keeps_fetchDepositAmount|]. intros amount.
    apply keeps_bind; [|intros; apply keeps_throw].
    apply keeps_BridgeActivity_insert; [exact Hst|].
    intros s. apply accompanied_bridge, partner_deposit.
  - intros _. destruct (isWithdrawal tx); [|apply keeps_ret].
    apply keeps_BridgeActivity_insert; [exact Hst|].
    intros s. apply accompanied_bridge, partner_withdrawal.
Qed.

Lemma accompanied_processTransaction env s0 i ts h :
  keeps (accompanied None s0) (processTransaction env i ts h).
Proof.
  pose proof (accompanied_stable None s0) as Hst.
  unfold processTransaction.
  apply keeps_tryCatch; [|intros; apply keeps_ret].
  apply keeps_bind; [now apply keeps_call|].
  intros [tx|]; [|apply keeps_ret].
  destruct (truthyString (tx_from tx)) as [sender|]; [|apply keeps_ret].
  eapply hoare_bind; [apply hoare_insert_current|]. intros u.
  eapply hoare_weaken; [apply keeps_detect_incremental | | |]; simpl.
  - intros s Hs. exact Hs.
  - intros _ s Hs. exact (accompanied_forget _ _ _ Hs).
  - intros s Hs. exact (accompanied_forget _ _ _ Hs).
Qed.

(** The bridge detection that follows the activity insert of [backfillTransaction]. *)
Lemma keeps_detect_backfill env s0 i ts h sender tx :
  keeps (accompanied (Some (activityEvent sender ts i)) s0)
    (let* _ :=
       if isDeposit tx then
         tryCatch
           (let* existing := BridgeActivity_findOne env h in
            match existing with
            | Some _ => ret tt
            | None =>
                let* depositAmount := fetchDepositAmount env h in
                let* _ := BridgeActivity_insert env
                            (depositEvent h sender tx depositAmount ts i) in
                setLocals incr_depositsFound
            end)
           (fun _ => ret tt)
       else ret tt in
     if isWithdrawal tx then
       tryCatch
         (let* existing := BridgeActivity_findOne env h in
          match existing with
          | Some _ => ret tt
          | None =>
              let* _ := BridgeActivity_insert env
                          (withdrawalEvent h sender tx ts i) in
              setLocals incr_withdrawalsFound
          end)
         (fun _ => ret tt)
     else ret tt).
Proof.
  pose proof (accompanied_stable (Some (activityEvent sender ts i)) s0) as Hst.
  apply keeps_bind.
  - destruct (isDeposit tx); [|apply keeps_ret].
    apply keeps_tryCatch; [|intros; apply keeps_ret].
    apply keeps_bind; [now apply keeps_BridgeActivity_findOne|].
    intros [existing|]; [apply keeps_ret|].
    apply keeps_bind; [now apply keeps_fetchDepositAmount|]. intros amount.
    apply keeps_bind; [|intros; now apply keeps_setLocals].
    apply keeps_BridgeActivity_insert; [exact Hst|].
    intros s. apply accompanied_bridge, partner_deposit.
  - intros _. destruct (isWithdrawal tx); [|apply keeps_ret].
    apply keeps_tryCatch; [|intros; apply keeps_ret].
    apply keeps_bind; [now apply keeps_BridgeActivity_findOne|].
    intros [existing|]; [apply keeps_ret|].
    apply keeps_bind; [|intros; now apply keeps_setLocals].
    apply keeps_BridgeActivity_insert; [exact Hst|].
    intros s. apply accompanied_bridge, partner_withdrawal.
Qed.

Lemma tick_record r s : tick (record r s) = S (tick s).
Proof. unfold tick, record. simpl. rewrite length_app. simpl. lia. Qed.

(** A MongoDB operation that is accepted does not throw. *)
Lemma hoare_mongo_accepted env (P : State -> Prop) n :
  stable P -> db_fails env n = false ->
  hoare (fun s => P s /\ tick s = n) (mongo env) (fun _ => P) (fun _ => False).
Proof.
  intros HP Hok s [Hs Hn]. unfold mongo, call. rewrite Hn, Hok.
  eapply HP; eauto using sameEvents_record.
Qed.

(** The backfill step of one transaction, when MongoDB accepts the insert of
    the activity event (the second request of the step). *)
Lemma hoare_backfillTransaction_accepted env s0 i ts h n :
  db_fails env (S n) = false ->
  hoare (fun s => accompanied None s0 s /\ tick s = n)
        (backfillTransaction env i ts h)
        (fun _ => accompanied None s0) (accompanied None s0).
Proof.
  intros Hok. pose proof (accompanied_stable None s0) as Hst.
  unfold backfillTransaction.
  eapply hoare_tryCatch with (E' := accompanied None s0);
    [|intros; apply keeps_ret].
  eapply hoare_bind with
    (R := fun _ s => accompanied None s0 s /\ tick s = S n).
  { apply hoare_call.
    - intros s a [Hs Hn] _. rewrite tick_record, Hn. split; [|reflexivity].
      eapply Hst; eauto using sameEvents_record.
    - intros s [Hs _]. eapply Hst; eauto using sameEvents_record. }
  intros [tx|]; [|apply hoare_ret; now intros s [Hs _]].
  destruct (truthyString (tx_from tx)) as [sender|];
    [|apply hoare_ret; now intros s [Hs _]].
  eapply hoare_bind with
    (R := fun _ => accompanied (Some (activityEvent sender ts i)) s0).
  - eapply hoare_tryCatch with (E' := fun _ => False); [|intros e s []].
    unfold AddressActivity_insert.
    eapply hoare_bind with
      (R := fun _ => accompanied (Some (activityEvent sender ts i)) s0).
    2:{ intros u. apply hoare_modify. intros s Hs.
        eapply accompanied_stable; eauto using sameEvents_locals. }
    eapply hoare_bind; [now apply hoare_mongo_accepted|].
    intros u. apply hoare_modify. intros s. apply accompanied_activity.
  - intros u.
    eapply hoare_weaken; [apply keeps_detect_backfill | | |]; simpl.
    + intros s Hs. exact Hs.
    + intros _ s Hs. exact (accompanied_forget _ _ _ Hs).
    + intros s Hs. exact (accompanied_forget _ _ _ Hs).
Qed.

Lemma accompanied_backfillTransaction env s0 i ts h :
  (forall t, db_fails env t = false) ->
  keeps (accompanied None s0) (backfillTransaction env i ts h).
Proof.
  intros Hok s Hs.
  apply (hoare_backfillTransaction_accepted env s0 i ts h (tick s) (Hok _) s).
  now split.
Qed.

(** A transaction step that fetches no sender changes no collection. *)
Lemma processTransaction_without_sender env i ts h s :
  (forall tx, rpc_getTransaction env (tick s) h = Ret (Some tx) ->
              truthyString (tx_from tx) = None) ->
  sameEvents s (snd (processTransaction env i ts h s)).
Proof.
  intros Hfrom. unfold processTransaction, tryCatch, bind, provider_getTransaction, call.
  destruct (rpc_getTransaction env (tick s) h) as [[tx|]|e]; simpl;
    try apply sameEvents_record.
  rewrite (Hfrom tx eq_refl). simpl. apply sameEvents_record.
Qed.

Lemma backfillTransaction_without_sender env i ts h s :
  (forall tx, rpc_getTransaction env (tick s) h = Ret (Some tx) ->
              truthyString (tx_from tx) = None) ->
  sameEvents s (snd (backfillTransaction env i ts h s)).
Proof.
  intros Hfrom. unfold backfillTransaction, tryCatch, bind, provider_getTransaction, call.
  destruct (rpc_getTransaction env (tick s) h) as [[tx|]|e]; simpl;
    try apply sameEvents_record.
  rewrite (Hfrom tx eq_refl). simpl. apply sameEvents_record.
Qed.

(** C8, amended.  A transaction whose [from] is absent makes neither scan
    write an event.  Every BridgeEvent that the incremental scan persists is
    accompanied by the ActivityEvent written for the same transaction in the
    same pass.  In the backfill the ActivityEvent insert comes first as well,
    but its rejection is swallowed: a BridgeEvent persisted by the backfill is
    accompanied by the ActivityEvent when MongoDB accepts that insert. *)
Theorem bridge_events_follow_activity (env : Env) (s : State) :
  (forall i ts h,
      (forall tx, rpc_getTransaction env (tick s) h = Ret (Some tx) ->
                  truthyString (tx_from tx) = None) ->
      sameEvents s (snd (processTransaction env i ts h s)) /\
      sameEvents s (snd (backfillTransaction env i ts h s))) /\
  accompanied None s (snd (processNewBlocks env s)) /\
  (forall i ts h,
      db_fails env (S (tick s)) = false ->
      accompanied None s (snd (backfillTransaction env i ts h s))) /\
  ((forall t, db_fails env t = false) ->
   accompanied None s (snd (backfillBridgeActivity env s))).
Proof.
  split; [|split; [|split]].
  - intros i ts h Hfrom. split.
    + now apply processTransaction_without_sender.
    + now apply backfillTransaction_without_sender.
  - apply keeps_here; [|apply accompanied_refl].
    apply keeps_processNewBlocks; [apply accompanied_stable|].
    intros i ts h _. apply accompanied_processTransaction.
  - intros i ts h Hok.
    pose proof (hoare_backfillTransaction_accepted env s i ts h (tick s) Hok s
                  (conj (accompanied_refl s) eq_refl)) as H.
    now destruct (backfillTransaction env i ts h s) as [[u|e] s1].
  - intros Hok. apply keeps_here; [|apply accompanied_refl].
    apply keeps_backfillBridgeActivity; [apply accompanied_stable|].
    intros i ts h _. now apply accompanied_backfillTransaction.
Qed.

(** ** Events emitted for one transaction *)

Lemma emitted_refl s : emitted 0 0 0 s s.
Proof. exists [], []. now rewrite !app_nil_r. Qed.

Lemma emitted_stable na nd nw s0 : stable (emitted na nd nw s0).
Proof.
  intros s s' [HA HB] (A & B & ? & ? & ?). exists A, B. rewrite HA, HB. auto.
Qed.

Lemma emitted_mono na nd nw na' nd' nw' s0 s :
  (na <= na')%nat -> (nd <= nd')%nat -> (nw <= nw')%nat ->
  emitted na nd nw s0 s -> emitted na' nd' nw' s0 s.
Proof.
  intros ? ? ? (A & B & ? & ? & ? & ? & ?). exists A, B. repeat split; auto; lia.
Qed.

Lemma emitted_activity na nd nw s0 s a :
  emitted na nd nw s0 s ->
  emitted (S na) nd nw s0 (set_addressActivity (addressActivity s ++ [a]) s).
Proof.
  intros (A & B & HA & HB & ? & ? & ?). exists (A ++ [a]), B. simpl.
  rewrite HA, <- app_assoc, length_app. simpl. repeat split; auto; lia.
Qed.

Lemma emitted_deposit na nd nw s0 s b :
  type b = deposit ->
  emitted na nd nw s0 s ->
  emitted na (S nd) nw s0 (set_bridgeActivity (bridgeActivity s ++ [b]) s).
Proof.
  intros Hb (A & B & HA & HB & ? & ? & ?). exists A, (B ++ [b]). simpl.
  rewrite HB, <- app_assoc. unfold ofKind in *. rewrite !filter_app, !length_app.
  rewrite (filter_cons_True (fun b => type b = deposit) b []) by exact Hb.
  rewrite (filter_cons_False (fun b => type b = withdrawal) b [])
    by (rewrite Hb; discriminate).
  simpl. repeat split; auto; lia.
Qed.

Lemma emitted_withdrawal na nd nw s0 s b :
  type b = withdrawal ->
  emitted na nd nw s0 s ->
  emitted na nd (S nw) s0 (set_bridgeActivity (bridgeActivity s ++ [b]) s).
Proof.
  intros Hb (A & B & HA & HB & ? & ? & ?). exists A, (B ++ [b]). simpl.
  rewrite HB, <- app_assoc. unfold ofKind in *. rewrite !filter_app, !length_app.
  rewrite (filter_cons_True (fun b => type b = withdrawal) b []) by exact Hb.
  rewrite (filter_cons_False (fun b => type b = deposit) b [])
    by (rewrite Hb; discriminate).
  simpl. repeat split; auto; lia.
Qed.

Lemma advances_keeps {A : Type} (I J : State -> Prop) (m : M A) :
  keeps I m -> (forall s, I s -> J s) -> advances I J m.
Proof. intros Hm HIJ. eapply hoare_weaken; [exact Hm | | |]; simpl; auto. Qed.

Lemma advances_bind {A B : Type} (I J K : State -> Prop) (m : M A) (k : A -> M B) :
  advances I J m -> (forall a, advances J K (k a)) -> (forall s, J s -> K s) ->
  advances I K (bind m k).
Proof.
  intros Hm Hk HJK. eapply hoare_bind with (R := fun _ => J).
  - eapply hoare_weaken; [exact Hm | | |]; simpl; auto.
  - exact Hk.
Qed.

Lemma advances_tryCatch {A : Type} (I J : State -> Prop) (m : M A) (h : error -> M A) :
  advances I J m -> (forall e, keeps J (h e)) -> advances I J (tryCatch m h).
Proof. intros Hm Hh. eapply hoare_tryCatch; [exact Hm | exact Hh]. Qed.

Lemma advances_insert_activity env na nd nw s0 a :
  advances (emitted na nd nw s0) (emitted (S na) nd nw s0) (AddressActivity_insert env a).
Proof.
  unfold AddressActivity_insert. eapply advances_bind with (J := emitted na nd nw s0).
  - apply advances_keeps; [apply keeps_mongo, emitted_stable | auto].
  - intros u. apply hoare_modify. intros s. apply emitted_activity.
  - intros s. apply emitted_mono; lia.
Qed.

Lemma advances_insert_deposit env na nd nw s0 b :
  type b = deposit ->
  advances (emitted na nd nw s0) (emitted na (S nd) nw s0) (BridgeActivity_insert env b).
Proof.
  intros Hb. unfold BridgeActivity_insert.
  eapply advances_bind with (J := emitted na nd nw s0).
  - apply advances_keeps; [apply keeps_mongo, emitted_stable | auto].
  - intros u. apply hoare_modify. intros s. now apply emitted_deposit.
  - intros s. apply emitted_mono; lia.
Qed.

Lemma advances_insert_withdrawal env na nd nw s0 b :
  type b = withdrawal ->
  advances (emitted na nd nw s0) (emitted na nd (S nw) s0) (BridgeActivity_insert env b).
Proof.
  intros Hb. unfold BridgeActivity_insert.
  eapply advances_bind with (J := emitted na nd nw s0).
  - apply advances_keeps; [apply keeps_mongo, emitted_stable | auto].
  - intros u. apply hoare_modify. intros s. now apply emitted_withdrawal.
  - intros s. apply emitted_mono; lia.
Qed.

Lemma emitted_processTransaction env s0 i ts h :
  advances (emitted 0 0 0 s0) (emitted 1 1 1 s0) (processTransaction env i ts h).
Proof.
  assert (Hmono : forall na nd nw s, (na <= 1)%nat -> (nd <= 1)%nat -> (nw <= 1)%nat ->
                    emitted na nd nw s0 s -> emitted 1 1 1 s0 s)
    by (intros na nd nw s ? ? ?; now apply emitted_mono).
  unfold processTransaction.
  apply advances_tryCatch; [|intros; apply keeps_ret].
  eapply advances_bind with (J := emitted 0 0 0 s0); eauto.
  { apply advances_keeps; [apply keeps_call, emitted_stable | auto]. }
  intros [tx|]; [|apply advances_keeps; [apply keeps_ret | eauto]].
  destruct (truthyString (tx_from tx)) as [sender|];
    [|apply advances_keeps; [apply keeps_ret | eauto]].
  eapply advances_bind with (J := emitted 1 0 0 s0); eauto.
  { apply advances_insert_activity. }
  intros _. eapply advances_bind with (J := emitted 1 0 0 s0); eauto.
  { apply advances_keeps; [apply keeps_setLocals, emitted_stable | auto]. }
  intros _. eapply advances_bind with (J := emitted 1 1 0 s0); eauto.
  - destruct (isDeposit tx).
    2:{ apply advances_keeps; [apply keeps_ret|]. intros s. apply emitted_mono; lia. }
    apply advances_tryCatch; [|intros; apply keeps_ret].
    eapply advances_bind with (J := emitted 1 0 0 s0).
    { apply advances_keeps; [apply keeps_call, emitted_stable | auto]. }
    2:{ intros s. apply emitted_mono; lia. }
    intros _. eapply advances_bind with (J := emitted 1 0 0 s0).
    { apply advances_keeps; [apply keeps_fetchDepositAmount, emitted_stable | auto]. }
    2:{ intros s. apply emitted_mono; lia. }
    intros amount. eapply advances_bind with (J := emitted 1 1 0 s0); auto.
    + now apply advances_insert_deposit.
    + intros; apply keeps_throw.
  - intros _. destruct (isWithdrawal tx).
    + now apply advances_insert_withdrawal.
    + apply advances_keeps; [apply keeps_ret|]. intros s. apply emitted_mono; lia.
Qed.

Lemma writtenFor_refl h s : writtenFor h 0 0 s s.
Proof.
  exists [], []. rewrite !app_nil_r. repeat split; auto. intros b Hb. inversion Hb.
Qed.

Lemma writtenFor_stable h na nb s0 : stable (writtenFor h na nb s0).
Proof.
  intros s s' [HA HB] (A & B & ? & ? & ?). exists A, B. rewrite HA, HB. auto.
Qed.

Lemma writtenFor_mono h na nb na' nb' s0 s :
  (na <= na')%nat -> (nb <= nb')%nat ->
  writtenFor h na nb s0 s -> writtenFor h na' nb' s0 s.
Proof.
  intros ? ? (A & B & ? & ? & ? & ? & ?). exists A, B. repeat split; auto; lia.
Qed.

Lemma writtenFor_activity h na nb s0 s a :
  writtenFor h na nb s0 s ->
  writtenFor h (S na) nb s0 (set_addressActivity (addressActivity s ++ [a]) s).
Proof.
  intros (A & B & HA & HB & ? & ? & ?). exists (A ++ [a]), B. simpl.
  rewrite HA, <- app_assoc, length_app. simpl. repeat split; auto; lia.
Qed.

Lemma writtenFor_bridge h na s0 s b :
  txHash b = h ->
  writtenFor h na 0 s0 s ->
  writtenFor h na 1 s0 (set_bridgeActivity (bridgeActivity s ++ [b]) s).
Proof.
  intros Hb (A & B & HA & HB & ? & HlenB & ?).
  destruct B; [|simpl in HlenB; lia].
  exists A, [b]. simpl. rewrite HB, app_nil_r. repeat split; auto.
  intros b' Hb'. now apply list_elem_of_singleton in Hb' as ->.
Qed.

Lemma findByTxHash_None h l b :
  findByTxHash h l = None -> b ∈ l -> txHash b <> h.
Proof.
  unfold findByTxHash. intros Hnone Hb%list_elem_of_In Heq.
  pose proof (find_none _ _ Hnone b Hb) as Hneq. simpl in Hneq.
  apply String.eqb_neq in Hneq. contradiction.
Qed.

(** When the lookup by hash finds nothing, nothing was written for [h] yet. *)
Lemma writtenFor_unseen h na nb s0 s :
  writtenFor h na nb s0 s ->
  findByTxHash h (bridgeActivity s) = None ->
  writtenFor h na 0 s0 s.
Proof.
  intros (A & B & HA & HB & ? & ? & Hh) Hnone.
  destruct B as [|b B]; [exists A, []; repeat split; auto|].
  exfalso. apply (findByTxHash_None h (bridgeActivity s) b Hnone).
  - rewrite HB. apply elem_of_app. right. left.
  - apply Hh. left.
Qed.

(** The guarded insert of the backfill: look the hash up, insert when it is
    absent. *)
Lemma advances_guarded_insert env h na s0 (b : Z -> BridgeEvent)
    (amount : M Z) (count : Locals -> Locals) :
  (forall v, txHash (b v) = h) ->
  (forall I, stable I -> keeps I amount) ->
  keeps (writtenFor h na 1 s0)
    (tryCatch
       (let* existing := BridgeActivity_findOne env h in
        match existing with
        | Some _ => ret tt
        | None =>
            let* v := amount in
            let* _ := BridgeActivity_insert env (b v) in
            setLocals count
        end)
       (fun _ => ret tt)).
Proof.
  intros Hb Hamount. pose proof (writtenFor_stable h na 1 s0) as Hst.
  apply keeps_tryCatch; [|intros; apply keeps_ret].
  eapply hoare_bind with
    (R := fun existing s => writtenFor h na 1 s0 s /\
                            existing = findByTxHash h (bridgeActivity s)).
  - unfold BridgeActivity_findOne.
    eapply hoare_bind; [now apply keeps_mongo|].
    intros u. now apply hoare_gets.
  - intros [existing|]; [apply hoare_ret; now intros s [Hs _]|].
    eapply hoare_weaken with
      (P' := writtenFor h na 0 s0) (Q' := fun _ => writtenFor h na 1 s0)
      (E' := writtenFor h na 1 s0); auto.
    2:{ intros s [Hs Hnone]. eapply writtenFor_unseen; eauto. }
    pose proof (writtenFor_stable h na 0 s0) as Hst0.
    eapply advances_bind with (J := writtenFor h na 0 s0).
    + apply advances_keeps; auto.
    + intros v. eapply advances_bind with (J := writtenFor h na 1 s0); auto.
      * unfold BridgeActivity_insert.
        eapply advances_bind with (J := writtenFor h na 0 s0).
        -- apply advances_keeps; [now apply keeps_mongo | auto].
        -- intros u. apply hoare_modify. intros s. now apply writtenFor_bridge.
        -- intros s. apply writtenFor_mono; lia.
      * intros _. now apply keeps_setLocals.
    + intros s. apply writtenFor_mono; lia.
Qed.

Lemma writtenFor_backfillTransaction env s0 i ts h :
  advances (writtenFor h 0 0 s0) (writtenFor h 1 1 s0) (backfillTransaction env i ts h).
Proof.
  unfold backfillTransaction.
  apply advances_tryCatch; [|intros; apply keeps_ret].
  eapply advances_bind with (J := writtenFor h 0 0 s0).
  { apply advances_keeps; [apply keeps_call, writtenFor_stable | auto]. }
  2:{ intros s. apply writtenFor_mono; lia. }
  intros [tx|];
    [|apply advances_keeps; [apply keeps_ret | intros s; apply writtenFor_mono; lia]].
  destruct (truthyString (tx_from tx)) as [sender|];
    [|apply advances_keeps; [apply keeps_ret | intros s; apply writtenFor_mono; lia]].
  eapply advances_bind with (J := writtenFor h 1 1 s0); auto.
  2:{ intros _. apply advances_keeps; [|auto]. apply keeps_bind.
      - destruct (isDeposit tx); [|apply keeps_ret].
        apply (advances_guarded_insert env h 1 s0
                 (fun v => depositEvent h sender tx v ts i)
                 (fetchDepositAmount env h) incr_depositsFound); auto.
        intros I HI. now apply keeps_fetchDepositAmount.
      - intros _. destruct (isWithdrawal tx); [|apply keeps_ret].
        pose proof (advances_guarded_insert env h 1 s0
                 (fun _ => withdrawalEvent h sender tx ts i)
                 (ret 0) incr_withdrawalsFound) as H.
        apply H; auto. intros; apply keeps_ret. }
  eapply hoare_weaken with
    (P' := writtenFor h 0 0 s0) (Q' := fun _ => writtenFor h 1 0 s0)
    (E' := writtenFor h 1 0 s0); auto;
    try (intros; eapply writtenFor_mono; [| |eassumption]; lia).
  apply advances_tryCatch; [|intros; apply keeps_ret].
  eapply advances_bind with (J := writtenFor h 1 0 s0); auto.
  - unfold AddressActivity_insert.
    eapply advances_bind with (J := writtenFor h 0 0 s0).
    + apply advances_keeps; [apply keeps_mongo, writtenFor_stable | auto].
    + intros u. apply hoare_modify. intros s. apply writtenFor_activity.
    + intros s. apply writtenFor_mono; lia.
  - intros _. apply keeps_setLocals, writtenFor_stable.
Qed.

(** ** Runs with working collaborators *)

Lemma fetchDepositAmount_run env h s :
  exists amount,
    fetchDepositAmount env h s = (Ret amount, record (ReqInternalTxs h) s).
Proof.
  unfold fetchDepositAmount, tryCatch, bind, call, lift, ret.
  destruct (http_internalTxs env (tick s) h) as [response|e]; [|eauto].
  destruct (negb (ok response)); [eauto|].
  destruct (json response) as [[[|item items]|]|e]; eauto.
  destruct (findDepositTransfer (item :: items)) as [[[sender [v|]]|]|e]; eauto.
Qed.

Lemma AddressActivity_insert_run env e s :
  db_fails env (tick s) = false ->
  AddressActivity_insert env e s =
    (Ret tt, set_addressActivity (addressActivity s ++ [e]) (record ReqDb s)).
Proof.
  intros Hok. unfold AddressActivity_insert, bind, mongo, call, modify.
  now rewrite Hok.
Qed.

Lemma BridgeActivity_insert_run env b s :
  db_fails env (tick s) = false ->
  BridgeActivity_insert env b s =
    (Ret tt, set_bridgeActivity (bridgeActivity s ++ [b]) (record ReqDb s)).
Proof.
  intros Hok. unfold BridgeActivity_insert, bind, mongo, call, modify.
  now rewrite Hok.
Qed.

(** The incremental step of a transaction with a sender, when MongoDB and the
    receipt request work: the activity event, then a deposit when the type is
    105, then a withdrawal when the recipient is ArbSys and the value is
    positive. *)
Lemma processTransaction_run env i ts h s tx sender :
  rpc_getTransaction env (tick s) h = Ret (Some tx) ->
  truthyString (tx_from tx) = Some sender ->
  (forall t, db_fails env t = false) ->
  (forall t, rpc_getTransactionReceipt env t h = Ret tt) ->
  exists amount,
    addressActivity (snd (processTransaction env i ts h s)) =
      addressActivity s ++ [activityEvent sender ts i] /\
    bridgeActivity (snd (processTransaction env i ts h s)) =
      bridgeActivity s
      ++ (if isDeposit tx then [depositEvent h sender tx amount ts i] else [])
      ++ (if isWithdrawal tx then [withdrawalEvent h sender tx ts i] else []).
Proof.
  intros Htx Hfrom Hdb Hreceipt.
  remember (processTransaction env i ts h s) as r eqn:Hr.
  unfold processTransaction, tryCatch, bind in Hr.
  unfold provider_getTransaction, call at 1 in Hr.
  rewrite Htx, Hfrom, AddressActivity_insert_run in Hr by apply Hdb.
  unfold setLocals, modify at 1 in Hr.
  destruct (isDeposit tx).
  - unfold provider_getTransactionReceipt, call at 1 in Hr. rewrite Hreceipt in Hr.
    match type of Hr with
    | context [fetchDepositAmount env h ?s1] =>
        destruct (fetchDepositAmount_run env h s1) as [amount Hamount];
        rewrite Hamount in Hr
    end.
    exists amount. rewrite BridgeActivity_insert_run in Hr by apply Hdb.
    unfold throw, ret in Hr. destruct (isWithdrawal tx).
    + rewrite BridgeActivity_insert_run in Hr by apply Hdb. subst r. simpl.
      split; [reflexivity|]. now rewrite <- ?app_assoc.
    + subst r. simpl. now rewrite ?app_nil_r.
  - exists 0. unfold ret in Hr. destruct (isWithdrawal tx).
    + rewrite BridgeActivity_insert_run in Hr by apply Hdb. now subst r.
    + subst r. simpl. now rewrite ?app_nil_r.
Qed.

Lemma isDeposit_spec tx : isDeposit tx = true <-> tx_type tx = Some 105.
Proof.
  unfold isDeposit, DEPOSIT_TX_TYPE. destruct (tx_type tx) as [t|].
  - rewrite Z.eqb_eq. split; congruence.
  - split; discriminate.
Qed.

Lemma isWithdrawal_spec tx :
  isWithdrawal tx = true <->
  exists recipient,
    tx_to tx = Some recipient /\ recipient <> EmptyString /\
    toLowerCase recipient = ARBSYS_ADDRESS /\ 0 < tx_value tx.
Proof.
  unfold isWithdrawal, truthyString. destruct (tx_to tx) as [r|].
  - destruct (String.eqb_spec r "") as [->|Hne].
    + split; [discriminate|]. intros (r' & [= <-] & Hr' & _). contradiction.
    + rewrite andb_true_iff, String.eqb_eq, Z.ltb_lt. split.
      * intros [Hto Hval]. exists r. auto.
      * intros (r' & [= <-] & _ & Hto & Hval). auto.
  - split; [discriminate|]. intros (r' & Hr' & _). discriminate.
Qed.

Lemma classified_processTransaction env s0 i ts h :
  keeps (appends (activityOf env i ts h) (classifiedAs env i ts h) s0)
        (processTransaction env i ts h).
Proof.
  apply appends_processTransaction.
  - intros tx sender Hf. now exists tx, sender.
  - intros tx sender amount Hf Hdep. exists tx, sender. split; [exact Hf|]. left. eauto.
  - intros tx sender Hf Hwd. exists tx, sender. split; [exact Hf|]. right. eauto.
Qed.

Lemma classified_backfillTransaction env s0 i ts h :
  keeps (appends (activityOf env i ts h) (classifiedAs env i ts h) s0)
        (backfillTransaction env i ts h).
Proof.
  apply appends_backfillTransaction.
  - intros tx sender Hf. now exists tx, sender.
  - intros tx sender amount Hf Hdep. exists tx, sender. split; [exact Hf|]. left. eauto.
  - intros tx sender Hf Hwd. exists tx, sender. split; [exact Hf|]. right. eauto.
Qed.

(** C2, amended.  For every transaction the classification step of either
    scan emits at most one ActivityEvent, at most one deposit BridgeEvent and
    at most one withdrawal BridgeEvent, all for the fetched transaction: a
    deposit only when its type is 105, a withdrawal only when its recipient
    is the bridge entry address and its value is positive, whatever its type.
    The backfill step, which looks the hash up before each write, persists at
    most one BridgeEvent per transaction. *)
Theorem classification_emits_each_kind_at_most_once
    (env : Env) (i ts : Z) (h : string) (s : State) :
  (emitted 1 1 1 s (snd (processTransaction env i ts h s)) /\
   appends (activityOf env i ts h) (classifiedAs env i ts h) s
     (snd (processTransaction env i ts h s))) /\
  (writtenFor h 1 1 s (snd (backfillTransaction env i ts h s)) /\
   appends (activityOf env i ts h) (classifiedAs env i ts h) s
     (snd (backfillTransaction env i ts h s))) /\
  (forall tx, isDeposit tx = true <-> tx_type tx = Some 105) /\
  (forall tx, isWithdrawal tx = true <->
     exists recipient,
       tx_to tx = Some recipient /\ recipient <> EmptyString /\
       toLowerCase recipient = ARBSYS_ADDRESS /\ 0 < tx_value tx).
Proof.
  split; [split|split; [split|split]].
  - pose proof (emitted_processTransaction env s i ts h s (emitted_refl s)) as H.
    now destruct (processTransaction env i ts h s) as [[u|e] s1].
  - apply keeps_here; [apply classified_processTransaction | apply appends_refl].
  - pose proof (writtenFor_backfillTransaction env s i ts h s (writtenFor_refl h s)) as H.
    now destruct (backfillTransaction env i ts h s) as [[u|e] s1].
  - apply keeps_here; [apply classified_backfillTransaction | apply appends_refl].
  - apply isDeposit_spec.
  - apply isWithdrawal_spec.
Qed.

(** ** The resume point of the incremental scan *)

Lemma newer_Some best e : exists m,
  newer best e = Some m /\ act_blockNumber e <= act_blockNumber m /\
  (forall b, best = Some b -> act_blockNumber b <= act_blockNumber m).
Proof.
  destruct best as [b|]; simpl.
  - destruct (Z.ltb_spec (act_blockNumber b) (act_blockNumber e)).
    + exists e. repeat split; [lia|]. intros ? [= <-]. lia.
    + exists b. repeat split; [lia|]. intros ? [= <-]. lia.
  - exists e. repeat split; [lia | discriminate].
Qed.

Lemma fold_newer_from l b :
  exists m, fold_left newer l (Some b) = Some m /\ act_blockNumber b <= act_blockNumber m.
Proof.
  revert b. induction l as [|e l IH]; intros b; cbn [fold_left].
  - exists b. split; [reflexivity | lia].
  - destruct (newer_Some (Some b) e) as (m & Hm & _ & Hb). rewrite Hm.
    destruct (IH m) as (m' & Hm' & Hle). exists m'. split; [exact Hm'|].
    specialize (Hb b eq_refl). lia.
Qed.

Lemma fold_newer_max l best a :
  a ∈ l ->
  exists m, fold_left newer l best = Some m /\ act_blockNumber a <= act_blockNumber m.
Proof.
  revert best. induction l as [|e l IH]; intros best Ha; [inversion Ha|].
  cbn [fold_left].
  destruct (newer_Some best e) as (m & Hm & He & _). rewrite Hm.
  apply elem_of_cons in Ha as [->|Ha].
  - destruct (fold_newer_from l m) as (m' & Hm' & Hle). exists m'. split; [exact Hm' | lia].
  - now apply IH.
Qed.

(** The newest activity has the greatest block number. *)
Lemma lastByBlockNumber_max l a :
  a ∈ l ->
  exists m, lastByBlockNumber l = Some m /\ act_blockNumber a <= act_blockNumber m.
Proof. apply fold_newer_max. Qed.

(** A transaction step whose fetch fails changes no collection. *)
Lemma keeps_processTransaction_failing env (I : State -> Prop) i ts h :
  stable I ->
  (forall t, exists e, rpc_getTransaction env t h = Throw e) ->
  keeps I (processTransaction env i ts h).
Proof.
  intros HI Hfail. unfold processTransaction, provider_getTransaction.
  apply keeps_tryCatch; [|intros; apply keeps_ret].
  apply keeps_bind_call; [exact HI|]. intros t tx Htx.
  destruct (Hfail t) as [e He]. congruence.
Qed.

Lemma sameEvents_stable s0 : stable (sameEvents s0).
Proof.
  intros s s' [HA HB] [HA0 HB0]. split; congruence.
Qed.

Lemma sameEvents_refl s : sameEvents s s.
Proof. now split. Qed.

(** The heights of the events appended by one incremental scan. *)
Lemma processNewBlocks_range env s :
  appends
    (fun a => exists currentBlock,
       rpc_getBlockNumber env (tick s) = Ret currentBlock /\
       startBlockOf (lastByBlockNumber (addressActivity s)) currentBlock
         <= act_blockNumber a <= currentBlock)
    (fun _ => True)
    s (snd (processNewBlocks env s)).
Proof.
  set (PA := fun a : ActivityEvent => exists currentBlock, _).
  set (I := appends PA (fun _ => True) s).
  assert (Hst : stable I) by apply appends_stable.
  assert (H : hoare (fun x => x = s) (processNewBlocks env) (fun _ => I) I).
  2:{ specialize (H s eq_refl). now destruct (processNewBlocks env s) as [[n|e] s1]. }
  unfold processNewBlocks, provider_getBlockNumber.
  eapply hoare_tryCatch with (E' := I); [|intros; apply keeps_ret].
  eapply hoare_bind with (R := fun _ x => x = s).
  { unfold getProvider. destruct (rpcEndpoint (settings env)).
    - now apply hoare_ret.
    - apply hoare_throw. intros x ->. apply appends_refl. }
  intros _.
  eapply hoare_bind with
    (R := fun currentBlock x =>
            (I x /\ addressActivity x = addressActivity s) /\
            rpc_getBlockNumber env (tick s) = Ret currentBlock).
  { apply hoare_call.
    - intros x currentBlock -> Hcur. repeat split; [|exact Hcur].
      eapply Hst; [apply sameEvents_record | apply appends_refl].
    - intros x ->. eapply Hst; [apply sameEvents_record | apply appends_refl]. }
  intros currentBlock. apply hoare_pure. intros Hcur.
  eapply hoare_bind with
    (R := fun lastActivity x =>
            I x /\ lastActivity = lastByBlockNumber (addressActivity s)).
  { unfold AddressActivity_findLast.
    eapply hoare_bind with (R := fun _ x => I x /\ addressActivity x = addressActivity s).
    - apply hoare_call.
      + intros x u [Hx Hsame] _. split; [|exact Hsame].
        eapply Hst; eauto using sameEvents_record.
      + intros x [Hx _]. eapply Hst; eauto using sameEvents_record.
    - intros u. apply hoare_gets. intros x [Hx Hsame]. now rewrite Hsame. }
  intros lastActivity. apply hoare_pure. intros ->.
  set (startBlock := startBlockOf _ currentBlock).
  destruct (currentBlock <? startBlock); [apply keeps_ret|].
  apply keeps_bind; [now apply keeps_setLocals|]. intros _.
  apply keeps_bind; [|intros; apply keeps_ret].
  apply keeps_forEach. intros i Hi. apply elem_of_seqZ in Hi.
  apply keeps_processBlock; [exact Hst|]. intros ts h _.
  apply appends_processTransaction; auto.
  intros tx sender _. exists currentBlock. split; [exact Hcur|].
  simpl. fold startBlock. lia.
Qed.

(** ** Weekly active addresses *)

Lemma firstCount_countStage {A : Type} (l : list A) :
  firstCount (countStage l) = Z.of_nat (length l).
Proof. now destruct l. Qed.

Lemma length_remove_dups_size (l : list string) :
  length (remove_dups l) = size (list_to_set l : gset string).
Proof.
  rewrite <- (size_list_to_set (C := gset string) (remove_dups l))
    by apply NoDup_remove_dups.
  f_equal. apply set_eq. intros x.
  now rewrite !elem_of_list_to_set, elem_of_remove_dups.
Qed.

Lemma matchActive_spec gte e :
  matchActive gte None e = true <->
  gte <= act_timestamp e /\ (address e ∉ SYSTEM_ADDRESSES).
Proof.
  unfold matchActive.
  rewrite andb_true_r, andb_true_iff, negb_true_iff, bool_decide_eq_false, Z.leb_le.
  reflexivity.
Qed.

Lemma elem_of_distinctActiveAddresses now l a :
  a ∈ distinctActiveAddresses now l <->
  (a ∉ SYSTEM_ADDRESSES) /\
  exists e, e ∈ l /\ address e = a /\ now - 604800000 <= act_timestamp e.
Proof.
  unfold distinctActiveAddresses.
  rewrite elem_of_difference, !elem_of_list_to_set, list_elem_of_fmap.
  split.
  - intros [(e & -> & He) Hsys]. apply list_elem_of_filter in He as [Hts He].
    split; [exact Hsys|]. now exists e.
  - intros [Hsys (e & He & <- & Hts)]. split; [|exact Hsys].
    exists e. split; [reflexivity|]. now apply list_elem_of_filter.
Qed.

(** The aggregation pipeline counts the specified set. *)
Lemma uniqueAddressesPipeline_size now l :
  firstCount (uniqueAddressesPipeline (now - 7 * 24 * 60 * 60 * 1000) None l) =
  Z.of_nat (size (distinctActiveAddresses now l)).
Proof.
  unfold uniqueAddressesPipeline, groupByAddress.
  rewrite firstCount_countStage, length_remove_dups_size. do 2 f_equal.
  apply set_eq. intros a. rewrite elem_of_distinctActiveAddresses.
  rewrite elem_of_list_to_set, list_elem_of_fmap. split.
  - intros (e & -> & He). apply list_elem_of_filter in He as [Hm He].
    apply matchActive_spec in Hm as [Hts Hsys].
    split; [exact Hsys|]. exists e. repeat split; auto; lia.
  - intros [Hsys (e & He & <- & Hts)]. exists e. split; [reflexivity|].
    apply list_elem_of_filter. split; [|exact He].
    apply matchActive_spec. split; [lia | exact Hsys].
Qed.

Lemma calculateWeeklyActiveAddresses_run env s :
  db_fails env (tick s) = false ->
  calculateWeeklyActiveAddresses env s =
    (Ret (Z.of_nat (size (distinctActiveAddresses (clock env (tick s)) (addressActivity s)))),
     record ReqDb s).
Proof.
  intros Hok.
  unfold calculateWeeklyActiveAddresses, tryCatch, bind, dateNow,
    AddressActivity_uniqueAddresses, bind, mongo, call, gets, ret.
  rewrite Hok. cbn [addressActivity record].
  now rewrite uniqueAddressesPipeline_size.
Qed.

Lemma distinctActiveAddresses_same_rows now l1 l2 :
  (forall e, e ∈ l2 <-> e ∈ l1) ->
  distinctActiveAddresses now l2 = distinctActiveAddresses now l1.
Proof.
  intros Hrows. apply set_eq. intros a.
  rewrite !elem_of_distinctActiveAddresses.
  split; intros [Hsys (e & He & Hrest)]; (split; [exact Hsys|]);
    exists e; (split; [now apply Hrows | exact Hrest]).
Qed.

(** C6.  When the aggregation query is answered, the weekly-active-address
    count is the cardinality of the set of distinct addresses among the
    ActivityEvents with timestamp >= now - 7 days, system addresses removed.
    An address is in that set exactly when it is no system address and some
    event of it lies in the window, so an address active only 8 days ago is
    not counted and one active 6 days or 1 day ago is; and the count depends
    on the set of rows only, so duplicating a row does not change it. *)
Theorem weekly_active_count_is_distinct_cardinality (env : Env) (s : State) :
  db_fails env (tick s) = false ->
  let now := clock env (tick s) in
  fst (calculateWeeklyActiveAddresses env s) =
    Ret (Z.of_nat (size (distinctActiveAddresses now (addressActivity s)))) /\
  (forall a,
      a ∈ distinctActiveAddresses now (addressActivity s) <->
      (a ∉ SYSTEM_ADDRESSES) /\
      exists e, e ∈ addressActivity s /\ address e = a /\
                now - 7 * 24 * 60 * 60 * 1000 <= act_timestamp e) /\
  (forall e, e ∈ addressActivity s ->
     fst (calculateWeeklyActiveAddresses env
            (set_addressActivity (addressActivity s ++ [e]) s)) =
     fst (calculateWeeklyActiveAddresses env s)) /\
  (forall s2, tick s2 = tick s ->
     (forall e, e ∈ addressActivity s2 <-> e ∈ addressActivity s) ->
     fst (calculateWeeklyActiveAddresses env s2) =
     fst (calculateWeeklyActiveAddresses env s)).
Proof.
  intros Hok now.
  assert (Hsame : forall s2, tick s2 = tick s ->
            (forall e, e ∈ addressActivity s2 <-> e ∈ addressActivity s) ->
            fst (calculateWeeklyActiveAddresses env s2) =
            fst (calculateWeeklyActiveAddresses env s)).
  { intros s2 Htick Hrows.
    rewrite !calculateWeeklyActiveAddresses_run by (rewrite ?Htick; exact Hok).
    simpl. rewrite Htick. do 3 f_equal. now apply distinctActiveAddresses_same_rows. }
  split; [|split; [|split]].
  - now rewrite calculateWeeklyActiveAddresses_run.
  - intros a. apply elem_of_distinctActiveAddresses.
  - intros e He. apply Hsame; [reflexivity|]. intros e'. simpl.
    rewrite elem_of_app, list_elem_of_singleton. split; [intros [?| ->]; auto | auto].
  - exact Hsame.
Qed.

(** ** Snapshot backfill *)

Lemma dayStart_eq now i : dayStart now i = startOfDay now - i * 86400000.
Proof.
  unfold dayStart, startOfDay, addDays, DAY_MS.
  change (24 * 60 * 60 * 1000) with 86400000.
  replace (now + - i * 86400000) with (now + (- i) * 86400000) by lia.
  rewrite Z_mod_plus_full. lia.
Qed.

Lemma backfillDailyTransactionDay_run env now i s :
  (forall t, db_fails env t = false) ->
  exists d,
    backfillDailyTransactionDay env now i s =
      (Ret tt, set_locals incr_snapshotsCreated
                 (set_dailyTransactions (dailyTransactions s ++ [d])
                    (record ReqDb (record ReqDb s)))) /\
    dateAndCount d = dailyCountOf now (addressActivity s) i.
Proof.
  intros Hok. eexists. split.
  - unfold backfillDailyTransactionDay, bind, AddressActivity_count,
      DailyTransactions_insert, bind, mongo, call, gets, dateNow, modify, setLocals.
    rewrite !Hok. reflexivity.
  - reflexivity.
Qed.

Lemma backfillWeeklyActiveAddressDay_run env now i s :
  (forall t, db_fails env t = false) ->
  exists d,
    backfillWeeklyActiveAddressDay env now i s =
      (Ret tt, set_locals incr_snapshotsCreated
                 (set_weeklyActiveAddresses (weeklyActiveAddresses s ++ [d])
                    (record ReqDb (record ReqDb s)))) /\
    dateAndCount d = weeklyCountOf now (addressActivity s) i.
Proof.
  intros Hok. eexists. split.
  - unfold backfillWeeklyActiveAddressDay, bind, AddressActivity_uniqueAddresses,
      WeeklyActiveAddresses_insert, bind, mongo, call, gets, dateNow, modify, setLocals.
    rewrite !Hok. reflexivity.
  - reflexivity.
Qed.

Lemma backfillDaily_loop env now l : forall s,
  (forall t, db_fails env t = false) ->
  exists s' added,
    forEach l (backfillDailyTransactionDay env now) s = (Ret tt, s') /\
    addressActivity s' = addressActivity s /\
    dailyTransactions s' = dailyTransactions s ++ added /\
    snapshotsCreated (locals s') = snapshotsCreated (locals s) + Z.of_nat (length l) /\
    dateAndCount <$> added = dailyCountOf now (addressActivity s) <$> l.
Proof.
  induction l as [|i l IH]; intros s Hok.
  - exists s, []. simpl. rewrite app_nil_r. repeat split; auto. lia.
  - destruct (backfillDailyTransactionDay_run env now i s Hok) as (d & Hrun & Hd).
    cbn [forEach]. unfold bind at 1. rewrite Hrun.
    match goal with
    | |- context [forEach l _ ?s1] =>
        destruct (IH s1 Hok) as (s' & added & Hloop & HA & HD & HL & Hmap)
    end.
    exists s', (d :: added). split; [exact Hloop|].
    rewrite HA, HD, HL. cbn. rewrite <- app_assoc, Hmap, Hd.
    repeat split; auto. lia.
Qed.

Lemma backfillWeekly_loop env now l : forall s,
  (forall t, db_fails env t = false) ->
  exists s' added,
    forEach l (backfillWeeklyActiveAddressDay env now) s = (Ret tt, s') /\
    addressActivity s' = addressActivity s /\
    weeklyActiveAddresses s' = weeklyActiveAddresses s ++ added /\
    snapshotsCreated (locals s') = snapshotsCreated (locals s) + Z.of_nat (length l) /\
    dateAndCount <$> added = weeklyCountOf now (addressActivity s) <$> l.
Proof.
  induction l as [|i l IH]; intros s Hok.
  - exists s, []. simpl. rewrite app_nil_r. repeat split; auto. lia.
  - destruct (backfillWeeklyActiveAddressDay_run env now i s Hok) as (d & Hrun & Hd).
    cbn [forEach]. unfold bind at 1. rewrite Hrun.
    match goal with
    | |- context [forEach l _ ?s1] =>
        destruct (IH s1 Hok) as (s' & added & Hloop & HA & HD & HL & Hmap)
    end.
    exists s', (d :: added). split; [exact Hloop|].
    rewrite HA, HD, HL. cbn. rewrite <- app_assoc, Hmap, Hd.
    repeat split; auto. lia.
Qed.

Lemma snapshots_of_days (f : Z -> Z * Z) (added : list Snapshot) (l : list Z) :
  dateAndCount <$> added = f <$> l ->
  length added = length l /\
  (forall d, d ∈ added -> exists i, i ∈ l /\ dateAndCount d = f i) /\
  date <$> added = (fun i => fst (f i)) <$> l.
Proof.
  intros Hmap. split; [|split].
  - apply (f_equal length) in Hmap. now rewrite !length_fmap in Hmap.
  - intros d Hd.
    assert (Hin : dateAndCount d ∈ f <$> l)
      by (rewrite <- Hmap; apply list_elem_of_fmap; eauto).
    apply list_elem_of_fmap in Hin as (i & Hi & Hl). eauto.
  - apply (f_equal (fmap fst)) in Hmap.
    rewrite <- !list_fmap_compose in Hmap. exact Hmap.
Qed.

Lemma NoDup_dayStart now N : NoDup ((fun i => dayStart now i) <$> seqZ 0 N).
Proof.
  apply NoDup_fmap_2_strong; [|apply NoDup_seqZ].
  intros i j _ _ Hij. rewrite !dayStart_eq in Hij. lia.
Qed.




Lemma backfillDailyTransactionHistory_run env N s :
  0 <= N -> (forall t, db_fails env t = false) ->
  exists s' added,
    backfillDailyTransactionHistory env N s = (Ret N, s') /\
    dailyTransactions s' = dailyTransactions s ++ added /\
    dateAndCount <$> added =
      dailyCountOf (clock env (tick s)) (addressActivity s) <$> seqZ 0 N.
Proof.
  intros HN Hok.
  unfold backfillDailyTransactionHistory, tryCatch, bind at 1, dateNow.
  unfold bind at 1, setLocals, modify at 1.
  destruct (backfillDaily_loop env (clock env (tick s)) (seqZ 0 N)
              (set_locals (fun _ => noLocals) s) Hok)
    as (s' & added & Hloop & HA & HD & HL & Hmap).
  unfold bind. change (tick (set_locals _ s)) with (tick s) in *.
  rewrite Hloop. unfold gets. exists s', added. repeat split; auto.
  rewrite HL, length_seqZ. simpl. do 2 f_equal. lia.
Qed.

Lemma backfillWeeklyActiveAddressHistory_run env N s :
  0 <= N -> (forall t, db_fails env t = false) ->
  exists s' added,
    backfillWeeklyActiveAddressHistory env N s = (Ret N, s') /\
    weeklyActiveAddresses s' = weeklyActiveAddresses s ++ added /\
    dateAndCount <$> added =
      weeklyCountOf (clock env (tick s)) (addressActivity s) <$> seqZ 0 N.
Proof.
  intros HN Hok.
  unfold backfillWeeklyActiveAddressHistory, tryCatch, bind at 1, dateNow.
  unfold bind at 1, setLocals, modify at 1.
  destruct (backfillWeekly_loop env (clock env (tick s)) (seqZ 0 N)
              (set_locals (fun _ => noLocals) s) Hok)
    as (s' & added & Hloop & HA & HD & HL & Hmap).
  unfold bind. change (tick (set_locals _ s)) with (tick s) in *.
  rewrite Hloop. unfold gets. exists s', added. repeat split; auto.
  rewrite HL, length_seqZ. simpl. do 2 f_equal. lia.
Qed.


(** ** Failures and their propagation *)

Lemma neverThrows_ret {A : Type} (a : A) : neverThrows (ret a).
Proof. intros s. reflexivity. Qed.



Lemma neverThrows_bind {A B : Type} (m : M A) (k : A -> M B) :
  neverThrows m -> (forall a, neverThrows (k a)) -> neverThrows (bind m k).
Proof.
  intros Hm Hk s. unfold bind. specialize (Hm s).
  destruct (m s) as [[a|e] s1]; [apply Hk | discriminate].
Qed.

(** A [try] whose handler returns cannot throw. *)
Lemma neverThrows_tryCatch {A : Type} (m : M A) (h : error -> M A) :
  (forall e, neverThrows (h e)) -> neverThrows (tryCatch m h).
Proof.
  intros Hh s. unfold tryCatch.
  destruct (m s) as [[a|e] s1]; [reflexivity | apply Hh].
Qed.

Lemma neverThrows_forEach {A : Type} (l : list A) (body : A -> M unit) :
  (forall x, neverThrows (body x)) -> neverThrows (forEach l body).
Proof.
  intros Hbody. induction l as [|x l IH]; [apply neverThrows_ret|].
  simpl. apply neverThrows_bind; [apply Hbody | intros; apply IH].
Qed.






(** ** Deduplication by transaction hash *)

Lemma uniqueTxHash_stable : stable uniqueTxHash.
Proof. intros s s' [_ HB] Hs. unfold uniqueTxHash. now rewrite HB. Qed.

Lemma unseen_stable h : stable (unseen h).
Proof. intros s s' [_ HB] Hs. unfold unseen, uniqueTxHash. now rewrite HB. Qed.

Lemma unseen_insert h b s :
  txHash b = h -> unseen h s ->
  uniqueTxHash (set_bridgeActivity (bridgeActivity s ++ [b]) s).
Proof.
  intros Hb [Hu Hnew]. unfold uniqueTxHash. simpl. rewrite fmap_app.
  apply NoDup_app. split; [exact Hu|]. split.
  - intros x Hx Hx'. simpl in Hx'. apply list_elem_of_singleton in Hx'. congruence.
  - simpl. apply NoDup_singleton.
Qed.

Lemma findByTxHash_unseen h s :
  uniqueTxHash s -> findByTxHash h (bridgeActivity s) = None -> unseen h s.
Proof.
  intros Hu Hnone. split; [exact Hu|].
  intros (b & Hb & Hin)%list_elem_of_fmap.
  now apply (findByTxHash_None h _ b Hnone Hin).
Qed.

(** The guarded insert of the backfill keeps the hashes unique. *)
Lemma unique_guarded_insert env h (b : Z -> BridgeEvent)
    (amount : M Z) (count : Locals -> Locals) :
  (forall v, txHash (b v) = h) ->
  (forall I, stable I -> keeps I amount) ->
  keeps uniqueTxHash
    (tryCatch
       (let* existing := BridgeActivity_findOne env h in
        match existing with
        | Some _ => ret tt
        | None =>
            let* v := amount in
            let* _ := BridgeActivity_insert env (b v) in
            setLocals count
        end)
       (fun _ => ret tt)).
Proof.
  intros Hb Hamount. pose proof uniqueTxHash_stable as Hst.
  apply keeps_tryCatch; [|intros; apply keeps_ret].
  eapply hoare_bind with
    (R := fun existing s => uniqueTxHash s /\
                            existing = findByTxHash h (bridgeActivity s)).
  - unfold BridgeActivity_findOne.
    eapply hoare_bind; [now apply keeps_mongo|].
    intros u. now apply hoare_gets.
  - intros [existing|]; [apply hoare_ret; now intros s [Hs _]|].
    eapply hoare_weaken with
      (P' := unseen h) (Q' := fun _ => uniqueTxHash) (E' := uniqueTxHash); auto.
    2:{ intros s [Hs Hnone]. now apply findByTxHash_unseen. }
    assert (Hfresh : forall s, unseen h s -> uniqueTxHash s) by now intros s [].
    eapply advances_bind with (J := unseen h); auto.
    + apply advances_keeps; [apply Hamount, unseen_stable | auto].
    + intros v. eapply advances_bind with (J := uniqueTxHash); auto.
      * unfold BridgeActivity_insert.
        eapply advances_bind with (J := unseen h); auto.
        -- apply advances_keeps; [apply keeps_mongo, unseen_stable | auto].
        -- intros u. apply hoare_modify. intros s. now apply unseen_insert.
      * intros _. now apply keeps_setLocals.
Qed.

Lemma unique_backfillTransaction env i ts h :
  keeps uniqueTxHash (backfillTransaction env i ts h).
Proof.
  pose proof uniqueTxHash_stable as Hst.
  unfold backfillTransaction.
  apply keeps_tryCatch; [|intros; apply keeps_ret].
  apply keeps_bind; [now apply keeps_call|].
  intros [tx|]; [|apply keeps_ret].
  destruct (truthyString (tx_from tx)) as [sender|]; [|apply keeps_ret].
  apply keeps_bind.
  { apply keeps_tryCatch; [|intros; apply keeps_ret].
    apply keeps_bind; [|intros; now apply keeps_setLocals].
    apply keeps_AddressActivity_insert; [exact Hst|]. now intros s Hs. }
  intros _. apply keeps_bind.
  - destruct (isDeposit tx); [|apply keeps_ret].
    apply (unique_guarded_insert env h
             (fun v => depositEvent h sender tx v ts i)
             (fetchDepositAmount env h) incr_depositsFound); auto.
    intros I HI. now apply keeps_fetchDepositAmount.
  - intros _. destruct (isWithdrawal tx); [|apply keeps_ret].
    pose proof (unique_guarded_insert env h
             (fun _ => withdrawalEvent h sender tx ts i)
             (ret 0) incr_withdrawalsFound) as H.
    apply H; auto. intros; apply keeps_ret.
Qed.

(** The backfill writes a BridgeEvent only for a hash that is not persisted,
    so it keeps the hashes unique, however often a block range is replayed. *)
Lemma backfillBridgeActivity_keeps_txHash_unique env s :
  uniqueTxHash s -> uniqueTxHash (snd (backfillBridgeActivity env s)).
Proof.
  intros Hs. apply keeps_here; [|exact Hs].
  apply keeps_backfillBridgeActivity; [apply uniqueTxHash_stable|].
  intros i ts h _. apply unique_backfillTransaction.
Qed.

Lemma backfillBridgeActivity_replay_unique env1 env2 :
  uniqueTxHash
    (snd (backfillBridgeActivity env2 (snd (backfillBridgeActivity env1 emptyState)))).
Proof.
  do 2 apply backfillBridgeActivity_keeps_txHash_unique. apply NoDup_nil_2.
Qed.

(** * The scenarios of the specification *)

(** A price of 3200 that is two minutes past the TTL is returned when the
    upstream call fails; without any cached price the default is returned. *)
Example stale_price_is_served :
  fst (getEthPrice idleEnv staleCache) = Ret (3200 # 1) /\
  fst (getEthPrice idleEnv emptyState) = Ret (3000 # 1).
Proof. split; reflexivity. Qed.

(** Of the addresses active 8, 6 and 1 days ago the last two are counted. *)
Example rolling_window_counts_two :
  fst (calculateWeeklyActiveAddresses idleEnv weekOfActivity) = Ret 2.
Proof. vm_compute. reflexivity. Qed.

(** Backfilling 7 days with activity on 3 of them gives 7 snapshots, 4 of
    them with count 0. *)
Example zero_fill_seven_days :
  let r := backfillDailyTransactionHistory idleEnv 7 threeActiveDays in
  fst r = Ret 7 /\
  count <$> dailyTransactions (snd r) = [1; 0; 2; 0; 0; 1; 0].
Proof. vm_compute. split; reflexivity. Qed.

(** The deposit of block 100: one ActivityEvent for the lower-cased sender
    and one deposit BridgeEvent of 1e18 wei. *)
Example deposit_end_to_end :
  let s := snd (processNewBlocks depositScenario emptyState) in
  addressActivity s = [mkActivity "0xaaa" 1699999000000 100] /\
  (fun b => (txHash b, type b, value b)) <$> bridgeActivity s =
    [("tx100"%string, deposit, 1000000000000000000)].
Proof. vm_compute. split; reflexivity. Qed.

(** * Divergences and witnesses *)

(** C1 says that both scans write a BridgeEvent only when no BridgeEvent with
    the same hash is persisted, so that replaying a block range never leaves
    two BridgeEvents with one hash.  The backfill does so
    ([backfillBridgeActivity_keeps_txHash_unique]); the incremental scan does
    not, it inserts without looking the hash up.  From the empty store, one
    incremental scan of a block whose transaction has type 105, calls ArbSys
    and carries value persists two BridgeEvents with the same hash.  And when
    a backfill has persisted a deposit whose ActivityEvent insert was
    rejected, the incremental scan replays the block and persists the deposit
    a second time, where a second backfill does not. *)
Theorem processNewBlocks_repeats_persisted_txHash :
  txHash <$> bridgeActivity
     (snd (processNewBlocks (oneBlockChain depositToArbSysTx dbUp) emptyState)) =
    ["0xd1"; "0xd1"]%string /\
  (let env := oneBlockChain depositTx rejectActivityInsert in
   let backfilled := snd (backfillBridgeActivity env emptyState) in
   txHash <$> bridgeActivity backfilled = ["0xd1"]%string /\
   txHash <$> bridgeActivity (snd (processNewBlocks env backfilled)) =
     ["0xd1"; "0xd1"]%string /\
   type <$> bridgeActivity (snd (processNewBlocks env backfilled)) =
     [deposit; deposit] /\
   txHash <$> bridgeActivity (snd (backfillBridgeActivity env backfilled)) =
     ["0xd1"]%string).
Proof. vm_compute. repeat split. Qed.

(** Counterexample to C2 as stated: the transaction of type 105 that calls
    ArbSys with a positive value satisfies the deposit rule, and the
    incremental step still applies the withdrawal rule to it and emits both
    BridgeEvents. *)
Lemma deposit_to_ArbSys_yields_both_events :
  isDeposit depositToArbSysTx = true /\
  type <$> bridgeActivity
     (snd (processTransaction (oneBlockChain depositToArbSysTx dbUp)
             1 1700000000000 "0xd1" emptyState)) =
    [deposit; withdrawal].
Proof. vm_compute. split; reflexivity. Qed.

(** Counterexample to C3 as stated: activity was last recorded in block 5,
    the scan attempts the empty blocks 6 and 7, and the next scan starts at
    block 6 again, not at block 8. *)
Lemma empty_blocks_leave_resume_point :
  let scan := processNewBlocks quietChain recordedUpTo5 in
  fst scan = Ret 2 /\
  trace (snd scan) = [ReqBlockNumber; ReqDb; ReqBlock 6; ReqBlock 7] /\
  startBlockOf (lastByBlockNumber (addressActivity (snd scan))) 7 = 6 /\
  startBlockOf (lastByBlockNumber (addressActivity (snd scan))) 7 <> 7 + 1.
Proof. vm_compute. repeat split. discriminate. Qed.

Lemma chainEnv_listed now head blocks txs dbFails i h :
  listed (chainEnv now head blocks txs dbFails) i h ->
  exists k block, In (k, block) blocks /\ h ∈ transactions block.
Proof.
  intros (t & block & Hblock & Hh). simpl in Hblock.
  destruct (List.find _ blocks) as [[k b]|] eqn:Hfind; [|discriminate].
  injection Hblock as ->. apply find_some in Hfind as [Hin _]. eauto.
Qed.

Lemma quietChain_lists_nothing i h : ~ listed quietChain i h.
Proof.
  intros (k & block & Hin & Hh)%chainEnv_listed.
  simpl in Hin. destruct Hin as [[= _ <-]|[[= _ <-]|[]]]; inversion Hh.
Qed.


Lemma getEthPrice_fallback_witness :
  truthyNumber (price (ethPriceCache staleCache)) = Some (3200 # 1) /\
  300000 <= clock idleEnv (tick staleCache) - cache_timestamp (ethPriceCache staleCache) /\
  upstreamPrice (http_price idleEnv (tick staleCache)) = None /\
  fst (getEthPrice idleEnv staleCache) = Ret (3200 # 1).
Proof.
  assert (Hcached : truthyNumber (price (ethPriceCache staleCache)) = Some (3200 # 1))
    by reflexivity.
  assert (Hold : 300000 <= clock idleEnv (tick staleCache)
                           - cache_timestamp (ethPriceCache staleCache))
    by (vm_compute; discriminate).
  assert (Hup : upstreamPrice (http_price idleEnv (tick staleCache)) = None)
    by reflexivity.
  split; [exact Hcached|]. split; [exact Hold|]. split; [exact Hup|].
  destruct (getEthPrice_fallback_chain idleEnv staleCache)
    as (p & s' & Hrun & _ & Hchain).
  destruct (Hchain (or_intror Hold)) as (_ & _ & Hstale & _).
  rewrite Hrun. simpl. f_equal. now apply Hstale.
Defined.

Lemma getEthPrice_cache_witness :
  truthyNumber (price (ethPriceCache emptyState)) = None /\
  upstreamPrice (http_price idleEnv (tick emptyState)) = None /\
  fst (getEthPrice idleEnv emptyState) = Ret (3000 # 1) /\
  ethPriceCache (snd (getEthPrice idleEnv emptyState)) = ethPriceCache emptyState.
Proof.
  assert (Hempty : truthyNumber (price (ethPriceCache emptyState)) = None) by reflexivity.
  assert (Hup : upstreamPrice (http_price idleEnv (tick emptyState)) = None) by reflexivity.
  split; [exact Hempty|]. split; [exact Hup|].
  destruct (getEthPrice_cache_written_only_on_success idleEnv emptyState)
    as (_ & Hdefault).
  destruct (Hdefault Hempty Hup) as (Hprice & Hcache & _).
  split; [exact Hprice | exact Hcache].
Defined.

Lemma weekly_active_count_witness :
  db_fails idleEnv (tick weekOfActivity) = false /\
  fst (calculateWeeklyActiveAddresses idleEnv weekOfActivity) =
    Ret (Z.of_nat (size (distinctActiveAddresses NOW (addressActivity weekOfActivity)))) /\
  (carol ∈ distinctActiveAddresses NOW (addressActivity weekOfActivity)) /\
  (bob ∉ distinctActiveAddresses NOW (addressActivity weekOfActivity)).
Proof.
  assert (Hok : db_fails idleEnv (tick weekOfActivity) = false) by reflexivity.
  destruct (weekly_active_count_is_distinct_cardinality idleEnv weekOfActivity Hok)
    as (Hcount & Hmem & _).
  split; [exact Hok|]. split; [exact Hcount|]. split.
  - apply Hmem. split.
    { apply (bool_decide_eq_false_1 (carol ∈ SYSTEM_ADDRESSES)).
      vm_compute. reflexivity. }
    exists (mkActivity carol (NOW - 6 * DAY_MS) 20).
    split; [right; left|]. split; [reflexivity | vm_compute; discriminate].
  - intros Hbob. apply Hmem in Hbob as (_ & e & He & Haddr & Hts).
    unfold weekOfActivity in He. cbn [addressActivity set_addressActivity] in He.
    repeat (apply elem_of_cons in He as [->|He]);
      try discriminate Haddr; try (vm_compute in Hts; now apply Hts); inversion He.
Defined.


(** Counterexample to C8 as stated, in the backfill: when MongoDB rejects
    the insert of the ActivityEvent, the rejection is swallowed and the
    deposit BridgeEvent of the same transaction is persisted on its own. *)
Lemma backfill_bridge_event_without_activity :
  let s := snd (backfillBridgeActivity (oneBlockChain depositTx rejectActivityInsert)
                  emptyState) in
  addressActivity s = [] /\
  txHash <$> bridgeActivity s = ["0xd1"]%string /\
  ~ accompanied None emptyState s.
Proof.
  cbv zeta. split; [now vm_compute|]. split; [now vm_compute|].
  intros (A & B & HA & HB & Hpartner & _).
  assert (HAnil : A = []) by (vm_compute in HA; now symmetry).
  assert (HBone : exists b, B = [b]) by (vm_compute in HB; eauto).
  destruct HBone as [b ->]. subst A.
  destruct (Hpartner b) as (a & Ha & _); [left | inversion Ha].
Qed.

Lemma bridge_events_witness :
  (forall tx, rpc_getTransaction (oneBlockChain anonymousTx dbUp) (tick emptyState) "0xd1"
              = Ret (Some tx) -> truthyString (tx_from tx) = None) /\
  sameEvents emptyState
    (snd (backfillTransaction (oneBlockChain anonymousTx dbUp) 1 1700000000000 "0xd1"
            emptyState)) /\
  (forall t, db_fails (oneBlockChain depositTx dbUp) t = false) /\
  accompanied None emptyState
    (snd (backfillBridgeActivity (oneBlockChain depositTx dbUp) emptyState)).
Proof.
  assert (Hanon : forall tx,
            rpc_getTransaction (oneBlockChain anonymousTx dbUp) (tick emptyState) "0xd1"
            = Ret (Some tx) -> truthyString (tx_from tx) = None)
    by (intros tx [= <-]; reflexivity).
  assert (Hok : forall t, db_fails (oneBlockChain depositTx dbUp) t = false)
    by reflexivity.
  split; [exact Hanon|]. split; [|split; [exact Hok|]].
  - destruct (bridge_events_follow_activity (oneBlockChain anonymousTx dbUp) emptyState)
      as (Hfrom & _).
    now destruct (Hfrom 1 1700000000000 "0xd1"%string Hanon).
  - destruct (bridge_events_follow_activity (oneBlockChain depositTx dbUp) emptyState)
      as (_ & _ & _ & Hrun).
    exact (Hrun Hok).
Defined.

(** * Further properties of the code *)

(** ** The deposit amount lookup *)

Lemma findDepositTransfer_first before transfer after :
  Forall (fun item => exists sender, itx_from item = Some sender /\ sender <> ZERO_ADDRESS)
         before ->
  itx_from transfer = Some ZERO_ADDRESS ->
  findDepositTransfer (before ++ transfer :: after) = Ret (Some transfer).
Proof.
  intros Hbefore Hzero. induction Hbefore as [|item before (sender & Hfrom & Hne) _ IH];
    simpl.
  - rewrite Hzero. now rewrite String.eqb_refl.
  - rewrite Hfrom. apply String.eqb_neq in Hne. now rewrite Hne.
Qed.

Lemma findDepositTransfer_broken before broken after :
  Forall (fun item => exists sender, itx_from item = Some sender /\ sender <> ZERO_ADDRESS)
         before ->
  itx_from broken = None ->
  findDepositTransfer (before ++ broken :: after) = Throw ErrType.
Proof.
  intros Hbefore Hnull. induction Hbefore as [|item before (sender & Hfrom & Hne) _ IH];
    simpl.
  - now rewrite Hnull.
  - rewrite Hfrom. apply String.eqb_neq in Hne. now rewrite Hne.
Qed.

Lemma fetchDepositAmount_items env h s response items :
  http_internalTxs env (tick s) h = Ret response ->
  ok response = true ->
  json response = Ret (Some items) ->
  fst (fetchDepositAmount env h s) =
    Ret (match findDepositTransfer items with
         | Ret (Some {| itx_value := Some v |}) => v
         | _ => 0
         end).
Proof.
  intros Hresponse Hok Hjson.
  unfold fetchDepositAmount, tryCatch, bind, call, lift, ret.
  rewrite Hresponse, Hok, Hjson. simpl.
  destruct items as [|item items]; [reflexivity|].
  destruct (findDepositTransfer (item :: items)) as [[[sender [v|]]|]|e]; reflexivity.
Qed.

(** X1.  [fetchDepositAmount] never throws and makes exactly one request.
    When the explorer answers with a 2xx status and a list of internal
    transfers, the amount is the value of the first transfer whose sender is
    the zero address, whatever follows it; a transfer with a null sender in
    front of it makes the amount 0, and so do a failed request and a non-2xx
    status. *)
Theorem fetchDepositAmount_first_zero_address_transfer
    (env : Env) (h : string) (s : State) :
  (exists amount,
      fetchDepositAmount env h s = (Ret amount, record (ReqInternalTxs h) s)) /\
  (forall response before transfer after v,
      http_internalTxs env (tick s) h = Ret response ->
      ok response = true ->
      json response = Ret (Some (before ++ transfer :: after)) ->
      Forall (fun item => exists sender,
                itx_from item = Some sender /\ sender <> ZERO_ADDRESS) before ->
      itx_from transfer = Some ZERO_ADDRESS ->
      itx_value transfer = Some v ->
      fst (fetchDepositAmount env h s) = Ret v) /\
  (forall response before broken after,
      http_internalTxs env (tick s) h = Ret response ->
      ok response = true ->
      json response = Ret (Some (before ++ broken :: after)) ->
      Forall (fun item => exists sender,
                itx_from item = Some sender /\ sender <> ZERO_ADDRESS) before ->
      itx_from broken = None ->
      fst (fetchDepositAmount env h s) = Ret 0) /\
  (forall response,
      http_internalTxs env (tick s) h = Ret response ->
      ok response = false ->
      fst (fetchDepositAmount env h s) = Ret 0) /\
  (forall e,
      http_internalTxs env (tick s) h = Throw e ->
      fst (fetchDepositAmount env h s) = Ret 0).
Proof.
  split; [apply fetchDepositAmount_run|]. split; [|split; [|split]].
  - intros response before transfer after v Hresponse Hok Hjson Hbefore Hzero Hvalue.
    rewrite (fetchDepositAmount_items _ _ _ _ _ Hresponse Hok Hjson).
    rewrite (findDepositTransfer_first _ _ _ Hbefore Hzero).
    destruct transfer as [sender value0]. simpl in Hvalue. now rewrite Hvalue.
  - intros response before broken after Hresponse Hok Hjson Hbefore Hnull.
    rewrite (fetchDepositAmount_items _ _ _ _ _ Hresponse Hok Hjson).
    now rewrite (findDepositTransfer_broken _ _ _ Hbefore Hnull).
  - intros response Hresponse Hok.
    unfold fetchDepositAmount, tryCatch, bind, call, lift, ret.
    now rewrite Hresponse, Hok.
  - intros e Hresponse.
    unfold fetchDepositAmount, tryCatch, bind, call, lift, ret.
    now rewrite Hresponse.
Qed.

(** ** The deposit amount backfill *)

(** Each deposit is counted once, as updated or as an error. *)
Lemma backfillDepositAmount_counts env d s :
  exists s', backfillDepositAmount env d s = (Ret tt, s') /\
    ((updated (locals s') = updated (locals s) + 1 /\
      errors (locals s') = errors (locals s)) \/
     (updated (locals s') = updated (locals s) /\
      errors (locals s') = errors (locals s) + 1)).
Proof.
  destruct (fetchDepositAmount_run env (txHash (snd d)) s) as [amount Hrun].
  unfold backfillDepositAmount, tryCatch, bind at 1. rewrite Hrun.
  destruct (0 <? amount).
  - unfold BridgeActivity_setValue, bind, mongo, call.
    destruct (db_fails env (tick (record _ s))); eexists; (split; [reflexivity|]);
      simpl; [right | left]; split; reflexivity.
  - eexists. split; [reflexivity|]. right. split; reflexivity.
Qed.

Lemma backfillDepositAmounts_loop env l : forall s,
  exists s', forEach l (backfillDepositAmount env) s = (Ret tt, s') /\
    updated (locals s') + errors (locals s') =
      updated (locals s) + errors (locals s) + Z.of_nat (length l) /\
    updated (locals s) <= updated (locals s') /\
    errors (locals s) <= errors (locals s').
Proof.
  induction l as [|d l IH]; intros s.
  - exists s. simpl. split; [reflexivity | lia].
  - destruct (backfillDepositAmount_counts env d s) as (s1 & Hd & Hcount).
    destruct (IH s1) as (s2 & Hl & Hsum & Hu & He).
    exists s2. cbn [forEach]. unfold bind. rewrite Hd. split; [exact Hl|].
    rewrite length_cons. lia.
Qed.

(** X2.  When MongoDB answers the query for the deposits without amount,
    [backfillDepositAmounts] returns, and its two counters add up to the
    number of deposits found: every deposit is counted exactly once, as
    updated or as an error, also when the explorer or a later update
    fails.  [total] is that number, and is absent when nothing was found. *)
Theorem backfillDepositAmounts_counts_every_deposit (env : Env) (s : State) :
  db_fails env (tick s) = false ->
  exists result,
    fst (backfillDepositAmounts env s) = Ret result /\
    res_updated result + res_errors result =
      Z.of_nat (length (zeroDeposits (bridgeActivity s))) /\
    0 <= res_updated result /\ 0 <= res_errors result /\
    total result =
      match zeroDeposits (bridgeActivity s) with
      | [] => None
      | found => Some (Z.of_nat (length found))
      end.
Proof.
  intros Hok.
  unfold backfillDepositAmounts, tryCatch, bind at 1, BridgeActivity_findZeroDeposits,
    bind at 1, mongo, call, gets.
  rewrite Hok. cbn [bridgeActivity record].
  destruct (zeroDeposits (bridgeActivity s)) as [|d ds] eqn:Hfound.
  - eexists. split; [reflexivity|]. simpl. repeat split; lia.
  - unfold bind at 1, setLocals, modify.
    destruct (backfillDepositAmounts_loop env (d :: ds)
                (set_locals (fun _ => noLocals) (record ReqDb s)))
      as (s1 & Hloop & Hsum & Hu & He).
    unfold bind at 1. rewrite Hloop. unfold bind, gets, ret.
    eexists. split; [reflexivity|]. simpl in Hsum, Hu, He |- *.
    repeat split; try lia. 
Qed.

Lemma backfillDepositAmounts_counts_witness :
  exists result,
    fst (backfillDepositAmounts depositScenario pendingDeposits) = Ret result /\
    res_updated result + res_errors result = 1.
Proof.
  destruct (backfillDepositAmounts_counts_every_deposit depositScenario pendingDeposits)
    as (result & Hrun & Hsum & _); [reflexivity|].
  exists result. split; [exact Hrun | exact Hsum].
Defined.

Lemma amountsFilled_stable s0 : stable (amountsFilled s0).
Proof. intros s s' [_ Hb] H. unfold amountsFilled. now rewrite Hb. Qed.

Lemma amountsFilled_refl s : amountsFilled s s.
Proof. split; [reflexivity|]. intros i b Hb. exists b. auto. Qed.

Lemma elem_of_zeroDeposits l i b :
  (i, b) ∈ zeroDeposits l -> l !! i = Some b /\ type b = deposit /\ value b = 0.
Proof.
  unfold zeroDeposits. rewrite list_elem_of_filter. intros [[Htype Hvalue] Hin].
  apply elem_of_lookup_imap in Hin as (j & y & Heq & Hj). inversion Heq; subst.
  auto.
Qed.

(** Setting the value of a deposit that was found without amount. *)
Lemma keeps_setValue env s0 i b v :
  bridgeActivity s0 !! i = Some b -> type b = deposit -> value b = 0 -> 0 < v ->
  keeps (amountsFilled s0) (BridgeActivity_setValue env i v).
Proof.
  intros Hi Htype Hvalue Hv.
  apply keeps_bind; [apply keeps_mongo, amountsFilled_stable|]. intros u.
  apply hoare_modify. intros s [Hlen Hs]. split.
  - cbn. now rewrite length_alter.
  - intros j c Hj. cbn. destruct (decide (i = j)) as [<-|Hne].
    + rewrite list_lookup_alter_eq. destruct (Hs i c Hj) as (c' & Hc' & Hcase).
      rewrite Hc'. simpl. eexists. split; [reflexivity|].
      assert (c = b) as -> by congruence.
      right. split; [exact Htype|]. split; [exact Hvalue|]. exists v. split; [exact Hv|].
      destruct Hcase as [->|(_ & _ & w & _ & ->)]; reflexivity.
    + rewrite list_lookup_alter_ne by exact Hne. apply Hs, Hj.
Qed.

Lemma keeps_backfillDepositAmount env s0 d :
  d ∈ zeroDeposits (bridgeActivity s0) ->
  keeps (amountsFilled s0) (backfillDepositAmount env d).
Proof.
  destruct d as [i b]. intros Hd. apply elem_of_zeroDeposits in Hd as (Hi & Htype & Hvalue).
  pose proof (amountsFilled_stable s0) as Hstable.
  apply keeps_tryCatch; [|intros; now apply keeps_setLocals].
  apply keeps_bind; [now apply keeps_fetchDepositAmount|]. intros amount.
  destruct (0 <? amount) eqn:Hpos; [|now apply keeps_setLocals].
  apply Z.ltb_lt in Hpos.
  apply keeps_bind; [now apply (keeps_setValue env s0 i b) | intros; now apply keeps_setLocals].
Qed.

Lemma amountsFilled_backfillDepositAmounts env s :
  amountsFilled s (snd (backfillDepositAmounts env s)).
Proof.
  pose proof (amountsFilled_stable s) as Hstable.
  assert (Hkeeps : hoare (fun x => x = s) (backfillDepositAmounts env)
                     (fun _ => amountsFilled s) (amountsFilled s)).
  { unfold backfillDepositAmounts.
    eapply hoare_tryCatch with (E' := amountsFilled s); [|intros; apply keeps_throw].
    eapply hoare_bind
      with (R := fun found x => amountsFilled s x /\ found = zeroDeposits (bridgeActivity s)).
    - unfold BridgeActivity_findZeroDeposits.
      eapply hoare_bind with (R := fun _ x => x = record ReqDb s).
      + apply hoare_call; intros x; intros; subst; [reflexivity|].
        apply (Hstable s); [apply sameEvents_record | apply amountsFilled_refl].
      + intros u. apply hoare_gets. intros x ->. split; [|reflexivity].
        apply (Hstable s); [apply sameEvents_record | apply amountsFilled_refl].
    - intros found. apply hoare_pure. intros ->.
      destruct (zeroDeposits (bridgeActivity s)) as [|d ds] eqn:Hfound; [apply keeps_ret|].
      apply keeps_bind; [now apply keeps_setLocals|]. intros u.
      apply keeps_bind; [|intros; apply keeps_bind; [apply keeps_gets | intros; apply keeps_ret]].
      apply keeps_forEach. intros x Hx. apply keeps_backfillDepositAmount.
      now rewrite Hfound. }
  specialize (Hkeeps s eq_refl).
  now destruct (backfillDepositAmounts env s) as [[r|e] s1].
Qed.

(** ** What an operation leaves alone *)

Lemma keeps_request {A : Type} (I : State -> Prop) r (answer : nat -> outcome A) :
  (forall s, I s -> I (record r s)) -> keeps I (call r answer).
Proof. intros HI. apply hoare_call; auto. Qed.

Lemma keeps_modify (I : State -> Prop) (f : State -> State) :
  (forall s, I s -> I (f s)) -> keeps I (modify f).
Proof. intros HI. now apply hoare_modify. Qed.

(** One step through the structure of a computation; requests and updates
    are left to the closure properties of the invariant at hand. *)
Ltac frame_step :=
  lazymatch goal with
  | |- keeps _ (ret _) => apply keeps_ret
  | |- keeps _ (throw _) => apply keeps_throw
  | |- keeps _ (gets _) => apply keeps_gets
  | |- keeps _ (lift _) => apply keeps_lift
  | |- keeps _ (dateNow _) => apply keeps_dateNow
  | |- keeps _ (getProvider _) => apply keeps_getProvider
  | |- keeps _ (bind _ _) => apply keeps_bind; [|intros ?]
  | |- keeps _ (tryCatch _ _) => apply keeps_tryCatch; [|intros ?]
  | |- keeps _ (forEach _ _) => apply keeps_forEach; intros ? _
  | |- keeps _ (call _ _) => apply keeps_request; intros ? ?; cbv beta; solve [auto]
  | |- keeps _ (modify _) => apply keeps_modify; intros ? ?; cbv beta; solve [auto]
  | |- keeps _ (match ?x with _ => _ end) => destruct x
  end.

Ltac frame :=
  repeat first
    [ frame_step
    | progress cbv zeta
    | progress unfold processNewBlocks, processBlock, processTransaction, getBlock,
        backfillBridgeActivity, backfillRange, backfillBlock, backfillTransaction,
        backfillDepositAmounts, backfillDepositAmount, fetchDepositAmount, blockDate,
        provider_getBlockNumber, provider_getBlock, provider_getTransaction,
        provider_getTransactionReceipt, mongo, setLocals,
        AddressActivity_insert, AddressActivity_findLast, AddressActivity_count,
        AddressActivity_uniqueAddresses, BridgeActivity_insert, BridgeActivity_findOne,
        BridgeActivity_findZeroDeposits, BridgeActivity_setValue,
        DailyTransactions_insert, WeeklyActiveAddresses_insert,
        calculateDailyTransactions, calculateWeeklyActiveAddresses,
        backfillDailyTransactionHistory, backfillDailyTransactionDay,
        backfillWeeklyActiveAddressHistory, backfillWeeklyActiveAddressDay,
        getDailyTransactionsHistory, getWeeklyActiveAddressesHistory, aggregateHistory,
        getWeeklyActiveAddressDetails, getTodayTransactions, updateDailyTransactionCount,
        getWeeklyActiveAddresses, updateWeeklyActiveAddresses,
        DailyTransactions_findLatestOf, WeeklyActiveAddresses_findLatest,
        getBlockNumber, getEthPrice ].

(** An invariant that no request, no counter and no change of the event
    collections can break holds throughout ingestion. *)
Section IngestionFrame.

Variable env : Env.
Variable I : State -> Prop.
Hypothesis I_record : forall r s, I s -> I (record r s).
Hypothesis I_locals : forall f s, I s -> I (set_locals f s).
Hypothesis I_activity : forall l s, I s -> I (set_addressActivity l s).
Hypothesis I_bridge : forall l s, I s -> I (set_bridgeActivity l s).

Lemma frame_processNewBlocks : keeps I (processNewBlocks env).
Proof. frame. Qed.

Lemma frame_backfillBridgeActivity : keeps I (backfillBridgeActivity env).
Proof. frame. Qed.

Lemma frame_backfillDepositAmounts : keeps I (backfillDepositAmounts env).
Proof. frame. Qed.

End IngestionFrame.

(** An invariant that no request, no counter and no change of the snapshot
    collections can break holds throughout aggregation and reporting. *)
Section AggregationFrame.

Variable env : Env.
Variable I : State -> Prop.
Hypothesis I_record : forall r s, I s -> I (record r s).
Hypothesis I_locals : forall f s, I s -> I (set_locals f s).
Hypothesis I_daily : forall d s,
  I s -> I (set_dailyTransactions (dailyTransactions s ++ [d]) s).
Hypothesis I_weekly : forall d s,
  I s -> I (set_weeklyActiveAddresses (weeklyActiveAddresses s ++ [d]) s).

Lemma frame_calculateDailyTransactions : keeps I (calculateDailyTransactions env).
Proof. frame. Qed.

Lemma frame_calculateWeeklyActiveAddresses : keeps I (calculateWeeklyActiveAddresses env).
Proof. frame. Qed.

Lemma frame_getTodayTransactions : keeps I (getTodayTransactions env).
Proof. frame. Qed.

Lemma frame_updateDailyTransactionCount : keeps I (updateDailyTransactionCount env).
Proof. frame. Qed.

Lemma frame_getWeeklyActiveAddresses : keeps I (getWeeklyActiveAddresses env).
Proof. frame. Qed.

Lemma frame_getWeeklyActiveAddressDetails : keeps I (getWeeklyActiveAddressDetails env).
Proof. frame. Qed.

Lemma frame_getDailyTransactionsHistory days :
  keeps I (getDailyTransactionsHistory env days).
Proof. frame. Qed.

Lemma frame_getWeeklyActiveAddressesHistory days :
  keeps I (getWeeklyActiveAddressesHistory env days).
Proof. frame. Qed.

Lemma frame_backfillDailyTransactionHistory days :
  keeps I (backfillDailyTransactionHistory env days).
Proof. frame. Qed.

Lemma frame_backfillWeeklyActiveAddressHistory days :
  keeps I (backfillWeeklyActiveAddressHistory env days).
Proof. frame. Qed.

End AggregationFrame.

(** X3.  [backfillDepositAmounts] rewrites nothing but the amounts it was
    run for: the bridge collection keeps its length and its order, a stored
    event either stays as it is or is a deposit whose value was 0 and is now
    positive (every other field unchanged), and the ActivityEvents, the
    snapshots and the price cache are left alone. *)
Theorem backfillDepositAmounts_fills_only_zero_deposits (env : Env) (s : State) :
  amountsFilled s (snd (backfillDepositAmounts env s)) /\
  addressActivity (snd (backfillDepositAmounts env s)) = addressActivity s /\
  sameSnapshots s (snd (backfillDepositAmounts env s)).
Proof.
  split; [apply amountsFilled_backfillDepositAmounts|].
  apply (keeps_here (fun x => addressActivity x = addressActivity s /\ sameSnapshots s x)).
  - apply frame_backfillDepositAmounts; intros; assumption.
  - repeat split.
Qed.

Lemma appends_anything_processNewBlocks env s0 :
  keeps (appends (fun _ => True) (fun _ => True) s0) (processNewBlocks env).
Proof.
  apply keeps_processNewBlocks; [apply appends_stable|].
  intros i ts h _. now apply appends_processTransaction.
Qed.

Lemma appends_anything_backfillBridgeActivity env s0 :
  keeps (appends (fun _ => True) (fun _ => True) s0) (backfillBridgeActivity env).
Proof.
  apply keeps_backfillBridgeActivity; [apply appends_stable|].
  intros i ts h _. now apply appends_backfillTransaction.
Qed.

Lemma sameSnapshots_processNewBlocks env s0 :
  keeps (sameSnapshots s0) (processNewBlocks env).
Proof. apply frame_processNewBlocks; intros; assumption. Qed.

(** X4.  Ingestion only appends events.  [processNewBlocks] and
    [backfillBridgeActivity] keep every stored ActivityEvent and BridgeEvent
    in place and unchanged, add new ones at the end, and never touch the
    daily snapshots, the weekly snapshots or the cached price, whatever
    the chain, the explorer and MongoDB answer. *)
Theorem ingestion_only_appends_events (env : Env) (s : State) :
  (appends (fun _ => True) (fun _ => True) s (snd (processNewBlocks env s)) /\
   sameSnapshots s (snd (processNewBlocks env s))) /\
  (appends (fun _ => True) (fun _ => True) s (snd (backfillBridgeActivity env s)) /\
   sameSnapshots s (snd (backfillBridgeActivity env s))).
Proof.
  repeat split.
  - apply keeps_here; [apply appends_anything_processNewBlocks | apply appends_refl].
  - apply (keeps_here (fun x => dailyTransactions x = dailyTransactions s));
      [apply frame_processNewBlocks; intros; assumption | reflexivity].
  - apply (keeps_here (fun x => weeklyActiveAddresses x = weeklyActiveAddresses s));
      [apply frame_processNewBlocks; intros; assumption | reflexivity].
  - apply (keeps_here (fun x => ethPriceCache x = ethPriceCache s));
      [apply frame_processNewBlocks; intros; assumption | reflexivity].
  - apply keeps_here; [apply appends_anything_backfillBridgeActivity | apply appends_refl].
  - apply (keeps_here (fun x => dailyTransactions x = dailyTransactions s));
      [apply frame_backfillBridgeActivity; intros; assumption | reflexivity].
  - apply (keeps_here (fun x => weeklyActiveAddresses x = weeklyActiveAddresses s));
      [apply frame_backfillBridgeActivity; intros; assumption | reflexivity].
  - apply (keeps_here (fun x => ethPriceCache x = ethPriceCache s));
      [apply frame_backfillBridgeActivity; intros; assumption | reflexivity].
Qed.

Lemma readOnly_intro {A : Type} (m : M A) :
  (forall I : State -> Prop, (forall r s, I s -> I (record r s)) -> keeps I m) ->
  readOnly m.
Proof.
  intros Hm s.
  apply (keeps_here (fun x => sameEvents s x /\ sameSnapshots s x) m s).
  - apply Hm. intros r x Hx. exact Hx.
  - repeat split.
Qed.

(** X5.  The aggregations and the reports only read.  The two counts, the
    two histories and the address details change no collection and no cached
    price: all they leave behind is the log of their requests. *)
Theorem aggregations_and_reports_are_read_only (env : Env) (days : Z) :
  readOnly (calculateDailyTransactions env) /\
  readOnly (calculateWeeklyActiveAddresses env) /\
  readOnly (getDailyTransactionsHistory env days) /\
  readOnly (getWeeklyActiveAddressesHistory env days) /\
  readOnly (getWeeklyActiveAddressDetails env).
Proof.
  split; [|split; [|split; [|split]]]; apply readOnly_intro; intros I HI.
  - now apply frame_calculateDailyTransactions.
  - now apply frame_calculateWeeklyActiveAddresses.
  - now apply frame_getDailyTransactionsHistory.
  - now apply frame_getWeeklyActiveAddressesHistory.
  - now apply frame_getWeeklyActiveAddressDetails.
Qed.

(** ** The daily report *)

Lemma newerSnapshot_fold l : forall best,
  match fold_left newerSnapshot l best with
  | Some d =>
      (Some d = best \/ d ∈ l) /\
      (forall b, best = Some b -> snap_timestamp b <= snap_timestamp d) /\
      (forall d', d' ∈ l -> snap_timestamp d' <= snap_timestamp d)
  | None => best = None /\ l = []
  end.
Proof.
  induction l as [|x l IH]; intros best; cbn [fold_left].
  - destruct best as [b|]; [|now split].
    split; [now left|]. split; [intros ? [= <-]; lia | intros d' Hd'; inversion Hd'].
  - specialize (IH (newerSnapshot best x)).
    destruct (fold_left newerSnapshot l (newerSnapshot best x)) as [d|].
    + destruct IH as (Hfrom & Hbest & Hrest).
      assert (Hx : snap_timestamp x <= snap_timestamp d /\
                   (forall b, best = Some b -> snap_timestamp b <= snap_timestamp d) /\
                   (Some d = best \/ d = x \/ d ∈ l)).
      { unfold newerSnapshot in Hfrom, Hbest. destruct best as [b|].
        - destruct (snap_timestamp b <? snap_timestamp x) eqn:Hlt.
          + apply Z.ltb_lt in Hlt. specialize (Hbest x eq_refl).
            split; [lia|]. split; [intros ? [= <-]; lia|].
            destruct Hfrom as [[= ->]|Hin]; auto.
          + apply Z.ltb_ge in Hlt. specialize (Hbest b eq_refl).
            split; [lia|]. split; [intros ? [= <-]; lia|].
            destruct Hfrom as [Heq|Hin]; auto.
        - specialize (Hbest x eq_refl). split; [lia|]. split; [discriminate|].
          destruct Hfrom as [[= ->]|Hin]; auto. }
      destruct Hx as (Hx & Hb & Hwhere). split.
      * destruct Hwhere as [?|[->|?]]; [now left | right; left | right; now right].
      * split; [exact Hb|]. intros d' Hd'. apply elem_of_cons in Hd' as [->|Hd']; auto.
    + destruct IH as [Hnone _]. unfold newerSnapshot in Hnone.
      destruct best as [b|]; [destruct (_ <? _)|]; discriminate.
Qed.

(** [latestSnapshot] finds a document with the greatest timestamp, and
    nothing in an empty collection only. *)
Lemma latestSnapshot_spec l :
  match latestSnapshot l with
  | Some d => d ∈ l /\ forall d', d' ∈ l -> snap_timestamp d' <= snap_timestamp d
  | None => l = []
  end.
Proof.
  pose proof (newerSnapshot_fold l None) as H. unfold latestSnapshot.
  destruct (fold_left newerSnapshot l None) as [d|].
  - destruct H as ([Hnone|Hin] & _ & Hmax); [discriminate | now split].
  - apply H.
Qed.

Lemma calculateDailyTransactions_run env s :
  calculateDailyTransactions env s =
    (Ret (if db_fails env (tick s) then 0
          else countBetween (startOfDay (clock env (tick s)))
                 (addDays (startOfDay (clock env (tick s))) 1) (addressActivity s)),
     record ReqDb s).
Proof.
  unfold calculateDailyTransactions, tryCatch, bind, dateNow, AddressActivity_count,
    bind, mongo, call, gets, ret.
  now destruct (db_fails env (tick s)).
Qed.

Lemma tick_S r s : tick (record r s) = S (tick s).
Proof. unfold tick. cbn. rewrite length_app. cbn. lia. Qed.

(** Ticks of a trace that was extended request by request. *)
Ltac ticks := unfold tick; rewrite ?length_app; cbn [length]; rewrite ?Nat.add_1_r.

Lemma getTodayTransactions_run env s :
  let t := tick s in
  let today := startOfDay (clock env t) in
  let n := if db_fails env t then 0
           else countBetween today (addDays today 1) (addressActivity s) in
  getTodayTransactions env s =
    if db_fails env (S t) then
      if db_fails env (S (S t)) then
        (Throw ErrDb, record ReqDb (record ReqDb (record ReqDb s)))
      else
        (Ret match latestSnapshot
                     (filter (fun d => date d = today) (dailyTransactions s)) with
             | Some d => recordOf d
             | None => mkKpiRecord today 0 None (clock env (S (S (S t))))
             end,
         record ReqDb (record ReqDb (record ReqDb s)))
    else
      (Ret (mkKpiRecord today n None (clock env (S (S t)))),
       set_dailyTransactions
         (dailyTransactions s ++ [mkSnapshot today n (clock env (S t)) (clock env (S t))])
         (record ReqDb (record ReqDb s))).
Proof.
  cbv zeta.
  unfold getTodayTransactions, bind at 1, dateNow at 1, tryCatch, bind at 1.
  rewrite calculateDailyTransactions_run.
  unfold bind at 1, dateNow at 1, bind at 1, dateNow at 1, bind at 1,
    DailyTransactions_insert, bind at 1, mongo at 1, call at 1.
  rewrite !tick_S.
  destruct (db_fails env (S (tick s))).
  - unfold DailyTransactions_findLatestOf, bind at 1, bind at 1, mongo, call, gets.
    rewrite !tick_S.
    destruct (db_fails env (S (S (tick s)))); [reflexivity|].
    cbn [dailyTransactions record].
    destruct (latestSnapshot _); [reflexivity|].
    unfold bind, dateNow, ret. now rewrite !tick_S.
  - unfold modify, bind, dateNow, ret. do 4 f_equal.
    unfold tick. cbn [trace set_dailyTransactions record]. rewrite !length_app. cbn. lia.
Qed.

Lemma updateDailyTransactionCount_result env s :
  fst (updateDailyTransactionCount env s) =
    match fst (getTodayTransactions env s) with
    | Ret r => Ret (kpi_count r)
    | Throw _ => Ret 0
    end.
Proof.
  unfold updateDailyTransactionCount, tryCatch, bind, ret.
  now destruct (getTodayTransactions env s) as [[r|e] s1].
Qed.

(** X6.  [getTodayTransactions] by the answers of MongoDB.  The count is the
    number of ActivityEvents of today, or 0 when the count query is rejected.
    When the insert is accepted, exactly one snapshot for today with that
    count is appended and the count is returned, so a rejected count query
    is persisted as a snapshot with count 0.  When the insert is rejected and
    the fallback query is accepted, nothing is written and the result is the
    stored snapshot of today with the greatest timestamp, or a record with
    count 0 when today has none.  When both are rejected the function throws;
    [updateDailyTransactionCount] then returns 0, and otherwise the count of
    that result. *)
Theorem getTodayTransactions_by_database_outcome (env : Env) (s : State) :
  let t := tick s in
  let today := startOfDay (clock env t) in
  let n := if db_fails env t then 0
           else countBetween today (addDays today 1) (addressActivity s) in
  let out := getTodayTransactions env s in
  (db_fails env (S t) = false ->
     fst out = Ret (mkKpiRecord today n None (clock env (S (S t)))) /\
     dailyTransactions (snd out) =
       dailyTransactions s ++ [mkSnapshot today n (clock env (S t)) (clock env (S t))] /\
     fst (updateDailyTransactionCount env s) = Ret n) /\
  (db_fails env (S t) = true -> db_fails env (S (S t)) = false ->
     dailyTransactions (snd out) = dailyTransactions s /\
     exists r, fst out = Ret r /\
       fst (updateDailyTransactionCount env s) = Ret (kpi_count r) /\
       ((exists d, r = recordOf d /\ d ∈ dailyTransactions s /\ date d = today /\
           forall d', d' ∈ dailyTransactions s -> date d' = today ->
             snap_timestamp d' <= snap_timestamp d) \/
        (r = mkKpiRecord today 0 None (clock env (S (S (S t)))) /\
         forall d, d ∈ dailyTransactions s -> date d <> today))) /\
  (db_fails env (S t) = true -> db_fails env (S (S t)) = true ->
     fst out = Throw ErrDb /\
     dailyTransactions (snd out) = dailyTransactions s /\
     fst (updateDailyTransactionCount env s) = Ret 0).
Proof.
  cbv zeta. rewrite updateDailyTransactionCount_result, getTodayTransactions_run.
  set (today := startOfDay (clock env (tick s))).
  split; [|split].
  - intros ->. repeat split.
  - intros -> ->. split; [reflexivity|]. eexists. split; [reflexivity|].
    split; [reflexivity|].
    pose proof (latestSnapshot_spec
                  (filter (fun d => date d = today) (dailyTransactions s))) as Hlatest.
    destruct (latestSnapshot _) as [d|].
    + left. exists d. split; [reflexivity|].
      destruct Hlatest as [Hin Hmax]. apply list_elem_of_filter in Hin as [Hdate Hin].
      repeat split; auto. intros d' Hd' Hdate'. apply Hmax.
      apply list_elem_of_filter. auto.
    + right. split; [reflexivity|]. intros d Hd Hdate.
      assert (Hin : d ∈ filter (fun d => date d = today) (dailyTransactions s))
        by (apply list_elem_of_filter; auto).
      rewrite Hlatest in Hin. inversion Hin.
  - intros -> ->. repeat split.
Qed.

(** ** The weekly report *)

Lemma calculateWeeklyActiveAddresses_result env s :
  calculateWeeklyActiveAddresses env s =
    (Ret (if db_fails env (tick s) then 0
          else Z.of_nat (size (distinctActiveAddresses (clock env (tick s))
                                 (addressActivity s)))),
     record ReqDb s).
Proof.
  destruct (db_fails env (tick s)) eqn:Hdb.
  - unfold calculateWeeklyActiveAddresses, tryCatch, bind, dateNow,
      AddressActivity_uniqueAddresses, bind, mongo, call, gets, ret.
    now rewrite Hdb.
  - now apply calculateWeeklyActiveAddresses_run.
Qed.

Lemma getWeeklyActiveAddresses_run env s :
  let t := tick s in
  let today := startOfDay (clock env t) in
  let n := if db_fails env t then 0
           else Z.of_nat (size (distinctActiveAddresses (clock env t) (addressActivity s))) in
  let snapshot := mkSnapshot today n (clock env (S t)) (clock env (S t)) in
  getWeeklyActiveAddresses env s =
    if db_fails env (S t) then
      if db_fails env (S (S t)) then
        (Throw ErrDb, record ReqDb (record ReqDb (record ReqDb s)))
      else
        (Ret match latestSnapshot (weeklyActiveAddresses s) with
             | Some d => recordOf d
             | None => mkKpiRecord today 0 None (clock env (S (S (S t))))
             end,
         record ReqDb (record ReqDb (record ReqDb s)))
    else
      (Ret (recordOf snapshot),
       set_weeklyActiveAddresses (weeklyActiveAddresses s ++ [snapshot])
         (record ReqDb (record ReqDb s))).
Proof.
  cbv zeta.
  unfold getWeeklyActiveAddresses, bind at 1, dateNow at 1, tryCatch, bind at 1.
  rewrite calculateWeeklyActiveAddresses_result.
  unfold bind at 1, dateNow at 1, bind at 1, dateNow at 1. cbv zeta.
  unfold bind at 1, WeeklyActiveAddresses_insert, bind at 1, mongo at 1, call at 1.
  rewrite !tick_S.
  destruct (db_fails env (S (tick s))).
  - unfold WeeklyActiveAddresses_findLatest, bind at 1, bind at 1, mongo, call, gets.
    rewrite !tick_S.
    destruct (db_fails env (S (S (tick s)))); [reflexivity|].
    cbn [weeklyActiveAddresses record].
    destruct (latestSnapshot _); [reflexivity|].
    unfold bind, dateNow, ret. now rewrite !tick_S.
  - reflexivity.
Qed.

Lemma processNewBlocks_returns env s :
  exists n s1, processNewBlocks env s = (Ret n, s1).
Proof.
  unfold processNewBlocks, tryCatch.
  match goal with |- context [match ?m s with _ => _ end] => destruct (m s) as [[n|e] s1] end;
    eauto.
Qed.

(** [getWeeklyActiveAddresses] appends one snapshot and returns it, or
    appends nothing. *)
Lemma getWeeklyActiveAddresses_cases env s :
  let out := getWeeklyActiveAddresses env s in
  sameEvents s (snd out) /\
  dailyTransactions (snd out) = dailyTransactions s /\
  ethPriceCache (snd out) = ethPriceCache s /\
  (tick s <= tick (snd out))%nat /\
  ((exists d, weeklyActiveAddresses (snd out) = weeklyActiveAddresses s ++ [d] /\
              fst out = Ret (recordOf d) /\ 0 <= count d) \/
   (weeklyActiveAddresses (snd out) = weeklyActiveAddresses s /\
    (db_fails env (S (tick s)) = true))).
Proof.
  cbv zeta. rewrite getWeeklyActiveAddresses_run.
  destruct (db_fails env (S (tick s))); [destruct (db_fails env (S (S (tick s))))|].
  - cbn [fst snd]. repeat split; [rewrite !tick_S; lia | now right].
  - cbn [fst snd]. repeat split; [rewrite !tick_S; lia | now right].
  - cbn [fst snd]. repeat split.
    + unfold tick. cbn. rewrite !length_app. lia.
    + left. eexists. split; [reflexivity|]. split; [reflexivity|]. cbn.
      destruct (db_fails env (tick s)); lia.
Qed.

(** X7.  [updateWeeklyActiveAddresses] appends at most one weekly snapshot,
    and returns the snapshot it appended; it never touches the daily
    snapshots or the cached price, and the events only grow by what the block
    scan appends.  Its [catch] repeats the failing call, so it throws when
    MongoDB keeps rejecting.  When MongoDB accepts every operation, exactly
    one snapshot is appended, dated today, and its count is the number of
    distinct active addresses after the scan, the new ActivityEvents
    included. *)
Theorem updateWeeklyActiveAddresses_one_snapshot (env : Env) (s : State) :
  let out := updateWeeklyActiveAddresses env s in
  (weeklyActiveAddresses (snd out) = weeklyActiveAddresses s \/
   exists d, weeklyActiveAddresses (snd out) = weeklyActiveAddresses s ++ [d] /\
             fst out = Ret (recordOf d) /\ 0 <= count d) /\
  dailyTransactions (snd out) = dailyTransactions s /\
  ethPriceCache (snd out) = ethPriceCache s /\
  appends (fun _ => True) (fun _ => True) s (snd out) /\
  ((forall t, (tick s <= t)%nat -> db_fails env t = true) -> fst out = Throw ErrDb) /\
  ((forall t, (tick s <= t)%nat -> db_fails env t = false) ->
     exists n s1 d,
       processNewBlocks env s = (Ret n, s1) /\
       weeklyActiveAddresses (snd out) = weeklyActiveAddresses s ++ [d] /\
       fst out = Ret (recordOf d) /\
       addressActivity (snd out) = addressActivity s1 /\
       date d = startOfDay (clock env (tick s1)) /\
       count d = Z.of_nat (size (distinctActiveAddresses (clock env (tick s1))
                                   (addressActivity s1)))).
Proof.
  cbv zeta.
  destruct (processNewBlocks_returns env s) as (n & s1 & Hscan).
  assert (Hsnap : sameSnapshots s s1).
  { pose proof (keeps_here _ _ s (sameSnapshots_processNewBlocks env s)) as H.
    rewrite Hscan in H. apply H. repeat split. }
  assert (Happ : appends (fun _ => True) (fun _ => True) s s1).
  { pose proof (keeps_here _ _ s (appends_anything_processNewBlocks env s)) as H.
    rewrite Hscan in H. apply H, appends_refl. }
  assert (Htick : (tick s <= tick s1)%nat).
  { assert (Hkeeps : keeps (fun x => (tick s <= tick x)%nat) (processNewBlocks env)).
    { apply frame_processNewBlocks; intros; cbv beta in *; rewrite ?tick_S; auto. }
    pose proof (keeps_here _ _ s Hkeeps) as H.
    rewrite Hscan in H. apply H. lia. }
  destruct Hsnap as (Hdaily & Hweekly & Hcache).
  unfold updateWeeklyActiveAddresses, tryCatch, bind. rewrite Hscan.
  pose proof (getWeeklyActiveAddresses_cases env s1) as Hfirst. cbv zeta in Hfirst.
  pose proof (getWeeklyActiveAddresses_run env s1) as Hrun1. cbv zeta in Hrun1.
  destruct (getWeeklyActiveAddresses env s1) as [[r|e] s2] eqn:Hcall.
  - cbn [fst snd] in *. 
    destruct Hfirst as ([Hact Hbridge] & Hd & Hc & Ht & Hw).
    split; [|split; [congruence|split; [congruence|split; [|split]]]].
    + destruct Hw as [(d & Hwd & Hr & Hcount)|[Hwd _]]; [right | left; congruence].
      exists d. rewrite Hwd, Hweekly. auto.
    + eapply appends_stable; [|exact Happ]. now split.
    + intros Hdown. exfalso.
      rewrite (Hdown (S (tick s1))), (Hdown (S (S (tick s1)))) in Hrun1 by lia.
      discriminate.
    + intros Hup. rewrite (Hup (S (tick s1))), (Hup (tick s1)) in Hrun1 by lia.
      inversion Hrun1; subst. exists n, s1. eexists. split; [reflexivity|].
      cbn. rewrite Hweekly. repeat split.
  - cbn [fst snd] in *.
    destruct Hfirst as ([Hact Hbridge] & Hd & Hc & Ht & Hw).
    assert (Hw2 : weeklyActiveAddresses s2 = weeklyActiveAddresses s1).
    { destruct Hw as [(d & _ & Hr & _)|[Hw _]]; [discriminate | exact Hw]. }
    pose proof (getWeeklyActiveAddresses_cases env s2) as Hsecond. cbv zeta in Hsecond.
    pose proof (getWeeklyActiveAddresses_run env s2) as Hrun2. cbv zeta in Hrun2.
    destruct (getWeeklyActiveAddresses env s2) as [o3 s3].
    cbn [fst snd] in *.
    destruct Hsecond as ([Hact3 Hbridge3] & Hd3 & Hc3 & Ht3 & Hw3).
    split; [|split; [congruence|split; [congruence|split; [|split]]]].
    + destruct Hw3 as [(d & Hwd & Hr & Hcount)|[Hwd _]]; [right | left; congruence].
      exists d. rewrite Hwd, Hw2, Hweekly. auto.
    + eapply appends_stable; [|exact Happ]. split; congruence.
    + intros Hdown.
      rewrite (Hdown (S (tick s2))), (Hdown (S (S (tick s2)))) in Hrun2 by lia.
      now inversion Hrun2.
    + intros Hup. exfalso.
      rewrite (Hup (S (tick s1))) in Hrun1 by lia. discriminate.
Qed.

(** ** The price cache *)

Lemma truthyNumber_truthy o p : truthyNumber o = Some p -> truthyNumber (Some p) = Some p.
Proof.
  destruct o as [q|]; simpl; [|discriminate].
  destruct (Qeq_bool q 0) eqn:Hzero; [discriminate|]. intros [= <-]. now rewrite Hzero.
Qed.

Lemma upstreamPrice_truthy o p : upstreamPrice o = Some p -> truthyNumber (Some p) = Some p.
Proof.
  unfold upstreamPrice. destruct o as [r|e]; [|discriminate].
  destruct (ok r); [|discriminate]. destruct (json r) as [data|e]; [|discriminate].
  apply truthyNumber_truthy.
Qed.

(** X8.  A price that [getEthPrice] fetched is served from the cache
    afterwards: as long as the cache is the one that the fetch left and the
    clock is less than five minutes past the fetch, a later call returns the
    same price, sends no request and changes nothing. *)
Theorem getEthPrice_reuses_fetched_price (env : Env) (s : State) (p : Q) :
  freshPrice (ethPriceCache s) (clock env (tick s)) = None ->
  upstreamPrice (http_price env (tick s)) = Some p ->
  fst (getEthPrice env s) = Ret p /\
  forall later,
    ethPriceCache later = ethPriceCache (snd (getEthPrice env s)) ->
    clock env (tick later) - clock env (tick s) < 300000 ->
    getEthPrice env later = (Ret p, later).
Proof.
  intros Hstale Hup. rewrite (getEthPrice_refreshed env s p Hstale Hup).
  split; [reflexivity|]. intros later Hcache Hclock.
  apply getEthPrice_fresh. apply freshPrice_Some. rewrite Hcache. cbn.
  split; [exact (upstreamPrice_truthy _ _ Hup) | exact Hclock].
Qed.

Lemma getEthPrice_reuses_fetched_price_witness :
  fst (getEthPrice pricedEnv emptyState) = Ret (3500 # 1) /\
  getEthPrice pricedEnv (snd (getEthPrice pricedEnv emptyState)) =
    (Ret (3500 # 1), snd (getEthPrice pricedEnv emptyState)).
Proof.
  destruct (getEthPrice_reuses_fetched_price pricedEnv emptyState (3500 # 1))
    as [Hfirst Hlater]; [reflexivity | reflexivity |].
  split; [exact Hfirst|]. apply Hlater; [reflexivity | vm_compute; reflexivity].
Defined.

(** ** Daily count and weekly count *)

Lemma countBetween_app gte lt l1 l2 :
  countBetween gte lt (l1 ++ l2) = countBetween gte lt l1 + countBetween gte lt l2.
Proof. unfold countBetween. rewrite filter_app, length_app. lia. Qed.

(** X9.  The daily count counts ActivityEvents, not addresses, and excludes
    nobody: one more event with a timestamp inside today raises it by one,
    also when the address is a system address or is already counted, and an
    event outside today leaves it alone.  The weekly count does not move for
    an event of a system address. *)
Theorem daily_count_counts_every_event (env : Env) (s : State) (e : ActivityEvent) :
  db_fails env (tick s) = false ->
  let today := startOfDay (clock env (tick s)) in
  let s' := set_addressActivity (addressActivity s ++ [e]) s in
  exists n,
    fst (calculateDailyTransactions env s) = Ret n /\ 0 <= n /\
    (today <= act_timestamp e < today + 86400000 ->
       fst (calculateDailyTransactions env s') = Ret (n + 1)) /\
    (~ today <= act_timestamp e < today + 86400000 ->
       fst (calculateDailyTransactions env s') = Ret n) /\
    (address e ∈ SYSTEM_ADDRESSES ->
       fst (calculateWeeklyActiveAddresses env s') =
       fst (calculateWeeklyActiveAddresses env s)).
Proof.
  intros Hdb. cbv zeta.
  rewrite !calculateDailyTransactions_run, !calculateWeeklyActiveAddresses_result.
  change (tick (set_addressActivity (addressActivity s ++ [e]) s)) with (tick s).
  rewrite Hdb. cbn [fst addressActivity set_addressActivity].
  eexists. split; [reflexivity|]. split; [unfold countBetween; lia|].
  rewrite countBetween_app. unfold addDays, DAY_MS.
  split; [|split].
  - intros Hin. do 2 f_equal. unfold countBetween.
    rewrite filter_cons_True by lia. reflexivity.
  - intros Hout. f_equal. unfold countBetween at 2.
    rewrite filter_cons_False by lia. cbn. lia.
  - intros Hsys. do 3 f_equal. apply set_eq. intros a.
    rewrite !elem_of_distinctActiveAddresses.
    split; intros [Ha (x & Hx & Haddr & Hts)]; (split; [exact Ha|]).
    + apply elem_of_app in Hx as [Hx|Hx]; [eauto|].
      apply list_elem_of_singleton in Hx. subst x. congruence.
    + exists x. rewrite elem_of_app. auto.
Qed.

Lemma daily_count_counts_every_event_witness :
  fst (calculateDailyTransactions idleEnv
         (set_addressActivity
            (addressActivity weekOfActivity ++ [mkActivity ARBSYS_ADDRESS NOW 40])
            weekOfActivity)) = Ret 1 /\
  fst (calculateWeeklyActiveAddresses idleEnv
         (set_addressActivity
            (addressActivity weekOfActivity ++ [mkActivity ARBSYS_ADDRESS NOW 40])
            weekOfActivity)) =
  fst (calculateWeeklyActiveAddresses idleEnv weekOfActivity).
Proof.
  destruct (daily_count_counts_every_event idleEnv weekOfActivity
              (mkActivity ARBSYS_ADDRESS NOW 40) eq_refl)
    as (n & Hn & _ & Hin & _ & Hsys).
  assert (n = 0) as -> by (vm_compute in Hn; congruence).
  split.
  - apply Hin. vm_compute. split; [discriminate | reflexivity].
  - apply Hsys. apply (bool_decide_eq_true_1 (ARBSYS_ADDRESS ∈ SYSTEM_ADDRESSES)).
    vm_compute. reflexivity.
Defined.

(** ** Blocks that cannot be read *)

(** The requests for the blocks [l], in order. *)
Lemma unreadable_blocks_backfill env l :
  (forall t i, exists e, rpc_getBlock env t i = Throw e) ->
  forall s,
    forEach l (backfillBlock env) s =
      (Ret tt, fold_left (fun x i => record (ReqBlock i) x) l s).
Proof.
  intros Hfail. induction l as [|i l IH]; intros s; [reflexivity|].
  cbn [forEach fold_left]. unfold bind at 1.
  assert (Hblock : backfillBlock env i s = (Ret tt, record (ReqBlock i) s)).
  { unfold backfillBlock, tryCatch, bind, provider_getBlock, call.
    destruct (Hfail (tick s) i) as [e ->]. reflexivity. }
  rewrite Hblock. apply IH.
Qed.

Lemma requests_only l : forall s,
  let s' := fold_left (fun x i => record (ReqBlock i) x) l s in
  trace s' = trace s ++ (ReqBlock <$> l) /\ sameEvents s s' /\ locals s' = locals s.
Proof.
  induction l as [|i l IH]; intros s; cbn [fold_left fmap list_fmap].
  - rewrite app_nil_r. repeat split.
  - destruct (IH (record (ReqBlock i) s)) as (Htrace & [Ha Hb] & Hl).
    cbv zeta. unfold sameEvents. rewrite Htrace, Ha, Hb, Hl. cbn.
    rewrite <- app_assoc. repeat split.
Qed.

(** X10.  A node that fails every request for a block stops the incremental
    scan and not the backfill.  [processNewBlocks] gives up at the first
    block: it returns 0 and requests no further block, although the range
    was not empty.  [backfillBridgeActivity] requests every block of its
    range in turn and reports the whole range as scanned, with all counters
    at 0.  Neither writes an event. *)
Theorem unreadable_blocks_stop_the_scan_not_the_backfill
    (env : Env) (s : State) (url : string) (head : Z) :
  rpcEndpoint (settings env) = Some url ->
  rpc_getBlockNumber env (tick s) = Ret head ->
  (forall t i, exists e, rpc_getBlock env t i = Throw e) ->
  (db_fails env (S (tick s)) = false ->
   startBlockOf (lastByBlockNumber (addressActivity s)) head <= head ->
   fst (processNewBlocks env s) = Ret 0 /\
   trace (snd (processNewBlocks env s)) =
     trace s ++ [ReqBlockNumber; ReqDb;
                 ReqBlock (startBlockOf (lastByBlockNumber (addressActivity s)) head)] /\
   sameEvents s (snd (processNewBlocks env s))) /\
  (forall cfg,
     backfill_bridgeActivity (settings env) = Some cfg ->
     enabled cfg = true -> 0 < blockCount cfg ->
     let startBlock := Z.max 1 (head - blockCount cfg + 1) in
     let totalBlocks := head - startBlock + 1 in
     fst (backfillBridgeActivity env s) = Ret (mkBackfillResult 0 0 0 totalBlocks) /\
     trace (snd (backfillBridgeActivity env s)) =
       trace s ++ ReqBlockNumber :: (ReqBlock <$> seqZ startBlock totalBlocks) /\
     sameEvents s (snd (backfillBridgeActivity env s))).
Proof.
  intros Hurl Hhead Hfail. split.
  - intros Hdb Hrange.
    set (startBlock := startBlockOf (lastByBlockNumber (addressActivity s)) head) in *.
    assert (Hrun : processNewBlocks env s =
              (Ret 0, record (ReqBlock startBlock)
                        (set_locals (fun _ => noLocals)
                           (record ReqDb (record ReqBlockNumber s))))).
    { unfold processNewBlocks, tryCatch, bind at 1, getProvider. rewrite Hurl.
      unfold ret at 1, bind at 1, provider_getBlockNumber, call at 1. rewrite Hhead.
      unfold bind at 1, AddressActivity_findLast, bind at 1, mongo, call at 1.
      rewrite tick_S, Hdb. unfold gets at 1. cbn [addressActivity record].
      fold startBlock. destruct (Z.ltb_spec head startBlock) as [Hlt|_]; [lia|].
      unfold bind at 1, setLocals, modify.
      rewrite (seqZ_cons startBlock) by lia. cbn [forEach].
      unfold bind at 1, bind at 1.
      unfold processBlock at 1, bind at 1, getBlock, bind at 1, getProvider.
      rewrite Hurl. unfold ret at 1, provider_getBlock, call at 1.
      match goal with
      | |- context [rpc_getBlock env ?t startBlock] =>
          destruct (Hfail t startBlock) as [e ->]
      end.
      reflexivity. }
    rewrite Hrun. cbn. rewrite <- !app_assoc. repeat split.
  - intros cfg Hcfg Henabled Hcount. cbv zeta.
    set (startBlock := Z.max 1 (head - blockCount cfg + 1)).
    set (totalBlocks := head - startBlock + 1).
    assert (Hrun : backfillBridgeActivity env s =
              (Ret (mkBackfillResult 0 0 0 totalBlocks),
               fold_left (fun x i => record (ReqBlock i) x) (seqZ startBlock totalBlocks)
                 (set_locals (fun _ => noLocals) (record ReqBlockNumber s)))).
    { unfold backfillBridgeActivity, tryCatch. rewrite Hcfg, Henabled. cbn [negb].
      destruct (Z.eqb_spec (blockCount cfg) 0) as [Hzero|_]; [lia|].
      unfold bind at 1, getProvider. rewrite Hurl.
      unfold ret at 1, bind at 1, backfillRange.
      destruct (Z.eqb_spec (blockCount cfg) (-1)) as [Hminus|_]; [lia|].
      unfold bind at 1, provider_getBlockNumber, call at 1. rewrite Hhead.
      unfold ret at 1. cbn [fst snd]. fold startBlock. fold totalBlocks.
      unfold bind at 1, setLocals, modify, bind at 1.
      rewrite (unreadable_blocks_backfill env _ Hfail).
      unfold bind, gets, ret.
      destruct (requests_only (seqZ startBlock totalBlocks)
                  (set_locals (fun _ => noLocals) (record ReqBlockNumber s)))
        as (_ & _ & ->).
      reflexivity. }
    rewrite Hrun. cbn [fst snd].
    destruct (requests_only (seqZ startBlock totalBlocks)
                (set_locals (fun _ => noLocals) (record ReqBlockNumber s)))
      as (Htrace & [Ha Hb] & _).
    unfold sameEvents. rewrite Htrace, Ha, Hb. cbn. rewrite <- app_assoc. repeat split.
Qed.

Lemma unreadable_blocks_witness :
  (fst (processNewBlocks unreadableChain emptyState) = Ret 0 /\
   trace (snd (processNewBlocks unreadableChain emptyState)) =
     [ReqBlockNumber; ReqDb; ReqBlock 0]) /\
  (fst (backfillBridgeActivity unreadableChain emptyState) =
     Ret (mkBackfillResult 0 0 0 3) /\
   trace (snd (backfillBridgeActivity unreadableChain emptyState)) =
     [ReqBlockNumber; ReqBlock 1; ReqBlock 2; ReqBlock 3]).
Proof.
  destruct (unreadable_blocks_stop_the_scan_not_the_backfill
              unreadableChain emptyState _ 3 eq_refl eq_refl
              (fun t i => ex_intro _ ErrRpc eq_refl))
    as [Hscan Hbackfill].
  split.
  - destruct (Hscan eq_refl) as (Hresult & Htrace & _); [vm_compute; discriminate|].
    split; [exact Hresult | exact Htrace].
  - destruct (Hbackfill (mkBackfillConfig true 10) eq_refl eq_refl eq_refl)
      as (Hresult & Htrace & _).
    split; [exact Hresult | exact Htrace].
Defined.

(** ** The range of the bridge backfill *)

(** X11.  Every event that [backfillBridgeActivity] appends comes from a
    block of the configured range: the backfill is enabled with a
    [blockCount] other than 0, and the block is one of the last [blockCount]
    blocks up to the head that the node reported, and never block 0.  With a
    [blockCount] of -1 the block lies after the newest recorded
    ActivityEvent when that is above block 1.  A disabled or missing
    configuration, a [blockCount] of 0 or below -1, therefore appends
    nothing. *)
Theorem backfillBridgeActivity_stays_in_range (env : Env) (s : State) :
  appends (fun a => inBackfillRange env s (act_blockNumber a))
          (fun b => inBackfillRange env s (br_blockNumber b))
          s (snd (backfillBridgeActivity env s)).
Proof.
  set (I := appends (fun a => inBackfillRange env s (act_blockNumber a))
                    (fun b => inBackfillRange env s (br_blockNumber b)) s).
  assert (Hst : stable I) by apply appends_stable.
  assert (Hs : I s) by apply appends_refl.
  assert (Hrecord : forall r, I (record r s))
    by (intros r; eapply Hst; [apply sameEvents_record | exact Hs]).
  assert (H : hoare (fun x => x = s) (backfillBridgeActivity env) (fun _ => I) I).
  2:{ specialize (H s eq_refl). now destruct (backfillBridgeActivity env s) as [[n|e] s1]. }
  unfold backfillBridgeActivity.
  eapply hoare_tryCatch with (E' := I); [|intros; apply keeps_ret].
  destruct (backfill_bridgeActivity (settings env)) as [cfg|] eqn:Hcfg;
    [|apply hoare_ret; now intros x ->].
  destruct (enabled cfg) eqn:Henabled; cbn [negb]; [|apply hoare_ret; now intros x ->].
  destruct (Z.eqb_spec (blockCount cfg) 0) as [Hzero|Hcount];
    [apply hoare_ret; now intros x ->|].
  eapply hoare_bind with (R := fun _ x => x = s).
  { unfold getProvider. destruct (rpcEndpoint (settings env)).
    - now apply hoare_ret.
    - apply hoare_throw. now intros x ->. }
  intros _.
  eapply hoare_bind with
    (R := fun range x =>
            I x /\
            exists head,
              rpc_getBlockNumber env (tick s) = Ret head /\ snd range = head /\
              1 <= fst range /\
              (blockCount cfg <> -1 -> head - blockCount cfg < fst range) /\
              (blockCount cfg = -1 ->
                 forall last, lastByBlockNumber (addressActivity s) = Some last ->
                   1 < act_blockNumber last -> act_blockNumber last < fst range)).
  { unfold backfillRange, provider_getBlockNumber.
    destruct (Z.eqb_spec (blockCount cfg) (-1)) as [Hminus|Hplus].
    - eapply hoare_bind with
        (R := fun head x =>
                (I x /\ addressActivity x = addressActivity s) /\
                rpc_getBlockNumber env (tick s) = Ret head).
      { apply hoare_call.
        - intros x head -> Hhead. repeat split; [apply Hrecord | exact Hhead].
        - intros x ->. apply Hrecord. }
      intros head. apply hoare_pure. intros Hhead.
      eapply hoare_bind with
        (R := fun lastProcessed x =>
                I x /\ lastProcessed = lastByBlockNumber (addressActivity s)).
      { unfold AddressActivity_findLast.
        eapply hoare_bind
          with (R := fun _ x => I x /\ addressActivity x = addressActivity s).
        - apply hoare_call.
          + intros x u [Hx Hsame] _. split; [|exact Hsame].
            eapply Hst; eauto using sameEvents_record.
          + intros x [Hx _]. eapply Hst; eauto using sameEvents_record.
        - intros u. apply hoare_gets. intros x [Hx Hsame]. now rewrite Hsame. }
      intros lastProcessed. apply hoare_pure. intros ->.
      destruct (lastByBlockNumber (addressActivity s)) as [a|].
      + destruct (Z.ltb_spec 1 (act_blockNumber a)) as [Hlt|Hge];
          apply hoare_ret; intros x Hx; (split; [exact Hx|]); exists head; cbn [fst snd];
          (split; [exact Hhead|]); (split; [reflexivity|]);
          (split; [lia|]); (split; [congruence|]); intros _ last [= <-]; lia.
      + apply hoare_ret. intros x Hx. split; [exact Hx|]. exists head. cbn [fst snd].
        split; [exact Hhead|]. split; [reflexivity|]. split; [lia|].
        split; [congruence | discriminate].
    - eapply hoare_bind with
        (R := fun head x => I x /\ rpc_getBlockNumber env (tick s) = Ret head).
      { apply hoare_call.
        - intros x head -> Hhead. split; [apply Hrecord | exact Hhead].
        - intros x ->. apply Hrecord. }
      intros head. apply hoare_pure. intros Hhead.
      apply hoare_ret. intros x Hx. split; [exact Hx|]. exists head. cbn [fst snd].
      split; [exact Hhead|]. split; [reflexivity|]. split; [lia|].
      split; [lia | congruence]. }
  intros [startBlock endBlock]. apply hoare_pure.
  intros (head & Hhead & Hend & Hstart & Hcounted & Hresumed). cbn [fst snd] in *.
  subst endBlock.
  apply keeps_bind; [now apply keeps_setLocals|]. intros _.
  apply keeps_bind;
    [|intros; apply keeps_bind; [apply keeps_gets | intros; apply keeps_ret]].
  apply keeps_forEach. intros i Hi. apply elem_of_seqZ in Hi.
  assert (Hin : inBackfillRange env s i).
  { exists cfg, head. do 4 (split; [assumption|]). split; [lia|]. split.
    - intros Hplus. specialize (Hcounted Hplus). lia.
    - intros Hminus last Hlast Hlt. specialize (Hresumed Hminus last Hlast Hlt). lia. }
  apply keeps_backfillBlock; [exact Hst|]. intros ts h _.
  apply appends_backfillTransaction; intros; exact Hin.
Qed.

(** ** The history of snapshots *)

Lemma firstPerDate_first l : forall seen p,
  p ∈ firstPerDate seen l ->
  (hp_date p ∉ seen) /\
  exists l1 d l2, l = l1 ++ d :: l2 /\ p = pointOf d /\
                  forall d', d' ∈ l1 -> date d' <> date d.
Proof.
  induction l as [|x l IH]; intros seen p Hp; cbn [firstPerDate] in Hp.
  - inversion Hp.
  - destruct (bool_decide_reflect (date x ∈ seen)) as [Hseen|Hnew].
    + destruct (IH _ _ Hp) as (Hfresh & l1 & d & l2 & -> & -> & Hl1).
      split; [exact Hfresh|]. exists (x :: l1), d, l2. repeat split.
      intros d' Hd'. apply elem_of_cons in Hd' as [->|Hd']; [|now apply Hl1].
      intros Heq. apply Hfresh. cbn. now rewrite <- Heq.
    + apply elem_of_cons in Hp as [->|Hp].
      * split; [exact Hnew|]. exists [], x, l. repeat split.
        intros d' Hd'. inversion Hd'.
      * destruct (IH _ _ Hp) as (Hfresh & l1 & d & l2 & -> & -> & Hl1).
        apply not_elem_of_cons in Hfresh as [Hne Hfresh].
        split; [exact Hfresh|]. exists (x :: l1), d, l2. repeat split.
        intros d' Hd'. apply elem_of_cons in Hd' as [->|Hd']; [|now apply Hl1].
        cbn in Hne. congruence.
Qed.

Lemma firstPerDate_NoDup l : forall seen, NoDup (hp_date <$> firstPerDate seen l).
Proof.
  induction l as [|x l IH]; intros seen; cbn [firstPerDate]; [constructor|].
  destruct (bool_decide (date x ∈ seen)); [apply IH|].
  cbn. constructor; [|apply IH].
  intros Hin. apply list_elem_of_fmap in Hin as (p & Hdate & Hp).
  destruct (firstPerDate_first _ _ _ Hp) as [Hfresh _].
  apply Hfresh. cbn in Hdate. rewrite <- Hdate. left.
Qed.

Lemma firstPerDate_complete l : forall seen d,
  d ∈ l -> date d ∉ seen -> date d ∈ hp_date <$> firstPerDate seen l.
Proof.
  induction l as [|x l IH]; intros seen d Hd Hnew; [inversion Hd|].
  cbn [firstPerDate].
  destruct (bool_decide_reflect (date x ∈ seen)) as [Hseen|Hfresh].
  - apply elem_of_cons in Hd as [->|Hd]; [contradiction | now apply IH].
  - cbn. destruct (decide (date d = date x)) as [->|Hne]; [left|].
    right. apply elem_of_cons in Hd as [->|Hd]; [contradiction|].
    apply IH; [exact Hd|]. apply not_elem_of_cons. auto.
Qed.

#[local] Instance newestFirst_trans : Transitive newestFirst.
Proof. unfold newestFirst. intros a b c. lia. Qed.
#[local] Instance newestFirst_total : Total newestFirst.
Proof. unfold newestFirst. intros a b. lia. Qed.
#[local] Instance latestDateFirst_trans : Transitive latestDateFirst.
Proof. unfold latestDateFirst. intros a b c. lia. Qed.
#[local] Instance latestDateFirst_total : Total latestDateFirst.
Proof. unfold latestDateFirst. intros a b. lia. Qed.
#[local] Instance earliestDateFirst_trans : Transitive earliestDateFirst.
Proof. unfold earliestDateFirst. intros a b c. lia. Qed.
#[local] Instance earliestDateFirst_total : Total earliestDateFirst.
Proof. unfold earliestDateFirst. intros a b. lia. Qed.

(** After [$sort: { timestamp: -1 }], the first document of a date is one
    with the greatest timestamp. *)
Lemma firstPerDate_latest l p :
  StronglySorted newestFirst l -> p ∈ firstPerDate [] l -> latestOfDate l p.
Proof.
  intros Hsorted Hp.
  destruct (firstPerDate_first _ _ _ Hp) as (_ & l1 & d & l2 & -> & -> & Hl1).
  exists d. split; [rewrite elem_of_app; right; left|]. repeat split.
  intros d' Hd' Hdate. apply elem_of_app in Hd' as [Hd'|Hd']; [now apply Hl1 in Hd'|].
  apply elem_of_cons in Hd' as [->|Hd']; [lia|].
  apply StronglySorted_app_1_r, StronglySorted_cons in Hsorted as [Hall _].
  rewrite Forall_forall in Hall. exact (Hall _ Hd').
Qed.

Lemma latestOfDate_same_rows l1 l2 p :
  (forall d, d ∈ l1 <-> d ∈ l2) -> latestOfDate l1 p -> latestOfDate l2 p.
Proof.
  intros Hrows (d & Hd & Hdate & Hcount & Hts & Hmax).
  exists d. split; [now apply Hrows|]. repeat split; auto.
  intros d' Hd'. apply Hmax. now apply Hrows.
Qed.

Lemma NoDup_fmap_eq {A B : Type} (f : A -> B) (l : list A) x y :
  NoDup (f <$> l) -> x ∈ l -> y ∈ l -> f x = f y -> x = y.
Proof.
  induction l as [|z l IH]; intros Hnd Hx Hy Heq; [inversion Hx|].
  cbn in Hnd. apply NoDup_cons in Hnd as [Hz Hnd].
  apply elem_of_cons in Hx as [->|Hx]; apply elem_of_cons in Hy as [->|Hy]; auto.
  - exfalso. apply Hz. rewrite Heq. now apply list_elem_of_fmap_2.
  - exfalso. apply Hz. rewrite <- Heq. now apply list_elem_of_fmap_2.
Qed.

Lemma strictly_ascending l :
  StronglySorted earliestDateFirst l -> NoDup (hp_date <$> l) ->
  StronglySorted (fun p q => hp_date p < hp_date q) l.
Proof.
  induction l as [|x l IH]; intros Hsorted Hnd; [constructor|].
  apply StronglySorted_cons in Hsorted as [Hall Hsorted].
  cbn in Hnd. apply NoDup_cons in Hnd as [Hx Hnd].
  constructor; [now apply IH|].
  rewrite Forall_forall in Hall |- *. intros y Hy. specialize (Hall y Hy).
  unfold earliestDateFirst in Hall.
  assert (hp_date x <> hp_date y); [|lia].
  intros Heq. apply Hx. rewrite Heq. now apply list_elem_of_fmap_2.
Qed.

(** What the pipeline of the history getters computes. *)
Lemma historyPipeline_latestDays days l :
  0 < days -> latestDays days l (historyPipeline days l).
Proof.
  intros Hdays. unfold historyPipeline.
  set (sorted := merge_sort newestFirst l).
  set (groups := firstPerDate [] sorted).
  set (byDate := merge_sort latestDateFirst groups).
  set (kept := take (Z.to_nat days) byDate).
  assert (Hsorted : forall d, d ∈ sorted <-> d ∈ l)
    by (intros d; unfold sorted; now rewrite merge_sort_Permutation).
  assert (HbyDate : byDate ≡ₚ groups) by apply merge_sort_Permutation.
  assert (Hnd : NoDup (hp_date <$> byDate)).
  { rewrite HbyDate. apply firstPerDate_NoDup. }
  assert (Hdesc : StronglySorted latestDateFirst byDate)
    by apply (StronglySorted_merge_sort _).
  assert (Hsplit : byDate = kept ++ drop (Z.to_nat days) byDate)
    by (unfold kept; now rewrite take_drop).
  assert (Hkept : forall p, p ∈ merge_sort earliestDateFirst kept <-> p ∈ kept)
    by (intros p; now rewrite merge_sort_Permutation).
  assert (Hsub : forall p, p ∈ kept -> p ∈ groups).
  { intros p Hp. rewrite <- HbyDate. rewrite Hsplit, elem_of_app. now left. }
  repeat split.
  - rewrite merge_sort_Permutation. unfold kept. rewrite length_take. lia.
  - apply strictly_ascending; [apply (StronglySorted_merge_sort _)|].
    rewrite merge_sort_Permutation.
    rewrite Hsplit, fmap_app in Hnd. now apply NoDup_app in Hnd as [Hnd _].
  - rewrite Forall_forall. intros p Hp. apply Hkept, Hsub in Hp.
    apply latestOfDate_same_rows with sorted; [exact Hsorted|].
    apply firstPerDate_latest; [apply (StronglySorted_merge_sort _) | exact Hp].
  - intros d Hd. apply Hsorted in Hd.
    pose proof (firstPerDate_complete sorted [] d Hd ltac:(apply not_elem_of_nil)) as Hq.
    apply list_elem_of_fmap in Hq as (q & Hdate & Hq). fold groups in Hq.
    rewrite <- HbyDate, Hsplit, elem_of_app in Hq. destruct Hq as [Hq|Hq].
    + left. exists q. split; [now apply Hkept | now symmetry].
    + right. split.
      * rewrite merge_sort_Permutation. unfold kept. rewrite length_take.
        assert (Z.to_nat days < length byDate)%nat; [|lia].
        destruct (decide (Z.to_nat days < length byDate)%nat) as [?|Hge]; [assumption|].
        rewrite drop_ge in Hq by lia. inversion Hq.
      * intros p Hp. apply Hkept in Hp. rewrite Hdate.
        rewrite Hsplit in Hdesc.
        pose proof (StronglySorted_app_1_elem_of _ _ _ _ _ Hdesc Hp Hq) as Hle.
        unfold latestDateFirst in Hle.
        assert (hp_date q <> hp_date p); [|lia].
        intros Heq. rewrite Hsplit, fmap_app in Hnd.
        apply NoDup_app in Hnd as (_ & Hdisjoint & _).
        apply (Hdisjoint (hp_date p)); [now apply list_elem_of_fmap_2|].
        rewrite <- Heq. now apply list_elem_of_fmap_2.
Qed.

Lemma historyPipeline_length days l :
  length (historyPipeline days l) =
    Nat.min (Z.to_nat days) (length (firstPerDate [] (merge_sort newestFirst l))).
Proof.
  unfold historyPipeline.
  now rewrite merge_sort_Permutation, length_take, merge_sort_Permutation.
Qed.

(** With at least [days] distinct dates in store the history is full. *)
Lemma historyPipeline_full days l (D : list Z) :
  NoDup D -> (forall x, x ∈ D -> x ∈ date <$> l) -> (Z.to_nat days <= length D)%nat ->
  length (historyPipeline days l) = Z.to_nat days.
Proof.
  intros Hnd Hsub Hlen. rewrite historyPipeline_length.
  assert (length D <= length (firstPerDate [] (merge_sort newestFirst l)))%nat; [|lia].
  rewrite <- (length_fmap hp_date). apply submseteq_length, NoDup_submseteq; [exact Hnd|].
  intros x Hx. apply Hsub, list_elem_of_fmap in Hx as (d & -> & Hd).
  apply firstPerDate_complete; [|apply not_elem_of_nil].
  now rewrite merge_sort_Permutation.
Qed.

#[local] Instance Zlt_antisymm : AntiSymm (=) Z.lt.
Proof. intros x y. lia. Qed.

Lemma seqZ_ascending n : forall m, StronglySorted Z.lt (seqZ m (Z.of_nat n)).
Proof.
  induction n as [|n IH]; intros m; [constructor|].
  rewrite seqZ_cons by lia. replace (Z.pred (Z.of_nat (S n))) with (Z.of_nat n) by lia.
  constructor; [apply IH|].
  rewrite Forall_forall. intros k Hk. apply elem_of_seqZ in Hk. lia.
Qed.

Lemma ascending_NoDup (l : list Z) : StronglySorted Z.lt l -> NoDup l.
Proof.
  induction 1 as [|x l Hs IH Hall]; constructor; auto.
  intros Hx. rewrite Forall_forall in Hall. specialize (Hall x Hx). lia.
Qed.

(** The history of a collection that holds one snapshot for each of the
    [N] days up to the day of [now], and nothing else. *)
Lemma historyPipeline_backfilled N now (f : Z -> Z * Z) (added : list Snapshot) :
  0 < N -> (forall i, fst (f i) = dayStart now i) ->
  dateAndCount <$> added = f <$> seqZ 0 N ->
  hp_date <$> historyPipeline N added =
    (fun k => dayStart now (N - 1 - k)) <$> seqZ 0 N /\
  Forall (fun p => exists i, 0 <= i < N /\ (hp_date p, hp_count p) = f i)
         (historyPipeline N added).
Proof.
  intros HN Hf Hmap.
  destruct (snapshots_of_days f added (seqZ 0 N) Hmap) as (Hlen & Hadded & Hdates).
  assert (Hdates' : date <$> added = dayStart now <$> seqZ 0 N).
  { rewrite Hdates. apply list_fmap_ext. intros _ i _. apply Hf. }
  destruct (historyPipeline_latestDays N added HN) as (_ & Hasc & Hlatest & _).
  assert (Hfull : length (historyPipeline N added) = Z.to_nat N).
  { apply historyPipeline_full with (D := dayStart now <$> seqZ 0 N).
    - apply NoDup_dayStart.
    - intros x Hx. now rewrite Hdates'.
    - rewrite length_fmap, length_seqZ. lia. }
  rewrite Forall_forall in Hlatest.
  assert (Hpoint : forall p, p ∈ historyPipeline N added ->
            exists i, 0 <= i < N /\ (hp_date p, hp_count p) = f i).
  { intros p Hp. destruct (Hlatest p Hp) as (d & Hd & Hdate & Hcount & _).
    destruct (Hadded d Hd) as (i & Hi & Hdc). apply elem_of_seqZ in Hi.
    exists i. split; [lia|]. rewrite Hdate, Hcount. exact Hdc. }
  split; [|now apply Forall_forall].
  apply (StronglySorted_unique Z.lt).
  - apply (StronglySorted_fmap _ (fun p q => hp_date p < hp_date q)); [|exact Hasc].
    auto.
  - apply (StronglySorted_fmap _ Z.lt).
    + intros i j Hij. rewrite !dayStart_eq. lia.
    + rewrite <- (Z2Nat.id N) by lia. apply seqZ_ascending.
  - apply submseteq_length_Permutation.
    + apply NoDup_submseteq.
      * apply ascending_NoDup.
        apply (StronglySorted_fmap _ (fun p q => hp_date p < hp_date q)); [|exact Hasc].
        auto.
      * intros x Hx. apply list_elem_of_fmap in Hx as (p & -> & Hp).
        destruct (Hpoint p Hp) as (i & Hi & Hfi).
        apply list_elem_of_fmap. exists (N - 1 - i). split.
        -- apply (f_equal fst) in Hfi. cbn in Hfi. rewrite Hfi, Hf. f_equal. lia.
        -- apply elem_of_seqZ. lia.
    + rewrite !length_fmap, Hfull, length_seqZ. lia.
Qed.

Lemma getDailyTransactionsHistory_run env days s :
  fst (getDailyTransactionsHistory env days s) =
    Ret (if db_fails env (tick s) || (days <=? 0) then []
         else historyPipeline days (dailyTransactions s)).
Proof.
  unfold getDailyTransactionsHistory, aggregateHistory, tryCatch, bind, mongo, call,
    gets, throw, ret.
  destruct (db_fails env (tick s)); [reflexivity|].
  now destruct (days <=? 0).
Qed.

Lemma getWeeklyActiveAddressesHistory_run env days s :
  fst (getWeeklyActiveAddressesHistory env days s) =
    Ret (if db_fails env (tick s) || (days <=? 0) then []
         else historyPipeline days (weeklyActiveAddresses s)).
Proof.
  unfold getWeeklyActiveAddressesHistory, aggregateHistory, tryCatch, bind, mongo, call,
    gets, throw, ret.
  destruct (db_fails env (tick s)); [reflexivity|].
  now destruct (days <=? 0).
Qed.

(** X12.  The two history getters report the latest [days] dates.  When
    MongoDB answers and [days] is positive, the result has at most [days]
    points, one per date, in strictly ascending order of the dates; each
    point carries the count and the timestamp of a stored snapshot that has
    the greatest timestamp among the snapshots of its date; and a stored
    date is missing from the result only when the result is full and all
    its dates are later.  When MongoDB rejects the query, or [days] is not
    positive, the result is the empty list; the getters never throw. *)
Theorem history_reports_latest_days (env : Env) (days : Z) (s : State) :
  (db_fails env (tick s) = false -> 0 < days ->
     (exists points,
         fst (getDailyTransactionsHistory env days s) = Ret points /\
         latestDays days (dailyTransactions s) points) /\
     (exists points,
         fst (getWeeklyActiveAddressesHistory env days s) = Ret points /\
         latestDays days (weeklyActiveAddresses s) points)) /\
  (db_fails env (tick s) = true \/ days <= 0 ->
     fst (getDailyTransactionsHistory env days s) = Ret [] /\
     fst (getWeeklyActiveAddressesHistory env days s) = Ret []).
Proof.
  rewrite getDailyTransactionsHistory_run, getWeeklyActiveAddressesHistory_run.
  split.
  - intros -> Hdays. destruct (Z.leb_spec days 0) as [?|_]; [lia|]. cbn [orb].
    split; eexists; (split; [reflexivity|]); now apply historyPipeline_latestDays.
  - intros [->|Hdays]; [now split|].
    destruct (Z.leb_spec days 0) as [_|?]; [|lia]. rewrite orb_true_r. now split.
Qed.

Lemma history_reports_latest_days_witness :
  exists points,
    fst (getDailyTransactionsHistory idleEnv 2 threeDaysOfSnapshots) = Ret points /\
    latestDays 2 (dailyTransactions threeDaysOfSnapshots) points.
Proof.
  destruct (history_reports_latest_days idleEnv 2 threeDaysOfSnapshots) as [Hup _].
  destruct (Hup eq_refl eq_refl) as [Hdaily _]. exact Hdaily.
Defined.

(** X13.  A backfill fills the history.  After
    [backfillDailyTransactionHistory] for [N] days with MongoDB accepting
    every operation, [getDailyTransactionsHistory] for [N] days returns [N]
    points, whatever was stored before.  On a collection that was empty, the
    points are the [N] days up to today, oldest first, each with the number
    of ActivityEvents of its day.  The same holds for the weekly pair, with
    the distinct active addresses of the eight days up to each day. *)
Theorem backfilled_history_is_complete (env : Env) (N : Z) (s : State) :
  0 < N -> (forall t, db_fails env t = false) ->
  let now := clock env (tick s) in
  (exists points,
      fst (getDailyTransactionsHistory env N
             (snd (backfillDailyTransactionHistory env N s))) = Ret points /\
      length points = Z.to_nat N /\
      (dailyTransactions s = [] ->
         hp_date <$> points = (fun k => dayStart now (N - 1 - k)) <$> seqZ 0 N /\
         Forall (fun p => exists i, 0 <= i < N /\
                   (hp_date p, hp_count p) = dailyCountOf now (addressActivity s) i)
                points)) /\
  (exists points,
      fst (getWeeklyActiveAddressesHistory env N
             (snd (backfillWeeklyActiveAddressHistory env N s))) = Ret points /\
      length points = Z.to_nat N /\
      (weeklyActiveAddresses s = [] ->
         hp_date <$> points = (fun k => dayStart now (N - 1 - k)) <$> seqZ 0 N /\
         Forall (fun p => exists i, 0 <= i < N /\
                   (hp_date p, hp_count p) = weeklyCountOf now (addressActivity s) i)
                points)).
Proof.
  intros HN Hok now. split.
  - destruct (backfillDailyTransactionHistory_run env N s ltac:(lia) Hok)
      as (s1 & added & -> & Hdaily & Hmap).
    cbn [snd]. rewrite getDailyTransactionsHistory_run, Hok.
    destruct (Z.leb_spec N 0) as [?|_]; [lia|]. cbn [orb].
    eexists. split; [reflexivity|].
    destruct (snapshots_of_days _ added (seqZ 0 N) Hmap) as (_ & _ & Hdates).
    split.
    + apply historyPipeline_full with (D := dayStart now <$> seqZ 0 N).
      * apply NoDup_dayStart.
      * intros x Hx. rewrite Hdaily, fmap_app, elem_of_app. right.
        now rewrite Hdates.
      * rewrite length_fmap, length_seqZ. lia.
    + intros Hempty. rewrite Hdaily, Hempty. cbn [app].
      now apply historyPipeline_backfilled.
  - destruct (backfillWeeklyActiveAddressHistory_run env N s ltac:(lia) Hok)
      as (s1 & added & -> & Hweekly & Hmap).
    cbn [snd]. rewrite getWeeklyActiveAddressesHistory_run, Hok.
    destruct (Z.leb_spec N 0) as [?|_]; [lia|]. cbn [orb].
    eexists. split; [reflexivity|].
    destruct (snapshots_of_days _ added (seqZ 0 N) Hmap) as (_ & _ & Hdates).
    split.
    + apply historyPipeline_full with (D := dayStart now <$> seqZ 0 N).
      * apply NoDup_dayStart.
      * intros x Hx. rewrite Hweekly, fmap_app, elem_of_app. right.
        now rewrite Hdates.
      * rewrite length_fmap, length_seqZ. lia.
    + intros Hempty. rewrite Hweekly, Hempty. cbn [app].
      now apply historyPipeline_backfilled.
Qed.

Lemma backfilled_history_witness :
  exists points,
    fst (getDailyTransactionsHistory idleEnv 7
           (snd (backfillDailyTransactionHistory idleEnv 7 threeActiveDays))) = Ret points /\
    length points = 7%nat.
Proof.
  destruct (backfilled_history_is_complete idleEnv 7 threeActiveDays eq_refl
              (fun _ => eq_refl))
    as [(points & Hrun & Hlen & _) _].
  exists points. split; [exact Hrun | exact Hlen].
Defined.

(** ** The details of the active addresses *)

Lemma minimumOf_spec (l : list Z) :
  l <> [] -> minimumOf l ∈ l /\ forall x, x ∈ l -> minimumOf l <= x.
Proof.
  destruct l as [|t rest]; [congruence|]. intros _. cbn [minimumOf].
  induction rest as [|y rest IH]; cbn [foldr].
  - split; [left|]. intros x Hx. apply list_elem_of_singleton in Hx. lia.
  - destruct IH as [Hin Hmin]. split.
    + destruct (Z.min_spec y (foldr Z.min t rest)) as [[_ ->]|[_ ->]].
      * right. left.
      * apply elem_of_cons in Hin as [Hin|Hin]; [rewrite Hin; left | right; now right].
    + intros x Hx.
      assert (Hcases : x = y \/ x ∈ t :: rest).
      { apply elem_of_cons in Hx as [->|Hx]; [right; left|].
        apply elem_of_cons in Hx as [->|Hx]; [now left | right; now right]. }
      destruct Hcases as [->|Hx']; [lia|]. specialize (Hmin x Hx'). lia.
Qed.

Lemma maximumOf_spec (l : list Z) :
  l <> [] -> maximumOf l ∈ l /\ forall x, x ∈ l -> x <= maximumOf l.
Proof.
  destruct l as [|t rest]; [congruence|]. intros _. cbn [maximumOf].
  induction rest as [|y rest IH]; cbn [foldr].
  - split; [left|]. intros x Hx. apply list_elem_of_singleton in Hx. lia.
  - destruct IH as [Hin Hmax]. split.
    + destruct (Z.max_spec y (foldr Z.max t rest)) as [[_ ->]|[_ ->]].
      * apply elem_of_cons in Hin as [Hin|Hin]; [rewrite Hin; left | right; now right].
      * right. left.
    + intros x Hx.
      assert (Hcases : x = y \/ x ∈ t :: rest).
      { apply elem_of_cons in Hx as [->|Hx]; [right; left|].
        apply elem_of_cons in Hx as [->|Hx]; [now left | right; now right]. }
      destruct Hcases as [->|Hx']; [lia|]. specialize (Hmax x Hx'). lia.
Qed.

#[local] Instance busiestFirst_trans : Transitive busiestFirst.
Proof. unfold busiestFirst. intros a b c. lia. Qed.
#[local] Instance busiestFirst_total : Total busiestFirst.
Proof. unfold busiestFirst. intros a b. lia. Qed.

Lemma matched_active now (l : list ActivityEvent) :
  filter (fun e => matchActive (now - 7 * 24 * 60 * 60 * 1000) None e = true) l =
  filter (fun e => now - 604800000 <= act_timestamp e /\
                   (address e ∉ SYSTEM_ADDRESSES)) l.
Proof.
  apply list_filter_iff. intros e. rewrite matchActive_spec.
  replace (now - 7 * 24 * 60 * 60 * 1000) with (now - 604800000) by lia. reflexivity.
Qed.

(** Every event falls into the group of exactly one address. *)
Lemma groups_partition (m : list ActivityEvent) (D : list string) :
  NoDup D -> (forall e, e ∈ m -> address e ∈ D) ->
  foldr Z.add 0 ((fun a => Z.of_nat (length (filter (fun e => address e = a) m))) <$> D) =
  Z.of_nat (length m).
Proof.
  intros Hnd. induction m as [|e m IH]; intros Hin.
  - cbn. clear. induction D as [|a D IH]; cbn; [reflexivity | now rewrite IH].
  - cbn [length]. rewrite Nat2Z.inj_succ, <- IH by (intros x Hx; apply Hin; now right).
    specialize (Hin e ltac:(left)). clear IH.
    induction Hnd as [|a D Ha Hnd IH]; [inversion Hin|].
    rewrite !fmap_cons. cbn [foldr].
    destruct (decide (address e = a)) as [Heq|Hne].
    + rewrite (filter_cons_True (fun x => address x = a)) by exact Heq. cbn [length].
      assert (Hsame :
        (fun a0 => Z.of_nat (length (filter (fun x => address x = a0) (e :: m)))) <$> D =
        (fun a0 => Z.of_nat (length (filter (fun x => address x = a0) m))) <$> D).
      { apply list_fmap_ext. intros i b Hb.
        rewrite (filter_cons_False (fun x => address x = b)); [reflexivity|].
        intros Hb'. apply Ha. rewrite <- Heq, Hb'. eapply list_elem_of_lookup_2, Hb. }
      rewrite Hsame. lia.
    + rewrite (filter_cons_False (fun x => address x = a)) by exact Hne.
      apply elem_of_cons in Hin as [Hin|Hin]; [congruence|].
      specialize (IH Hin). lia.
Qed.

Lemma txCount_total_Permutation (l1 l2 : list AddressDetail) :
  l1 ≡ₚ l2 -> foldr Z.add 0 (txCount <$> l1) = foldr Z.add 0 (txCount <$> l2).
Proof. induction 1; cbn in *; lia. Qed.

(** What the pipeline of [getWeeklyActiveAddressDetails] computes. *)
Lemma addressDetailsPipeline_spec now (l : list ActivityEvent) :
  let rows := addressDetailsPipeline (now - 7 * 24 * 60 * 60 * 1000) l in
  NoDup (ad_address <$> rows) /\
  (forall a, a ∈ ad_address <$> rows <-> a ∈ distinctActiveAddresses now l) /\
  length rows = size (distinctActiveAddresses now l) /\
  StronglySorted (fun r r' => txCount r' <= txCount r) rows /\
  Forall (summarises now l) rows /\
  foldr Z.add 0 (txCount <$> rows) =
    Z.of_nat (length (filter (fun e => now - 604800000 <= act_timestamp e /\
                                       (address e ∉ SYSTEM_ADDRESSES)) l)).
Proof.
  cbv zeta. unfold addressDetailsPipeline. rewrite matched_active.
  set (matched := filter _ l).
  set (D := groupByAddress matched).
  assert (Hperm : merge_sort busiestFirst (detailOf matched <$> D) ≡ₚ detailOf matched <$> D)
    by apply merge_sort_Permutation.
  assert (Haddr : ad_address <$> (detailOf matched <$> D) = D).
  { rewrite <- list_fmap_compose. rewrite <- (list_fmap_id D) at 2.
    apply list_fmap_ext. reflexivity. }
  assert (HD : forall a, a ∈ D <-> a ∈ distinctActiveAddresses now l).
  { intros a. unfold D, groupByAddress. rewrite elem_of_remove_dups, list_elem_of_fmap.
    rewrite elem_of_distinctActiveAddresses. unfold matched. split.
    - intros (e & -> & He). apply list_elem_of_filter in He as [[Hts Hsys] He]. eauto.
    - intros (Hsys & e & He & <- & Hts). exists e. split; [reflexivity|].
      apply list_elem_of_filter. auto. }
  split; [|split; [|split; [|split; [|split]]]].
  - rewrite Hperm, Haddr. apply NoDup_remove_dups.
  - intros a. now rewrite Hperm, Haddr.
  - rewrite Hperm, length_fmap. apply Nat2Z.inj.
    rewrite <- uniqueAddressesPipeline_size. unfold uniqueAddressesPipeline.
    rewrite firstCount_countStage, matched_active. reflexivity.
  - apply (StronglySorted_merge_sort busiestFirst).
  - rewrite Forall_forall. intros r Hr. rewrite Hperm in Hr.
    apply list_elem_of_fmap in Hr as (a & -> & Ha).
    unfold summarises, activeEventsOf. cbn [ad_address detailOf txCount firstSeen lastSeen].
    fold matched. set (group := filter (fun e => address e = a) matched).
    assert (Hne : group <> []).
    { unfold D, groupByAddress in Ha.
      apply elem_of_remove_dups, list_elem_of_fmap in Ha as (e & -> & He).
      intros Hempty.
      assert (Hin : e ∈ group) by (apply list_elem_of_filter; auto).
      rewrite Hempty in Hin. inversion Hin. }
    assert (Hne' : act_timestamp <$> group <> []) by (destruct group; [congruence | discriminate]).
    destruct (minimumOf_spec _ Hne') as [Hmin_in Hmin].
    destruct (maximumOf_spec _ Hne') as [Hmax_in Hmax].
    split; [reflexivity|]. split; [destruct group; [congruence | cbn; lia]|].
    split; [|split].
    + intros e He.
      assert (Hts : act_timestamp e ∈ act_timestamp <$> group)
        by now apply list_elem_of_fmap_2.
      specialize (Hmin _ Hts). specialize (Hmax _ Hts). lia.
    + apply list_elem_of_fmap in Hmin_in as (e & Heq & He). eauto.
    + apply list_elem_of_fmap in Hmax_in as (e & Heq & He). eauto.
  - rewrite (txCount_total_Permutation _ _ Hperm), <- list_fmap_compose.
    apply (groups_partition matched D).
    + apply NoDup_remove_dups.
    + intros e He. unfold D, groupByAddress.
      apply elem_of_remove_dups. now apply list_elem_of_fmap_2.
Qed.

(** X14.  [getWeeklyActiveAddressDetails] lists the addresses that
    [calculateWeeklyActiveAddresses] counts.  When MongoDB answers, the rows
    carry each distinct non-system address of the last seven days exactly
    once, so their number is the weekly count; the rows are ordered by
    descending [txCount]; each row counts the events of its address in the
    window, at least one, and [firstSeen] and [lastSeen] are the least and
    the greatest of their timestamps; and the counts add up to the number
    of events in the window.  When MongoDB rejects the query the result is
    the empty list. *)
Theorem address_details_list_the_counted_addresses (env : Env) (s : State) :
  let now := clock env (tick s) in
  let l := addressActivity s in
  (db_fails env (tick s) = false ->
   exists rows,
     fst (getWeeklyActiveAddressDetails env s) = Ret rows /\
     NoDup (ad_address <$> rows) /\
     (forall a, a ∈ ad_address <$> rows <-> a ∈ distinctActiveAddresses now l) /\
     fst (calculateWeeklyActiveAddresses env s) = Ret (Z.of_nat (length rows)) /\
     StronglySorted (fun r r' => txCount r' <= txCount r) rows /\
     Forall (summarises now l) rows /\
     foldr Z.add 0 (txCount <$> rows) =
       Z.of_nat (length (filter (fun e => now - 604800000 <= act_timestamp e /\
                                          (address e ∉ SYSTEM_ADDRESSES)) l))) /\
  (db_fails env (tick s) = true -> fst (getWeeklyActiveAddressDetails env s) = Ret []).
Proof.
  cbv zeta. split; intros Hdb.
  - rewrite (calculateWeeklyActiveAddresses_run env s Hdb).
    unfold getWeeklyActiveAddressDetails, tryCatch, bind, dateNow, mongo, call, gets.
    rewrite Hdb. cbn [fst addressActivity record]. eexists. split; [reflexivity|].
    destruct (addressDetailsPipeline_spec (clock env (tick s)) (addressActivity s))
      as (Hnd & Hin & Hlen & Hsorted & Hall & Hsum).
    rewrite Hlen. auto 10.
  - unfold getWeeklyActiveAddressDetails, tryCatch, bind, dateNow, mongo, call, gets.
    now rewrite Hdb.
Qed.

Lemma address_details_witness :
  exists rows,
    fst (getWeeklyActiveAddressDetails idleEnv weekOfActivity) = Ret rows /\
    fst (calculateWeeklyActiveAddresses idleEnv weekOfActivity) =
      Ret (Z.of_nat (length rows)) /\
    foldr Z.add 0 (txCount <$> rows) = 3.
Proof.
  destruct (address_details_list_the_counted_addresses idleEnv weekOfActivity)
    as [Hup _].
  destruct (Hup eq_refl) as (rows & Hrun & _ & _ & Hcount & _ & _ & Hsum).
  exists rows. split; [exact Hrun|]. split; [exact Hcount|].
  rewrite Hsum. vm_compute. reflexivity.
Defined.

(** ** Unique hashes *)

Lemma amountsFilled_txHash s0 s :
  amountsFilled s0 s -> txHash <$> bridgeActivity s = txHash <$> bridgeActivity s0.
Proof.
  intros [Hlen Hs]. apply list_eq. intros i. rewrite !list_lookup_fmap.
  destruct (bridgeActivity s0 !! i) as [b|] eqn:Hb.
  - destruct (Hs i b Hb) as (b' & -> & [->|(_ & _ & v & _ & ->)]); reflexivity.
  - apply lookup_ge_None in Hb. rewrite <- Hlen in Hb. apply lookup_ge_None in Hb.
    now rewrite Hb.
Qed.

(** X15.  The two bridge backfills keep the hashes of the BridgeEvents
    unique.  [backfillBridgeActivity] inserts a BridgeEvent only for a hash
    that it did not find, and [backfillDepositAmounts] changes no hash, so a
    collection without duplicate [txHash] has none afterwards, whatever
    fails on the way and however often a range is replayed. *)
Theorem bridge_backfills_keep_txHash_unique (env : Env) (s : State) :
  uniqueTxHash s ->
  uniqueTxHash (snd (backfillBridgeActivity env s)) /\
  uniqueTxHash (snd (backfillDepositAmounts env s)) /\
  txHash <$> bridgeActivity (snd (backfillDepositAmounts env s)) =
    txHash <$> bridgeActivity s.
Proof.
  intros Hs.
  pose proof (amountsFilled_txHash _ _ (amountsFilled_backfillDepositAmounts env s)) as Hsame.
  split; [|split; [|exact Hsame]].
  - apply keeps_here; [|exact Hs].
    apply keeps_backfillBridgeActivity; [apply uniqueTxHash_stable|].
    intros i ts h _. apply unique_backfillTransaction.
  - unfold uniqueTxHash. now rewrite Hsame.
Qed.

Lemma bridge_backfills_keep_txHash_unique_witness :
  uniqueTxHash
    (snd (backfillBridgeActivity (oneBlockChain depositTx dbUp)
            (snd (backfillBridgeActivity (oneBlockChain depositTx dbUp) emptyState)))).
Proof.
  apply bridge_backfills_keep_txHash_unique.
  apply bridge_backfills_keep_txHash_unique.
  apply NoDup_nil_2.
Defined.

(** ** Today's snapshot and the live counts *)

Lemma one_snapshot (f : Z -> Z * Z) (added : list Snapshot) :
  dateAndCount <$> added = f <$> seqZ 0 1 ->
  exists d, added = [d] /\ date d = fst (f 0) /\ count d = snd (f 0).
Proof.
  change (seqZ 0 1) with [0]. intros Hmap.
  destruct added as [|d [|d' added]]; try discriminate.
  exists d. split; [reflexivity|]. cbn in Hmap. injection Hmap as Hd.
  rewrite <- Hd. split; reflexivity.
Qed.

Lemma matchActive_window gte lt e :
  matchActive gte (Some lt) e = true <->
  gte <= act_timestamp e < lt /\ (address e ∉ SYSTEM_ADDRESSES).
Proof.
  unfold matchActive.
  rewrite !andb_true_iff, negb_true_iff, bool_decide_eq_false, Z.leb_le, Z.ltb_lt.
  tauto.
Qed.

Lemma startOfDay_le t : startOfDay t <= t.
Proof.
  unfold startOfDay, DAY_MS.
  pose proof (Z.mod_pos_bound t (24 * 60 * 60 * 1000) ltac:(lia)). lia.
Qed.

(** X16.  Today's backfilled snapshot against the live counts.  With
    MongoDB accepting every operation, the daily snapshot that a one-day
    backfill writes carries the count that [calculateDailyTransactions]
    returns.  The weekly snapshot does not follow
    [calculateWeeklyActiveAddresses]: its window starts seven calendar days
    before today's midnight instead of 168 hours before now, so, with no
    event dated after today, it counts every address that the live count
    has, and possibly more. *)
Theorem backfilled_today_versus_live_counts (env : Env) (s : State) :
  (forall t, db_fails env t = false) ->
  let now := clock env (tick s) in
  (exists d,
      dailyTransactions (snd (backfillDailyTransactionHistory env 1 s)) =
        dailyTransactions s ++ [d] /\
      date d = startOfDay now /\
      fst (calculateDailyTransactions env s) = Ret (count d)) /\
  (exists d,
      weeklyActiveAddresses (snd (backfillWeeklyActiveAddressHistory env 1 s)) =
        weeklyActiveAddresses s ++ [d] /\
      date d = startOfDay now /\
      count d =
        Z.of_nat (length (remove_dups
          (address <$> filter (fun e => startOfDay now - 604800000 <= act_timestamp e
                                          < startOfDay now + 86400000 /\
                                        (address e ∉ SYSTEM_ADDRESSES))
                         (addressActivity s)))) /\
      ((forall e, e ∈ addressActivity s -> act_timestamp e < startOfDay now + 86400000) ->
       exists live,
         fst (calculateWeeklyActiveAddresses env s) = Ret live /\ live <= count d)).
Proof.
  intros Hok now. split.
  - destruct (backfillDailyTransactionHistory_run env 1 s ltac:(lia) Hok)
      as (s1 & added & -> & Hdaily & Hmap).
    destruct (one_snapshot _ _ Hmap) as (d & -> & Hdate & Hcount).
    exists d. split; [exact Hdaily|]. cbn [fst snd dailyCountOf] in Hdate, Hcount.
    fold now in Hdate, Hcount. rewrite dayStart_eq in Hdate, Hcount.
    split; [rewrite Hdate; lia|].
    rewrite calculateDailyTransactions_run, Hok. cbn [fst]. fold now.
    rewrite Hcount. unfold addDays, DAY_MS. do 2 f_equal; lia.
  - destruct (backfillWeeklyActiveAddressHistory_run env 1 s ltac:(lia) Hok)
      as (s1 & added & -> & Hweekly & Hmap).
    destruct (one_snapshot _ _ Hmap) as (d & -> & Hdate & Hcount).
    exists d. split; [exact Hweekly|]. cbn [fst snd weeklyCountOf] in Hdate, Hcount.
    fold now in Hdate, Hcount. rewrite dayStart_eq in Hdate, Hcount.
    replace (startOfDay now - 0 * 86400000) with (startOfDay now) in * by lia.
    split; [exact Hdate|].
    unfold uniqueAddressesPipeline, groupByAddress in Hcount.
    rewrite firstCount_countStage in Hcount.
    assert (Hwindow :
      filter (fun e => matchActive (startOfDay now - 7 * 86400000)
                         (Some (startOfDay now + 86400000)) e = true) (addressActivity s) =
      filter (fun e => startOfDay now - 604800000 <= act_timestamp e
                         < startOfDay now + 86400000 /\
                       (address e ∉ SYSTEM_ADDRESSES)) (addressActivity s)).
    { apply list_filter_iff. intros e. rewrite matchActive_window.
      replace (startOfDay now - 7 * 86400000) with (startOfDay now - 604800000) by lia.
      reflexivity. }
    rewrite Hwindow in Hcount. split; [exact Hcount|].
    intros Hpast. rewrite (calculateWeeklyActiveAddresses_run env s (Hok _)).
    eexists. split; [reflexivity|]. fold now. rewrite Hcount.
    rewrite <- uniqueAddressesPipeline_size. unfold uniqueAddressesPipeline, groupByAddress.
    rewrite firstCount_countStage, matched_active.
    apply inj_le, submseteq_length, NoDup_submseteq; [apply NoDup_remove_dups|].
    intros a. rewrite !elem_of_remove_dups, !list_elem_of_fmap.
    intros (e & -> & He). exists e. split; [reflexivity|].
    apply list_elem_of_filter in He as [[Hts Hsys] He].
    apply list_elem_of_filter. split; [|exact He].
    pose proof (startOfDay_le now). specialize (Hpast e He). split; [lia | exact Hsys].
Qed.

Lemma backfilled_today_versus_live_witness :
  fst (calculateWeeklyActiveAddresses idleEnv lateLastWeek) = Ret 0 /\
  count <$> weeklyActiveAddresses
              (snd (backfillWeeklyActiveAddressHistory idleEnv 1 lateLastWeek)) = [1].
Proof.
  destruct (backfilled_today_versus_live_counts idleEnv lateLastWeek (fun _ => eq_refl))
    as [_ (d & Hweekly & _ & Hcount & _)].
  split; [vm_compute; reflexivity|].
  rewrite Hweekly. change (weeklyActiveAddresses lateLastWeek) with (@nil Snapshot).
  rewrite app_nil_l, list_fmap_singleton, Hcount. vm_compute. reflexivity.
Defined.

(** ** A missing RPC endpoint *)

(** X17.  Without an RPC endpoint in the settings, ingestion does nothing
    and says nothing: [processNewBlocks] returns 0 and an enabled
    [backfillBridgeActivity] returns zeros, neither sends a request or
    changes the state, while [getBlockNumber] and [getBlock] throw. *)
Theorem missing_endpoint_makes_ingestion_a_no_op (env : Env) (s : State) :
  rpcEndpoint (settings env) = None ->
  processNewBlocks env s = (Ret 0, s) /\
  backfillBridgeActivity env s = (Ret nothingScanned, s) /\
  getBlockNumber env s = (Throw ErrConfig, s) /\
  forall i, getBlock env i s = (Throw ErrConfig, s).
Proof.
  intros Hnone. repeat split.
  - unfold processNewBlocks, tryCatch, bind, getProvider. now rewrite Hnone.
  - unfold backfillBridgeActivity, tryCatch.
    destruct (backfill_bridgeActivity (settings env)) as [cfg|]; [|reflexivity].
    destruct (negb (enabled cfg)); [reflexivity|].
    destruct (blockCount cfg =? 0); [reflexivity|].
    unfold bind, getProvider. now rewrite Hnone.
  - unfold getBlockNumber, bind, getProvider. now rewrite Hnone.
  - intros i. unfold getBlock, bind, getProvider. now rewrite Hnone.
Qed.

Lemma missing_endpoint_witness :
  processNewBlocks unconfigured emptyState = (Ret 0, emptyState) /\
  backfillBridgeActivity unconfigured emptyState = (Ret nothingScanned, emptyState).
Proof.
  destruct (missing_endpoint_makes_ingestion_a_no_op unconfigured emptyState eq_refl)
    as (Hscan & Hbackfill & _).
  split; [exact Hscan | exact Hbackfill].
Defined.

(** ** Worked cases *)

Lemma fetchDepositAmount_witness :
  fst (fetchDepositAmount depositScenario "tx100" emptyState) = Ret 1000000000000000000.
Proof.
  destruct (fetchDepositAmount_first_zero_address_transfer depositScenario "tx100" emptyState)
    as (_ & Hfirst & _).
  eapply (Hfirst _ [] (mkInternalTx (Some ZERO_ADDRESS) (Some 1000000000000000000)) []);
    [reflexivity | reflexivity | reflexivity | constructor | reflexivity | reflexivity].
Defined.

Lemma getTodayTransactions_witness :
  fst (updateDailyTransactionCount idleEnv threeActiveDays) = Ret 1 /\
  fst (getTodayTransactions (chainEnv NOW 0 [] [] dbDown) threeActiveDays) = Throw ErrDb.
Proof.
  destruct (getTodayTransactions_by_database_outcome idleEnv threeActiveDays)
    as [Hup _].
  destruct (getTodayTransactions_by_database_outcome (chainEnv NOW 0 [] [] dbDown)
              threeActiveDays) as (_ & _ & Hdown).
  split.
  - destruct (Hup eq_refl) as (_ & _ & Hcount). rewrite Hcount. vm_compute. reflexivity.
  - destruct (Hdown eq_refl eq_refl) as [Hthrow _]. exact Hthrow.
Defined.

Lemma updateWeeklyActiveAddresses_witness :
  fst (updateWeeklyActiveAddresses (chainEnv NOW 0 [] [] dbDown) weekOfActivity) =
    Throw ErrDb.
Proof.
  destruct (updateWeeklyActiveAddresses_one_snapshot (chainEnv NOW 0 [] [] dbDown)
              weekOfActivity) as (_ & _ & _ & _ & Hdown & _).
  apply Hdown. reflexivity.
Defined.

(** ** Snapshot writers *)

Lemma appendsDailyOnly_intro {A : Type} (m : M A) :
  (forall I : State -> Prop,
     (forall r s, I s -> I (record r s)) ->
     (forall f s, I s -> I (set_locals f s)) ->
     (forall d s, I s -> I (set_dailyTransactions (dailyTransactions s ++ [d]) s)) ->
     keeps I m) ->
  appendsDailyOnly m.
Proof.
  intros Hm s.
  apply (keeps_here
           (fun x => sameEvents s x /\ ethPriceCache x = ethPriceCache s /\
                     weeklyActiveAddresses x = weeklyActiveAddresses s /\
                     exists D, dailyTransactions x = dailyTransactions s ++ D) m s).
  - apply Hm.
    + intros r x Hx. exact Hx.
    + intros f x Hx. exact Hx.
    + intros d x (He & Hc & Hw & D & HD). split; [exact He|]. split; [exact Hc|].
      split; [exact Hw|]. exists (D ++ [d]). cbn. now rewrite HD, app_assoc.
  - repeat split. exists []. now rewrite app_nil_r.
Qed.

Lemma appendsWeeklyOnly_intro {A : Type} (m : M A) :
  (forall I : State -> Prop,
     (forall r s, I s -> I (record r s)) ->
     (forall f s, I s -> I (set_locals f s)) ->
     (forall d s, I s -> I (set_weeklyActiveAddresses (weeklyActiveAddresses s ++ [d]) s)) ->
     keeps I m) ->
  appendsWeeklyOnly m.
Proof.
  intros Hm s.
  apply (keeps_here
           (fun x => sameEvents s x /\ ethPriceCache x = ethPriceCache s /\
                     dailyTransactions x = dailyTransactions s /\
                     exists W, weeklyActiveAddresses x = weeklyActiveAddresses s ++ W) m s).
  - apply Hm.
    + intros r x Hx. exact Hx.
    + intros f x Hx. exact Hx.
    + intros d x (He & Hc & Hd & W & HW). split; [exact He|]. split; [exact Hc|].
      split; [exact Hd|]. exists (W ++ [d]). cbn. now rewrite HW, app_assoc.
  - repeat split. exists []. now rewrite app_nil_r.
Qed.

(** X18.  The snapshot writers only append snapshots, each to its own
    collection.  [getTodayTransactions], [updateDailyTransactionCount] and
    [backfillDailyTransactionHistory] leave the events, the weekly snapshots
    and the cached price as they are and keep every stored daily snapshot in
    place; [getWeeklyActiveAddresses] and
    [backfillWeeklyActiveAddressHistory] do the same with the roles of the
    two snapshot collections exchanged.  This holds for every outcome, a
    backfill that MongoDB interrupts included. *)
Theorem snapshot_writers_only_append (env : Env) (days : Z) :
  appendsDailyOnly (getTodayTransactions env) /\
  appendsDailyOnly (updateDailyTransactionCount env) /\
  appendsDailyOnly (backfillDailyTransactionHistory env days) /\
  appendsWeeklyOnly (getWeeklyActiveAddresses env) /\
  appendsWeeklyOnly (backfillWeeklyActiveAddressHistory env days).
Proof.
  split; [|split; [|split; [|split]]].
  - apply appendsDailyOnly_intro. intros I Hr Hl Hd.
    apply frame_getTodayTransactions; assumption.
  - apply appendsDailyOnly_intro. intros I Hr Hl Hd.
    apply frame_updateDailyTransactionCount; assumption.
  - apply appendsDailyOnly_intro. intros I Hr Hl Hd.
    apply frame_backfillDailyTransactionHistory; assumption.
  - apply appendsWeeklyOnly_intro. intros I Hr Hl Hw.
    apply frame_getWeeklyActiveAddresses; assumption.
  - apply appendsWeeklyOnly_intro. intros I Hr Hl Hw.
    apply frame_backfillWeeklyActiveAddressHistory; assumption.
Qed.

(** * The resume point of the incremental scan, and the blocks it requests *)

Lemma fold_newer_elem l : forall best m,
  fold_left newer l best = Some m -> best = Some m \/ m ∈ l.
Proof.
  induction l as [|e l IH]; intros best m Hm; cbn [fold_left] in Hm; [now left|].
  destruct (IH _ _ Hm) as [Hbest|Hin]; [|right; now right].
  unfold newer in Hbest. destruct best as [b|].
  - destruct (_ <? _); injection Hbest as <-; [right; left | now left].
  - injection Hbest as <-. right. left.
Qed.

Lemma lastByBlockNumber_elem l m : lastByBlockNumber l = Some m -> m ∈ l.
Proof.
  intros Hm. destruct (fold_newer_elem l None m Hm) as [Hnone|Hin];
    [discriminate | exact Hin].
Qed.

(** [startBlockOf] computes the resume point. *)
Lemma resumePoint_startBlockOf l head first :
  resumePoint l head first <-> first = startBlockOf (lastByBlockNumber l) head.
Proof.
  split.
  - intros [(newest & Hin & Hmax & ->)|[-> ->]]; [|reflexivity].
    destruct (lastByBlockNumber_max l newest Hin) as (m & Hm & Hle).
    rewrite Hm. cbn [startBlockOf]. specialize (Hmax m (lastByBlockNumber_elem l m Hm)). lia.
  - intros ->. destruct (lastByBlockNumber l) as [m|] eqn:Hm.
    + left. exists m. split; [now apply lastByBlockNumber_elem|]. split; [|reflexivity].
      intros a Ha. destruct (lastByBlockNumber_max l a Ha) as (m' & Hm' & Hle).
      congruence.
    + right. split; [|reflexivity]. destruct l as [|e l]; [reflexivity|].
      destruct (lastByBlockNumber_max (e :: l) e ltac:(left)) as (m' & Hm' & _). congruence.
Qed.

Lemma blockRequests_record r l :
  blockRequests (l ++ [r]) =
    blockRequests l ++ match r with ReqBlock i => [i] | _ => [] end.
Proof. unfold blockRequests. rewrite omap_app. f_equal. now destruct r. Qed.

(** A transaction step requests no block. *)
Lemma blockRequests_processTransaction env L i ts h :
  keeps (fun x => blockRequests (trace x) = L) (processTransaction env i ts h).
Proof.
  set (I := fun x : State => blockRequests (trace x) = L).
  assert (H1 : forall k x, I x -> I (record (ReqTransaction k) x))
    by (intros k x Hx; unfold I in *; cbn; now rewrite blockRequests_record, Hx, app_nil_r).
  assert (H2 : forall k x, I x -> I (record (ReqReceipt k) x))
    by (intros k x Hx; unfold I in *; cbn; now rewrite blockRequests_record, Hx, app_nil_r).
  assert (H3 : forall k x, I x -> I (record (ReqInternalTxs k) x))
    by (intros k x Hx; unfold I in *; cbn; now rewrite blockRequests_record, Hx, app_nil_r).
  assert (H4 : forall x, I x -> I (record ReqDb x))
    by (intros x Hx; unfold I in *; cbn; now rewrite blockRequests_record, Hx, app_nil_r).
  assert (H5 : forall f x, I x -> I (set_locals f x)) by (intros f x Hx; exact Hx).
  assert (H6 : forall l x, I x -> I (set_addressActivity l x)) by (intros l x Hx; exact Hx).
  assert (H7 : forall l x, I x -> I (set_bridgeActivity l x)) by (intros l x Hx; exact Hx).
  frame.
Qed.

Lemma neverThrows_processTransaction env i ts h :
  neverThrows (processTransaction env i ts h).
Proof. apply neverThrows_tryCatch. intros e. apply neverThrows_ret. Qed.

(** A block step requests its block and no other; it throws when that
    request does, and only then. *)
Lemma processBlock_requests env url i x :
  rpcEndpoint (settings env) = Some url ->
  blockRequests (trace (snd (processBlock env i x))) = blockRequests (trace x) ++ [i] /\
  (returns (fst (processBlock env i x)) = true <->
   exists b, rpc_getBlock env (tick x) i = Ret b).
Proof.
  intros Hurl.
  assert (Heq : processBlock env i x =
            match rpc_getBlock env (tick x) i with
            | Ret (Some block) =>
                bind (blockDate env block)
                  (fun ts => forEach (transactions block) (processTransaction env i ts))
                  (record (ReqBlock i) x)
            | Ret None => (Ret tt, record (ReqBlock i) x)
            | Throw e => (Throw e, record (ReqBlock i) x)
            end).
  { unfold processBlock, getBlock, bind at 1, bind at 1, getProvider. rewrite Hurl.
    unfold ret at 1, provider_getBlock, call.
    now destruct (rpc_getBlock env (tick x) i) as [[block|]|e]. }
  rewrite Heq. clear Heq.
  assert (Hrecord : blockRequests (trace (record (ReqBlock i) x)) =
                    blockRequests (trace x) ++ [i])
    by (cbn; now rewrite blockRequests_record).
  destruct (rpc_getBlock env (tick x) i) as [[block|]|e].
  - assert (Hloop : forall ts,
              let out := forEach (transactions block) (processTransaction env i ts)
                           (record (ReqBlock i) x) in
              blockRequests (trace (snd out)) = blockRequests (trace x) ++ [i] /\
              returns (fst out) = true).
    { intros ts. split.
      - apply (keeps_here (fun y => blockRequests (trace y) = blockRequests (trace x) ++ [i]));
          [|exact Hrecord].
        apply keeps_forEach. intros h _. apply blockRequests_processTransaction.
      - apply neverThrows_forEach. intros h. apply neverThrows_processTransaction. }
    unfold blockDate, bind, dateNow, ret.
    destruct (blk_timestamp block =? 0);
      match goal with
      | |- context [forEach _ (processTransaction env i ?ts) _] =>
          destruct (Hloop ts) as [Hreq Hret]
      end;
      (split; [exact Hreq|]); (split; [eauto | intros _; exact Hret]).
  - split; [exact Hrecord|]. split; [eauto | reflexivity].
  - split; [exact Hrecord|]. split; [discriminate | intros [b Hb]; discriminate].
Qed.

(** The loop over the heights [l] requests a prefix of [l]: all of it when
    every request is answered, and at least the first height. *)
Lemma scan_requests env url l :
  rpcEndpoint (settings env) = Some url ->
  forall x,
    exists k,
      blockRequests (trace (snd (forEach l (processBlock env) x))) =
        blockRequests (trace x) ++ take k l /\
      (l <> [] -> (1 <= k)%nat) /\
      ((forall t i, exists b, rpc_getBlock env t i = Ret b) -> k = length l).
Proof.
  intros Hurl. induction l as [|i l IH]; intros x.
  - exists 0%nat. cbn. rewrite app_nil_r. repeat split; congruence.
  - destruct (processBlock_requests env url i x Hurl) as [Hreq Hret].
    cbn [forEach]. unfold bind.
    destruct (processBlock env i x) as [[u|e] x1] eqn:Hblock; cbn [fst snd] in *.
    + destruct (IH x1) as (k & Hk & _ & Hall). exists (S k).
      rewrite Hk, Hreq, <- app_assoc. cbn [take app]. split; [reflexivity|].
      split; [lia|]. intros Hanswered. cbn [length]. now rewrite (Hall Hanswered).
    + exists 1%nat. cbn [snd take]. rewrite Hreq. destruct l; cbn [take].
      * split; [reflexivity|]. split; [lia|]. reflexivity.
      * split; [reflexivity|]. split; [lia|]. intros Hanswered.
        destruct Hret as [_ Hret]. specialize (Hret (Hanswered _ _)). discriminate.
Qed.

(** The blocks that a scan requests, from the height that [startBlockOf]
    computes. *)
Lemma processNewBlocks_requests env url s head :
  rpcEndpoint (settings env) = Some url ->
  rpc_getBlockNumber env (tick s) = Ret head ->
  db_fails env (S (tick s)) = false ->
  let first := startBlockOf (lastByBlockNumber (addressActivity s)) head in
  exists k,
    blockRequests (trace (snd (processNewBlocks env s))) =
      blockRequests (trace s) ++ take k (seqZ first (head - first + 1)) /\
    (first <= head -> (1 <= k)%nat) /\
    ((forall t i, exists b, rpc_getBlock env t i = Ret b) ->
     k = Z.to_nat (head - first + 1)).
Proof.
  intros Hurl Hhead Hdb first.
  set (x0 := set_locals (fun _ => noLocals) (record ReqDb (record ReqBlockNumber s))).
  assert (Hx0 : blockRequests (trace x0) = blockRequests (trace s)).
  { cbn. now rewrite !blockRequests_record, !app_nil_r. }
  assert (Hrun : snd (processNewBlocks env s) =
            if head <? first then record ReqDb (record ReqBlockNumber s)
            else snd (forEach (seqZ first (head - first + 1)) (processBlock env) x0)).
  { unfold processNewBlocks, tryCatch, bind at 1, getProvider. rewrite Hurl.
    unfold ret at 1, bind at 1, provider_getBlockNumber, call at 1. rewrite Hhead.
    unfold bind at 1, AddressActivity_findLast, bind at 1, mongo, call at 1.
    rewrite tick_S, Hdb. unfold gets at 1. cbn [addressActivity record].
    fold first. destruct (head <? first); [reflexivity|].
    unfold bind at 1, setLocals, modify. fold x0. unfold bind at 1.
    now destruct (forEach _ (processBlock env) x0) as [[u|e] x1]. }
  rewrite Hrun. destruct (Z.ltb_spec head first) as [Hlt|Hge].
  - exists 0%nat. cbn [take]. rewrite app_nil_r. split.
    + cbn. now rewrite !blockRequests_record, !app_nil_r.
    + split; [lia|]. intros _. lia.
  - destruct (scan_requests env url (seqZ first (head - first + 1)) Hurl x0)
      as (k & Hk & Hfirst & Hall).
    exists k. rewrite Hk, Hx0. split; [reflexivity|]. split.
    + intros _. apply Hfirst. rewrite seqZ_cons by lia. discriminate.
    + intros Hanswered. rewrite (Hall Hanswered). apply length_seqZ.
Qed.

(** An invariant that the transaction steps of the scanned blocks keep is
    kept by the scan. *)
Lemma keeps_processNewBlocks_scanned env s (I : State -> Prop) :
  stable I -> I s ->
  (forall head i ts h,
      rpc_getBlockNumber env (tick s) = Ret head ->
      startBlockOf (lastByBlockNumber (addressActivity s)) head <= i <= head ->
      listed env i h ->
      keeps I (processTransaction env i ts h)) ->
  I (snd (processNewBlocks env s)).
Proof.
  intros Hst Hs Htx.
  assert (Hrecord : forall r, I (record r s))
    by (intros r; eapply Hst; [apply sameEvents_record | exact Hs]).
  assert (H : hoare (fun x => x = s) (processNewBlocks env) (fun _ => I) I).
  2:{ specialize (H s eq_refl). now destruct (processNewBlocks env s) as [[n|e] s1]. }
  unfold processNewBlocks, provider_getBlockNumber.
  eapply hoare_tryCatch with (E' := I); [|intros; apply keeps_ret].
  eapply hoare_bind with (R := fun _ x => x = s).
  { unfold getProvider. destruct (rpcEndpoint (settings env)).
    - now apply hoare_ret.
    - apply hoare_throw. now intros x ->. }
  intros _.
  eapply hoare_bind with
    (R := fun head x =>
            (I x /\ addressActivity x = addressActivity s) /\
            rpc_getBlockNumber env (tick s) = Ret head).
  { apply hoare_call.
    - intros x head -> Hhead. repeat split; [apply Hrecord | exact Hhead].
    - intros x ->. apply Hrecord. }
  intros head. apply hoare_pure. intros Hhead.
  eapply hoare_bind with
    (R := fun lastActivity x =>
            I x /\ lastActivity = lastByBlockNumber (addressActivity s)).
  { unfold AddressActivity_findLast.
    eapply hoare_bind with (R := fun _ x => I x /\ addressActivity x = addressActivity s).
    - apply hoare_call.
      + intros x u [Hx Hsame] _. split; [|exact Hsame].
        eapply Hst; eauto using sameEvents_record.
      + intros x [Hx _]. eapply Hst; eauto using sameEvents_record.
    - intros u. apply hoare_gets. intros x [Hx Hsame]. now rewrite Hsame. }
  intros lastActivity. apply hoare_pure. intros ->.
  set (startBlock := startBlockOf _ head).
  destruct (head <? startBlock); [apply keeps_ret|].
  apply keeps_bind; [now apply keeps_setLocals|]. intros _.
  apply keeps_bind; [|intros; apply keeps_ret].
  apply keeps_forEach. intros i Hi. apply elem_of_seqZ in Hi.
  apply keeps_processBlock; [exact Hst|]. intros ts h Hlisted.
  apply (Htx head); [exact Hhead | fold startBlock; lia | exact Hlisted].
Qed.

(** C3, amended.  The incremental scan has no cursor of its own: it resumes
    one block above the newest persisted ActivityEvent, and 100 blocks below
    the head, but not below 0, when no ActivityEvent is persisted.  From
    there it requests the blocks up to the head in ascending order, at least
    the first one, and all of them when the node answers every request; every
    requested block lies above every persisted ActivityEvent.  The
    ActivityEvents that a scan appends carry heights between the resume
    point and the head.  A block with no transactions, or whose transaction
    fetches all fail, records nothing; when every block between the resume
    point and the head is such a block, the scan leaves the collections, and
    with them the resume point of the next scan, unchanged. *)
Theorem resume_point_follows_recorded_activity (env : Env) (s : State) :
  let s' := snd (processNewBlocks env s) in
  (forall url head first,
      rpcEndpoint (settings env) = Some url ->
      rpc_getBlockNumber env (tick s) = Ret head ->
      db_fails env (S (tick s)) = false ->
      resumePoint (addressActivity s) head first ->
      exists k,
        blockRequests (trace s') =
          blockRequests (trace s) ++ take k (seqZ first (head - first + 1)) /\
        (first <= head -> (1 <= k)%nat) /\
        ((forall t i, exists b, rpc_getBlock env t i = Ret b) ->
         k = Z.to_nat (head - first + 1)) /\
        (forall a i, a ∈ addressActivity s ->
           i ∈ take k (seqZ first (head - first + 1)) -> act_blockNumber a < i)) /\
  (exists A,
      addressActivity s' = addressActivity s ++ A /\
      forall a, a ∈ A ->
        exists head first,
          rpc_getBlockNumber env (tick s) = Ret head /\
          resumePoint (addressActivity s) head first /\
          first <= act_blockNumber a <= head) /\
  (forall i,
      (forall h, listed env i h -> forall t, exists e, rpc_getTransaction env t h = Throw e) ->
      sameEvents s (snd (processBlock env i s))) /\
  ((forall head first i h,
       rpc_getBlockNumber env (tick s) = Ret head ->
       resumePoint (addressActivity s) head first ->
       first <= i <= head ->
       listed env i h ->
       forall t, exists e, rpc_getTransaction env t h = Throw e) ->
   sameEvents s s' /\
   forall head first,
     resumePoint (addressActivity s') head first <->
     resumePoint (addressActivity s) head first).
Proof.
  intros s'. subst s'. split; [|split; [|split]].
  - intros url head first Hurl Hhead Hdb Hfirst.
    pose proof Hfirst as Hpoint. apply resumePoint_startBlockOf in Hfirst. subst first.
    destruct (processNewBlocks_requests env url s head Hurl Hhead Hdb)
      as (k & Hk & Hone & Hall).
    exists k. split; [exact Hk|]. split; [exact Hone|]. split; [exact Hall|].
    intros a i Ha Hi. apply subseteq_take, elem_of_seqZ in Hi.
    destruct Hpoint as [(newest & _ & Hmax & Heq)|[Hempty _]].
    + specialize (Hmax a Ha). lia.
    + rewrite Hempty in Ha. inversion Ha.
  - destruct (processNewBlocks_range env s) as (A & B & HA & _ & HPA & _).
    exists A. split; [exact HA|]. intros a Ha.
    rewrite Forall_forall in HPA. destruct (HPA a Ha) as (head & Hhead & Hrange).
    exists head, (startBlockOf (lastByBlockNumber (addressActivity s)) head).
    split; [exact Hhead|]. split; [now apply resumePoint_startBlockOf | exact Hrange].
  - intros i Hfail. apply keeps_here; [|apply sameEvents_refl].
    apply keeps_processBlock; [apply sameEvents_stable|].
    intros ts h Hlisted.
    apply keeps_processTransaction_failing; [apply sameEvents_stable|].
    now apply Hfail.
  - intros Hfail.
    assert (Hsame : sameEvents s (snd (processNewBlocks env s))).
    { apply keeps_processNewBlocks_scanned;
        [apply sameEvents_stable | apply sameEvents_refl |].
      intros head i ts h Hhead Hrange Hlisted.
      apply keeps_processTransaction_failing; [apply sameEvents_stable|].
      apply (Hfail head (startBlockOf (lastByBlockNumber (addressActivity s)) head) i);
        auto. now apply resumePoint_startBlockOf. }
    split; [exact Hsame|]. destruct Hsame as [HA _]. intros head first. now rewrite HA.
Qed.

Lemma chainEnv_listed_at now head blocks txs dbFails i h :
  listed (chainEnv now head blocks txs dbFails) i h ->
  exists block, In (i, block) blocks /\ h ∈ transactions block.
Proof.
  intros (t & block & Hblock & Hh). simpl in Hblock.
  destruct (List.find _ blocks) as [[k b]|] eqn:Hfind; [|discriminate].
  injection Hblock as ->. apply find_some in Hfind as [Hin Hk].
  cbn in Hk. apply Z.eqb_eq in Hk. subst k. eauto.
Qed.

Lemma resume_point_witness :
  sameEvents recordedUpTo5 (snd (processNewBlocks resumedChain recordedUpTo5)) /\
  blockRequests (trace (snd (processNewBlocks resumedChain recordedUpTo5))) = [6; 7].
Proof.
  destruct (resume_point_follows_recorded_activity resumedChain recordedUpTo5)
    as (Hrequests & _ & _ & Hquiet).
  assert (Hpoint : resumePoint (addressActivity recordedUpTo5) 7 6).
  { left. eexists. split; [left|]. split; [|reflexivity].
    intros a Ha. apply list_elem_of_singleton in Ha. subst a. cbn. lia. }
  split.
  - apply Hquiet. intros head first i h Hhead Hfirst Hrange Hlisted.
    injection Hhead as <-.
    apply resumePoint_startBlockOf in Hfirst. cbn in Hfirst. subst first.
    apply chainEnv_listed_at in Hlisted as (block & Hin & Hh).
    cbn in Hin. destruct Hin as [[= Hi _]|[[= _ <-]|[[= _ <-]|[]]]];
      [lia | inversion Hh | inversion Hh].
  - destruct (Hrequests _ 7 6 eq_refl eq_refl eq_refl Hpoint) as (k & Hk & _ & Hall & _).
    rewrite Hk, Hall; [reflexivity|].
    intros t i. eexists. reflexivity.
Defined.

(** * Which operations throw *)





(** * Lower-case addresses, the exclusion list and the weekly count *)

Lemma lowerAscii_noUpper c : isUpper (lowerAscii c) = false.
Proof. destruct c as [[] [] [] [] [] [] [] []]; reflexivity. Qed.

Lemma lowerAscii_sameLetter c : sameLetter c (lowerAscii c).
Proof.
  destruct c as [[] [] [] [] [] [] [] []];
    first [left; reflexivity | right; left; split; reflexivity].
Qed.

Lemma lowerAscii_upper c :
  isUpper c = true -> lowerAscii c = ascii_of_nat (nat_of_ascii c + 32).
Proof. unfold isUpper, lowerAscii. cbv zeta. now intros ->. Qed.

Lemma lowerAscii_other c : isUpper c = false -> lowerAscii c = c.
Proof. unfold isUpper, lowerAscii. cbv zeta. now intros ->. Qed.

Lemma isUpper_shifted c d :
  isUpper c = true -> nat_of_ascii d = (nat_of_ascii c + 32)%nat -> isUpper d = false.
Proof.
  unfold isUpper. intros Hc Hd. apply andb_true_iff in Hc as [Hlo Hhi].
  apply Nat.leb_le in Hlo, Hhi. apply andb_false_iff. right. apply Nat.leb_gt. lia.
Qed.

Lemma sameLetter_lowerAscii c d : sameLetter c d -> lowerAscii c = lowerAscii d.
Proof.
  intros [->|[[Hu Hn]|[Hu Hn]]]; [reflexivity| |].
  - rewrite (lowerAscii_upper c Hu), (lowerAscii_other d (isUpper_shifted c d Hu Hn)).
    now rewrite <- Hn, ascii_nat_embedding.
  - rewrite (lowerAscii_upper d Hu), (lowerAscii_other c (isUpper_shifted d c Hu Hn)).
    now rewrite <- Hn, ascii_nat_embedding.
Qed.

Lemma toLowerCase_noUpperCase x : noUpperCase (toLowerCase x) = true.
Proof.
  induction x as [|c x IH]; [reflexivity|]. cbn [toLowerCase noUpperCase].
  now rewrite lowerAscii_noUpper, IH.
Qed.

Lemma toLowerCase_equalIgnoringCase x : equalIgnoringCase x (toLowerCase x).
Proof.
  induction x as [|c x IH]; [exact Logic.I|]. cbn [toLowerCase equalIgnoringCase].
  split; [apply lowerAscii_sameLetter | exact IH].
Qed.

Lemma equalIgnoringCase_toLowerCase x : forall y,
  equalIgnoringCase x y -> toLowerCase x = toLowerCase y.
Proof.
  induction x as [|c x IH]; intros [|d y] Hxy; cbn [equalIgnoringCase] in Hxy.
  - reflexivity.
  - contradiction.
  - contradiction.
  - destruct Hxy as [Hcd Hxy]. cbn [toLowerCase].
    now rewrite (sameLetter_lowerAscii c d Hcd), (IH y Hxy).
Qed.

Lemma toLowerCase_fixes x : noUpperCase x = true -> toLowerCase x = x.
Proof.
  induction x as [|c x IH]; [reflexivity|]. cbn [noUpperCase toLowerCase].
  intros [Hc Hx]%andb_true_iff. apply negb_true_iff in Hc.
  now rewrite (lowerAscii_other c Hc), (IH Hx).
Qed.

(** The lower-case spelling of a string is what [toLowerCase] returns, and
    nothing else. *)
Lemma lowercaseOf_toLowerCase source out :
  lowercaseOf source out <-> out = toLowerCase source.
Proof.
  split.
  - intros [Hlower Hsame]. apply equalIgnoringCase_toLowerCase in Hsame.
    now rewrite Hsame, toLowerCase_fixes.
  - intros ->. split; [apply toLowerCase_noUpperCase | apply toLowerCase_equalIgnoringCase].
Qed.

Lemma SYSTEM_ADDRESSES_lower a : a ∈ SYSTEM_ADDRESSES -> noUpperCase a = true.
Proof.
  assert (H : forallb noUpperCase SYSTEM_ADDRESSES = true) by (vm_compute; reflexivity).
  rewrite forallb_forall in H. intros Ha. apply H. now apply list_elem_of_In.
Qed.

Lemma appends_impl (PA PA' : ActivityEvent -> Prop) (PB PB' : BridgeEvent -> Prop) s0 s :
  (forall a, PA a -> PA' a) -> (forall b, PB b -> PB' b) ->
  appends PA PB s0 s -> appends PA' PB' s0 s.
Proof.
  intros HA HB (A & B & ? & ? & HPA & HPB). exists A, B.
  repeat split; auto; eapply Forall_impl; eauto.
Qed.

Lemma activityFromChain_lowercased env a :
  activityFromChain env a -> activityLowercased env a.
Proof.
  intros (t & h & tx & sender & Htx & Hfrom & Haddr). exists t, h, tx, sender.
  repeat split; auto; rewrite Haddr.
  - apply toLowerCase_noUpperCase.
  - apply toLowerCase_equalIgnoringCase.
Qed.

Lemma bridgeFromChain_lowercased env b :
  bridgeFromChain env b -> bridgeLowercased env b.
Proof.
  intros (t & tx & sender & Htx & Hfrom & Hsender & Hto). exists t, tx, sender.
  split; [exact Htx|]. split; [exact Hfrom|]. split.
  - now apply lowercaseOf_toLowerCase.
  - intros r Hr. destruct (Hto r Hr) as (recipient & Hrecipient & ->).
    exists recipient. split; [exact Hrecipient|]. now apply lowercaseOf_toLowerCase.
Qed.

(** An event of a system address, and an event of an address that is already
    counted, leave the set of the active addresses as it is. *)
Lemma distinctActiveAddresses_system now l e :
  address e ∈ SYSTEM_ADDRESSES ->
  distinctActiveAddresses now (l ++ [e]) = distinctActiveAddresses now l.
Proof.
  intros Hsys. apply set_eq. intros a. rewrite !elem_of_distinctActiveAddresses.
  split; intros [Ha (x & Hx & Haddr & Hts)]; (split; [exact Ha|]).
  - apply elem_of_app in Hx as [Hx|Hx]; [eauto|].
    apply list_elem_of_singleton in Hx. subst x. congruence.
  - exists x. rewrite elem_of_app. auto.
Qed.

Lemma distinctActiveAddresses_counted now l e e' :
  e ∈ l -> now - 604800000 <= act_timestamp e -> address e' = address e ->
  distinctActiveAddresses now (l ++ [e']) = distinctActiveAddresses now l.
Proof.
  intros He Hts Haddr. apply set_eq. intros a. rewrite !elem_of_distinctActiveAddresses.
  split; intros [Ha (x & Hx & Hax & Htx)]; (split; [exact Ha|]).
  - apply elem_of_app in Hx as [Hx|Hx]; [eauto|].
    apply list_elem_of_singleton in Hx. subst x. exists e. repeat split; auto. congruence.
  - exists x. rewrite elem_of_app. auto.
Qed.

Lemma weekly_count_of env s e :
  fst (calculateWeeklyActiveAddresses env (withActivity e s)) =
    Ret (if db_fails env (tick s) then 0
         else Z.of_nat (size (distinctActiveAddresses (clock env (tick s))
                                (addressActivity s ++ [e])))).
Proof. now rewrite calculateWeeklyActiveAddresses_result. Qed.

(** C9.  Every address persisted by the incremental scan or by the backfill
    is the lower-case spelling of the address the chain client returned: it
    holds no upper-case letter and differs from the source in the case of
    letters only.  This holds for the address of each new ActivityEvent, the
    [from] of each new BridgeEvent and its [to] when it is not null.
    Therefore an address is recognised as a system address whatever the case
    in which the chain client spells it, its events never raise the weekly
    count, and two spellings of one address are counted once. *)
Theorem persisted_addresses_are_lowercased (env : Env) (s : State) :
  appends (activityLowercased env) (bridgeLowercased env)
          s (snd (processNewBlocks env s)) /\
  appends (activityLowercased env) (bridgeLowercased env)
          s (snd (backfillBridgeActivity env s)) /\
  (forall source out out', lowercaseOf source out -> lowercaseOf source out' -> out = out') /\
  (forall x ts i,
      address (activityEvent x ts i) ∈ SYSTEM_ADDRESSES <->
      exists a, a ∈ SYSTEM_ADDRESSES /\ equalIgnoringCase x a) /\
  (forall x a ts i,
      a ∈ SYSTEM_ADDRESSES -> equalIgnoringCase x a ->
      fst (calculateWeeklyActiveAddresses env (withActivity (activityEvent x ts i) s)) =
      fst (calculateWeeklyActiveAddresses env s)) /\
  (forall x y ts ts' i i',
      equalIgnoringCase x y -> clock env (tick s) - 604800000 <= ts ->
      fst (calculateWeeklyActiveAddresses env
             (withActivity (activityEvent y ts' i') (withActivity (activityEvent x ts i) s))) =
      fst (calculateWeeklyActiveAddresses env (withActivity (activityEvent x ts i) s))).
Proof.
  assert (Hsystem : forall x a, a ∈ SYSTEM_ADDRESSES -> equalIgnoringCase x a ->
                      toLowerCase x ∈ SYSTEM_ADDRESSES).
  { intros x a Ha Hxa. apply equalIgnoringCase_toLowerCase in Hxa.
    now rewrite Hxa, (toLowerCase_fixes a (SYSTEM_ADDRESSES_lower a Ha)). }
  split; [|split; [|split; [|split; [|split]]]].
  - apply (appends_impl (activityFromChain env) _ (bridgeFromChain env) _);
      [apply activityFromChain_lowercased | apply bridgeFromChain_lowercased |].
    apply keeps_here; [|apply appends_refl].
    apply keeps_processNewBlocks; [apply appends_stable|]. intros i ts h _.
    apply appends_processTransaction;
      eauto using activityEvent_fromChain, depositEvent_fromChain, withdrawalEvent_fromChain.
  - apply (appends_impl (activityFromChain env) _ (bridgeFromChain env) _);
      [apply activityFromChain_lowercased | apply bridgeFromChain_lowercased |].
    apply keeps_here; [|apply appends_refl].
    apply keeps_backfillBridgeActivity; [apply appends_stable|]. intros i ts h _.
    apply appends_backfillTransaction;
      eauto using activityEvent_fromChain, depositEvent_fromChain, withdrawalEvent_fromChain.
  - intros source out out' H H'. apply lowercaseOf_toLowerCase in H, H'. congruence.
  - intros x ts i. cbn [address activityEvent]. split.
    + intros Hin. exists (toLowerCase x). split; [exact Hin|].
      apply toLowerCase_equalIgnoringCase.
    + intros (a & Ha & Hxa). now apply (Hsystem x a).
  - intros x a ts i Ha Hxa.
    rewrite weekly_count_of, calculateWeeklyActiveAddresses_result. cbn [fst].
    rewrite distinctActiveAddresses_system; [reflexivity|].
    cbn [address activityEvent]. now apply (Hsystem x a).
  - intros x y ts ts' i i' Hxy Hts.
    rewrite !weekly_count_of. cbn [fst].
    change (tick (withActivity (activityEvent x ts i) s)) with (tick s).
    change (addressActivity (withActivity (activityEvent x ts i) s))
      with (addressActivity s ++ [activityEvent x ts i]).
    rewrite (distinctActiveAddresses_counted _ _ (activityEvent x ts i));
      [reflexivity | | exact Hts |].
    + rewrite elem_of_app. right. left.
    + cbn [address activityEvent]. symmetry. now apply equalIgnoringCase_toLowerCase.
Qed.

Lemma persisted_addresses_witness :
  fst (calculateWeeklyActiveAddresses idleEnv
         (withActivity (activityEvent upperCasePrecompile NOW 40) weekOfActivity)) =
  fst (calculateWeeklyActiveAddresses idleEnv weekOfActivity).
Proof.
  destruct (persisted_addresses_are_lowercased idleEnv weekOfActivity)
    as (_ & _ & _ & _ & Hsystem & _).
  apply (Hsystem upperCasePrecompile "0x000000000000000000000000000000000000006b").
  - apply (bool_decide_eq_true_1
             ("0x000000000000000000000000000000000000006b" ∈ SYSTEM_ADDRESSES)).
    vm_compute. reflexivity.
  - unfold upperCasePrecompile. cbn [equalIgnoringCase].
    repeat (split; [first [left; reflexivity | right; left; split; reflexivity]|]).
    exact Logic.I.
Defined.
